(** * The match-state engine of the two-player platformer server

    A shallow embedding of the server protocol class [PlayerServerProtocol]
    and a verification of its stage/match rules.

    Two snapshots of the class live in the repository:

    - [Edited_Dustin/protocol.py], the staged match (five stages, cumulative
      scores, [stage_winner] / [match_winner]); it is embedded in the main
      body of this file;
    - [protocol.py] at the root, the single-round ancestor (one [winner]
      flag); it is embedded in [Module Legacy].

    Python dictionaries keyed by wire identifiers are [gmap string _];
    Python integers are [Z]; the object's attributes are the fields of the
    record [game]; a handler is a function from the state to a result and a
    new state, and an exception is a value of the result type. *)

From Stdlib Require Import ZArith Ascii String.
From stdpp Require Import base option list strings pretty gmap fin_maps.

Local Open Scope string_scope.
Local Open Scope list_scope.
Local Open Scope Z_scope.

(** ** Python primitives used by the command processor *)

Module Py.

(** [str.isspace] on the ASCII range: TAB, LF, VT, FF, CR, the four
    separators FS..US and the blank. *)
Definition isspace (a : ascii) : bool :=
  let n := nat_of_ascii a in
  ((9 <=? n)%nat && (n <=? 13)%nat) || ((28 <=? n)%nat && (n <=? 32)%nat).

Fixpoint lstrip (s : string) : string :=
  match s with
  | String a s' => if isspace a then lstrip s' else s
  | EmptyString => EmptyString
  end.

Fixpoint rev_onto (acc s : string) : string :=
  match s with
  | String a s' => rev_onto (String a acc) s'
  | EmptyString => acc
  end.

Definition rstrip (s : string) : string :=
  rev_onto "" (lstrip (rev_onto "" s)).

(** [s.strip()] *)
Definition strip (s : string) : string := rstrip (lstrip s).

(** [s.split()] without argument: the maximal runs of non-blank characters,
    [tok] being the run read so far. *)
Fixpoint split_from (tok : string) (s : string) : list string :=
  match s with
  | String a s' =>
      if isspace a
      then match tok with
           | EmptyString => split_from "" s'
           | _ => tok :: split_from "" s'
           end
      else split_from (tok +:+ String a "") s'
  | EmptyString =>
      match tok with
      | EmptyString => []
      | _ => [tok]
      end
  end.

Definition split (s : string) : list string := split_from "" s.

(** [s.lower()] on ASCII letters. *)
Definition lower_ascii (a : ascii) : ascii :=
  let n := nat_of_ascii a in
  if ((65 <=? n)%nat && (n <=? 90)%nat)%bool then ascii_of_nat (n + 32) else a.

Fixpoint lower (s : string) : string :=
  match s with
  | String a s' => String (lower_ascii a) (lower s')
  | EmptyString => EmptyString
  end.

Definition digit_val (a : ascii) : option Z :=
  let n := nat_of_ascii a in
  if ((48 <=? n)%nat && (n <=? 57)%nat)%bool then Some (Z.of_nat n - 48) else None.

(** The digits of a decimal literal; single underscores may separate digits,
    [after_digit] tells whether the previous character was a digit. *)
Fixpoint digits (acc : Z) (after_digit : bool) (s : string) : option Z :=
  match s with
  | String a s' =>
      if Ascii.eqb a "_"%char
      then (if after_digit then digits acc false s' else None)
      else match digit_val a with
           | Some d => digits (10 * acc + d) true s'
           | None => None
           end
  | EmptyString => if after_digit then Some acc else None
  end.

(** [int(tok)] for a token without blanks, [None] standing for
    [ValueError]: an optional sign and a decimal literal.  (ASCII tokens, as
    the wire contract has them, below the interpreter's limit on the number
    of digits.) *)
Definition int (tok : string) : option Z :=
  match tok with
  | String "+"%char s' => digits 0 false s'
  | String "-"%char s' => Z.opp <$> digits 0 false s'
  | _ => digits 0 false tok
  end.

(** Truth value of an attribute holding [None] or a string. *)
Definition truthy (o : option string) : bool :=
  match o with
  | Some EmptyString => false
  | Some _ => true
  | None => false
  end.

(** Truth value of an attribute holding [None] or a clock reading. *)
Definition truthy_time (o : option Z) : bool :=
  match o with
  | Some t => negb (t =? 0)
  | None => false
  end.

(** Exceptions the embedded code can raise. *)
Inductive exn := IndexError | KeyError | AttributeError.

(** Outcome of a call: a value, or an exception that escapes it. *)
Inductive res (A : Type) :=
| Ok (a : A)
| Raise (e : exn).
Global Arguments Ok {A} a.
Global Arguments Raise {A} e.

End Py.

Import Py.

(** ** Data model *)

(** The two factions; the code writes them as the strings ['black'] and
    ['white']. *)
Inductive color := black | white.

Global Instance color_eq_dec : EqDecision color.
Proof. solve_decision. Defined.

Definition color_name (c : color) : string :=
  match c with black => "black" | white => "white" end.

(** [color_choice in ['black', 'white']] *)
Definition parse_color (s : string) : option color :=
  if String.eqb s "black" then Some black
  else if String.eqb s "white" then Some white
  else None.

(** [f"player_{color}"] *)
Definition player_id_of (c : color) : string := "player_" +:+ color_name c.

Definition opponent (c : color) : color :=
  match c with black => white | white => black end.

(** A player dictionary ([x], [y] of the source are [player_x], [player_y]:
    gems, hazards and walls have keys of the same name). *)
Record player := mk_player {
  color_type : color;
  player_x : Z;
  player_y : Z;
  lives : Z;
  gems_collected : Z;
  at_exit : bool
}.

Record gem := mk_gem { gem_x : Z; gem_y : Z; gem_type : color }.

Record hazard := mk_hazard {
  hazard_type : color;
  hazard_x : Z; hazard_y : Z; hazard_width : Z; hazard_height : Z
}.

(** Walls and the exit area: [{'x', 'y', 'width', 'height'}]. *)
Record rect := mk_rect { rect_x : Z; rect_y : Z; width : Z; height : Z }.

(** An entry of [self.levels]. *)
Record level := mk_level {
  start_pos : list (color * (Z * Z));
  level_walls : list (Z * Z * Z * Z);
  level_hazards : list (color * Z * Z * Z * Z);
  level_gems : list (color * Z * Z);
  level_exit : Z * Z * Z * Z
}.

(** [self.scores], a dictionary with the two fixed keys ['player_black'] and
    ['player_white']. *)
Record scores_t := mk_scores { player_black : Z; player_white : Z }.

(** A started [threading.Timer(interval, function)]; the only function ever
    scheduled is [_load_next_stage]. *)
Inductive callback := load_next_stage_cb.
Record timer := Timer { interval : Z; function : callback }.

(** The attributes of a [PlayerServerProtocol] object, and the timers it has
    started that have not fired yet. *)
Record game := mk_game {
  players : gmap string player;
  gems : gmap string gem;
  hazards : gmap string hazard;
  walls : gmap string rect;
  exit_area : rect;
  levels : list level;
  total_stages : Z;
  scores : scores_t;
  current_level_index : nat;
  match_winner : option string;
  stage_winner : option string;
  start_time : option Z;
  next_gem_id : nat;
  black_gems_required : Z;
  white_gems_required : Z;
  timers : list timer
}.

Definition map_width : Z := 800.
Definition map_height : Z := 600.
Definition default_player_lives : Z := 1.

(** Attribute assignment, [self.f = v], one function per attribute that the
    code assigns. *)
Definition set_players (v : _) (s : game) : game :=
  mk_game v (gems s) (hazards s) (walls s) (exit_area s) (levels s)
    (total_stages s) (scores s) (current_level_index s) (match_winner s)
    (stage_winner s) (start_time s) (next_gem_id s) (black_gems_required s)
    (white_gems_required s) (timers s).
Definition set_gems (v : _) (s : game) : game :=
  mk_game (players s) v (hazards s) (walls s) (exit_area s) (levels s)
    (total_stages s) (scores s) (current_level_index s) (match_winner s)
    (stage_winner s) (start_time s) (next_gem_id s) (black_gems_required s)
    (white_gems_required s) (timers s).
Definition set_hazards (v : _) (s : game) : game :=
  mk_game (players s) (gems s) v (walls s) (exit_area s) (levels s)
    (total_stages s) (scores s) (current_level_index s) (match_winner s)
    (stage_winner s) (start_time s) (next_gem_id s) (black_gems_required s)
    (white_gems_required s) (timers s).
Definition set_walls (v : _) (s : game) : game :=
  mk_game (players s) (gems s) (hazards s) v (exit_area s) (levels s)
    (total_stages s) (scores s) (current_level_index s) (match_winner s)
    (stage_winner s) (start_time s) (next_gem_id s) (black_gems_required s)
    (white_gems_required s) (timers s).
Definition set_exit_area (v : _) (s : game) : game :=
  mk_game (players s) (gems s) (hazards s) (walls s) v (levels s)
    (total_stages s) (scores s) (current_level_index s) (match_winner s)
    (stage_winner s) (start_time s) (next_gem_id s) (black_gems_required s)
    (white_gems_required s) (timers s).
Definition set_levels (v : _) (s : game) : game :=
  mk_game (players s) (gems s) (hazards s) (walls s) (exit_area s) v
    (total_stages s) (scores s) (current_level_index s) (match_winner s)
    (stage_winner s) (start_time s) (next_gem_id s) (black_gems_required s)
    (white_gems_required s) (timers s).
Definition set_scores (v : _) (s : game) : game :=
  mk_game (players s) (gems s) (hazards s) (walls s) (exit_area s) (levels s)
    (total_stages s) v (current_level_index s) (match_winner s) (stage_winner
    s) (start_time s) (next_gem_id s) (black_gems_required s)
    (white_gems_required s) (timers s).
Definition set_current_level_index (v : _) (s : game) : game :=
  mk_game (players s) (gems s) (hazards s) (walls s) (exit_area s) (levels s)
    (total_stages s) (scores s) v (match_winner s) (stage_winner s)
    (start_time s) (next_gem_id s) (black_gems_required s)
    (white_gems_required s) (timers s).
Definition set_match_winner (v : _) (s : game) : game :=
  mk_game (players s) (gems s) (hazards s) (walls s) (exit_area s) (levels s)
    (total_stages s) (scores s) (current_level_index s) v (stage_winner s)
    (start_time s) (next_gem_id s) (black_gems_required s)
    (white_gems_required s) (timers s).
Definition set_stage_winner (v : _) (s : game) : game :=
  mk_game (players s) (gems s) (hazards s) (walls s) (exit_area s) (levels s)
    (total_stages s) (scores s) (current_level_index s) (match_winner s) v
    (start_time s) (next_gem_id s) (black_gems_required s)
    (white_gems_required s) (timers s).
Definition set_start_time (v : _) (s : game) : game :=
  mk_game (players s) (gems s) (hazards s) (walls s) (exit_area s) (levels s)
    (total_stages s) (scores s) (current_level_index s) (match_winner s)
    (stage_winner s) v (next_gem_id s) (black_gems_required s)
    (white_gems_required s) (timers s).
Definition set_next_gem_id (v : _) (s : game) : game :=
  mk_game (players s) (gems s) (hazards s) (walls s) (exit_area s) (levels s)
    (total_stages s) (scores s) (current_level_index s) (match_winner s)
    (stage_winner s) (start_time s) v (black_gems_required s)
    (white_gems_required s) (timers s).
Definition set_black_gems_required (v : _) (s : game) : game :=
  mk_game (players s) (gems s) (hazards s) (walls s) (exit_area s) (levels s)
    (total_stages s) (scores s) (current_level_index s) (match_winner s)
    (stage_winner s) (start_time s) (next_gem_id s) v (white_gems_required s)
    (timers s).
Definition set_white_gems_required (v : _) (s : game) : game :=
  mk_game (players s) (gems s) (hazards s) (walls s) (exit_area s) (levels s)
    (total_stages s) (scores s) (current_level_index s) (match_winner s)
    (stage_winner s) (start_time s) (next_gem_id s) (black_gems_required s) v
    (timers s).
Definition set_timers (v : _) (s : game) : game :=
  mk_game (players s) (gems s) (hazards s) (walls s) (exit_area s) (levels s)
    (total_stages s) (scores s) (current_level_index s) (match_winner s)
    (stage_winner s) (start_time s) (next_gem_id s) (black_gems_required s)
    (white_gems_required s) v.

(** ** The handler monad: state passing with exceptions *)

Definition M (A : Type) : Type := game -> res A * game.

Definition ret {A} (a : A) : M A := fun s => (Ok a, s).
Definition raise {A} (e : exn) : M A := fun s => (Raise e, s).
Definition bind {A B} (c : M A) (k : A -> M B) : M B :=
  fun s => match c s with
           | (Ok a, s') => k a s'
           | (Raise e, s') => (Raise e, s')
           end.

Notation "x <- c1 ;; c2" := (bind c1 (fun x => c2))
  (at level 100, c1 at next level, right associativity).
Notation "c1 ;; c2" := (bind c1 (fun _ => c2))
  (at level 100, right associativity).

(** ** Level catalog: [_define_levels] *)

Definition level_1 : level :=
  mk_level [(black, (50, 532)); (white, (702, 532))]
    [(0, 580, 800, 20); (200, 480, 400, 20); (300, 380, 200, 20);
     (550, 280, 100, 20); (250, 180, 100, 20)]
    [(white, 300, 560, 100, 20)]
    [(black, 250, 450); (white, 500, 450); (black, 350, 350); (white, 400, 350)]
    (360, 40, 80, 80).

Definition level_2 : level :=
  mk_level [(black, (50, 532)); (white, (702, 532))]
    [(0, 580, 150, 20); (650, 580, 150, 20); (250, 500, 100, 20);
     (450, 500, 100, 20); (100, 400, 100, 20); (600, 400, 100, 20);
     (300, 300, 200, 20)]
    [(black, 150, 560, 50, 20)]
    [(black, 270, 470); (white, 470, 470); (black, 120, 370); (white, 620, 370);
     (black, 390, 270)]
    (360, 220, 80, 80).

Definition level_3 : level :=
  mk_level [(black, (50, 332)); (white, (702, 332))]
    [(0, 380, 200, 20); (600, 380, 200, 20); (0, 580, 800, 20);
     (380, 480, 40, 100); (250, 250, 300, 20)]
    [(white, 20, 560, 350, 20); (black, 430, 560, 350, 20)]
    [(black, 100, 550); (black, 200, 550); (white, 600, 550); (white, 700, 550);
     (black, 390, 220); (white, 490, 220)]
    (360, 100, 80, 80).

Definition level_4 : level :=
  mk_level [(black, (50, 532)); (white, (702, 532))]
    [(0, 580, 800, 20); (150, 480, 50, 20); (600, 480, 50, 20);
     (300, 400, 200, 20); (100, 300, 50, 20); (650, 300, 50, 20);
     (250, 200, 300, 20)]
    [(white, 200, 560, 100, 20); (black, 500, 560, 100, 20)]
    [(black, 160, 450); (white, 610, 450); (black, 390, 370); (white, 110, 270);
     (black, 660, 270)]
    (360, 40, 80, 80).

Definition level_5 : level :=
  mk_level [(black, (30, 532)); (white, (722, 532))]
    [(0, 580, 100, 20); (700, 580, 100, 20); (150, 500, 20, 80);
     (630, 500, 20, 80); (250, 450, 300, 20); (380, 200, 40, 250);
     (100, 350, 100, 20); (600, 350, 100, 20); (200, 150, 400, 20)]
    [(black, 100, 560, 600, 20); (white, 250, 430, 300, 20)]
    [(black, 60, 550); (white, 730, 550); (black, 110, 320); (white, 610, 320);
     (black, 250, 120); (white, 500, 120)]
    (360, 40, 80, 80).

Definition _define_levels : list level :=
  [level_1; level_2; level_3; level_4; level_5].

(** ** Entity registry and stage controller *)

(** [wall_id = f"wall_{len(self.walls)}"; self.walls[wall_id] = {...}] *)
Definition _place_wall (w : Z * Z * Z * Z) (s : game) : game :=
  let '(x, y, wd, ht) := w in
  let wall_id := "wall_" +:+ pretty (size (walls s)) in
  set_walls (<[wall_id := mk_rect x y wd ht]> (walls s)) s.

(** The body of the hazard loop of [_load_level]. *)
Definition place_hazard (h : color * Z * Z * Z * Z) (s : game) : game :=
  let '(c, x, y, wd, ht) := h in
  let h_id := color_name c +:+ "_pool_" +:+ pretty (size (hazards s)) in
  set_hazards (<[h_id := mk_hazard c x y wd ht]> (hazards s)) s.

(** [_place_gem(x, y, gem_type)]; the identifier it returns is not used by
    its caller. *)
Definition _place_gem (x y : Z) (gt : color) (s : game) : game :=
  let gem_id := color_name gt +:+ "_gem_" +:+ pretty (next_gem_id s) in
  let s := set_next_gem_id (S (next_gem_id s)) s in
  let s := set_gems (<[gem_id := mk_gem x y gt]> (gems s)) s in
  match gt with
  | black => set_black_gems_required (black_gems_required s + 1) s
  | white => set_white_gems_required (white_gems_required s + 1) s
  end.

(** [color in start_positions] and [start_positions[color]] on the
    dictionary of start positions. *)
Fixpoint dict_get {V} (d : list (color * V)) (c : color) : option V :=
  match d with
  | (k, v) :: d' => if decide (k = c) then Some v else dict_get d' c
  | [] => None
  end.

Definition _reset_player_for_new_stage
    (player_data : player) (start_positions : list (color * (Z * Z))) : player :=
  let c := color_type player_data in
  let '(x, y) :=
    match start_positions, dict_get start_positions c with
    | _ :: _, Some xy => xy
    | _, _ => (match c with black => 50 | white => map_width - 50 - 48 end,
               map_height - 20 - 48)
    end in
  mk_player c x y default_player_lives 0 false.

Definition _load_level (level_index : nat) (s : game) : game :=
  match levels s !! level_index with
  | None => s
  | Some level_data =>
      let s := set_current_level_index level_index s in
      let s := set_walls ∅ (set_hazards ∅ (set_gems ∅ s)) in
      let s := set_white_gems_required 0 (set_black_gems_required 0 s) in
      let s := set_stage_winner None (set_next_gem_id 0 s) in
      let s := _place_wall (0, map_height - 20, map_width, 20) s in
      let s := _place_wall (0, 0, 20, map_height) s in
      let s := _place_wall (map_width - 20, 0, 20, map_height) s in
      let s := _place_wall (0, 0, map_width, 20) s in
      let s := foldl (fun s w => _place_wall w s) s (level_walls level_data) in
      let s := foldl (fun s h => place_hazard h s) s (level_hazards level_data) in
      let s := foldl (fun s g => let '(gt, x, y) := g in _place_gem x y gt s)
                     s (level_gems level_data) in
      let '(ex, ey, ew, eh) := level_exit level_data in
      let s := set_exit_area (mk_rect ex ey ew eh) s in
      set_players
        ((fun p => _reset_player_for_new_stage p (start_pos level_data))
           <$> players s) s
  end.

Definition _determine_final_winner (s : game) : game :=
  let sc := scores s in
  if player_white sc <? player_black sc
  then set_match_winner (Some "player_black") s
  else if player_black sc <? player_white sc
  then set_match_winner (Some "player_white") s
  else set_match_winner (Some "draw") s.

(** The timer callback. *)
Definition _load_next_stage (s : game) : game :=
  if truthy (match_winner s) then s
  else if Z.of_nat (current_level_index s) + 1 <? total_stages s
  then _load_level (current_level_index s + 1) s
  else _determine_final_winner s.

Definition _full_reset (s : game) : game :=
  let s := set_players ∅ s in
  let s := set_scores (mk_scores 0 0) s in
  let s := set_start_time None (set_stage_winner None (set_match_winner None s)) in
  let s := set_levels _define_levels s in
  _load_level 0 s.

(** The object as [__init__] leaves it: empty containers, five stages, no
    timer started, then [_full_reset]. *)
Definition init : game :=
  _full_reset
    (mk_game ∅ ∅ ∅ ∅ (mk_rect 0 0 0 0) [] 5 (mk_scores 0 0) 0 None None None 0
       0 0 []).

(** ** Responses *)

Inductive status := OK | ERROR.

Global Instance status_eq_dec : EqDecision status.
Proof. solve_decision. Defined.

(** The ["game_info"] entry of a snapshot. *)
Record game_info := mk_game_info {
  info_current_stage : Z;
  info_total_stages : Z;
  info_scores : scores_t;
  info_elapsed_time : Z;
  info_stage_winner : option string;
  info_match_winner : option string;
  info_required_black : Z;
  info_required_white : Z
}.

(** The answer of [get_game_state], the asset blobs left out.  The three
    lists come in the order of [map_to_list], not in insertion order. *)
Record snapshot := mk_snapshot {
  snap_players : gmap string player;
  snap_gems : list (string * gem);
  snap_hazards : list (string * hazard);
  snap_walls : list (string * rect);
  snap_exit_area : rect;
  snap_game_info : game_info
}.

(** The dictionary a handler returns, before [json.dumps]. *)
Inductive response :=
| Status (st : status) (message : option string)
| Registered (player_id : string) (c : color) (x y : Z)
| PlayerInfo (c : color)
| GameState (snap : snapshot).

(** The ["status"] entry of a response. *)
Definition status_of (r : response) : status :=
  match r with
  | Status st _ => st
  | Registered _ _ _ _ | PlayerInfo _ | GameState _ => OK
  end.

(** ** Command handlers *)

(** [self.scores[k]], [None] standing for [KeyError]. *)
Definition scores_get (k : string) (sc : scores_t) : option Z :=
  if String.eqb k "player_black" then Some (player_black sc)
  else if String.eqb k "player_white" then Some (player_white sc)
  else None.

(** [self.scores[k] = v] for a key that is present. *)
Definition scores_set (k : string) (v : Z) (sc : scores_t) : scores_t :=
  if String.eqb k "player_black" then mk_scores v (player_white sc)
  else if String.eqb k "player_white" then mk_scores (player_black sc) v
  else sc.

Definition _handle_stage_win (winner_id : string) : M unit := fun s =>
  if truthy (stage_winner s) then ret tt s
  else
    let s := set_stage_winner (Some winner_id) s in
    match scores_get winner_id (scores s) with
    | None => raise KeyError s
    | Some n =>
        let s := set_scores (scores_set winner_id (n + 1) (scores s)) s in
        if total_stages s / 2 + 1 <=? n + 1
        then ret tt (_determine_final_winner s)
        else if total_stages s <=? Z.of_nat (current_level_index s) + 1
        then ret tt (_determine_final_winner s)
        else ret tt (set_timers (timers s ++ [Timer 3 load_next_stage_cb]) s)
    end.

(** [_register_player].  The level lookup is done before the new player is
    stored: the source stores a dictionary holding only the colour first and
    fills it after the lookup, and a player record has no such partial
    form.  The lookup fails only when [current_level_index] is outside the
    catalog, which [_load_level] never leaves behind. *)
Definition _register_player (now : Z) (color_choice : string) : M response :=
  fun s =>
  match parse_color (lower color_choice) with
  | None => ret (Status ERROR (Some "Invalid color.")) s
  | Some c =>
      let player_id := player_id_of c in
      match players s !! player_id with
      | Some _ => ret (Status ERROR (Some "Color is taken.")) s
      | None =>
          match levels s !! current_level_index s with
          | None => raise IndexError s
          | Some lv =>
              let player_data :=
                _reset_player_for_new_stage (mk_player c 0 0 0 0 false)
                  (start_pos lv) in
              let s := set_players (<[player_id := player_data]> (players s)) s in
              let s := if (size (players s) =? 1)%nat
                            && negb (truthy_time (start_time s))
                       then set_start_time (Some now) s else s in
              ret (Registered player_id c (player_x player_data)
                     (player_y player_data)) s
          end
      end
  end.

Definition _set_player_state (player_id : string) (x y lv : Z) : M response :=
  fun s =>
  match players s !! player_id with
  | Some p =>
      let p' := mk_player (color_type p) x y lv (gems_collected p) (at_exit p) in
      ret (Status OK None) (set_players (<[player_id := p']> (players s)) s)
  | None => ret (Status ERROR (Some "Player not found.")) s
  end.

Definition _get_player_info (player_id : string) : M response := fun s =>
  match players s !! player_id with
  | Some p => ret (PlayerInfo (color_type p)) s
  | None => ret (Status ERROR (Some "Player not found.")) s
  end.

Definition _get_game_state (now : Z) : M response := fun s =>
  let elapsed_time :=
    match start_time s with
    | Some t => if t =? 0 then 0 else now - t
    | None => 0
    end in
  let game_info_data :=
    mk_game_info (Z.of_nat (current_level_index s) + 1) (total_stages s)
      (scores s) elapsed_time (stage_winner s) (match_winner s)
      (black_gems_required s) (white_gems_required s) in
  ret (GameState
         (mk_snapshot (players s) (map_to_list (gems s))
            (map_to_list (hazards s)) (map_to_list (walls s))
            (exit_area s) game_info_data)) s.

Definition _collect_gem (player_id gem_id : string) : M response := fun s =>
  if truthy (match_winner s) || truthy (stage_winner s)
  then ret (Status ERROR None) s
  else
    match players s !! player_id, gems s !! gem_id with
    | Some p, Some g =>
        if decide (color_type p = gem_type g)
        then
          let p' := mk_player (color_type p) (player_x p) (player_y p) (lives p)
                      (gems_collected p + 1) (at_exit p) in
          let s := set_players (<[player_id := p']> (players s)) s in
          let s := set_gems (delete gem_id (gems s)) s in
          ret (Status OK None) s
        else ret (Status ERROR None) s
    | _, _ => ret (Status ERROR None) s
    end.

Definition _check_hazard_collision (player_id hazard_id : string) : M response :=
  fun s =>
  if truthy (match_winner s) || truthy (stage_winner s)
  then ret (Status ERROR None) s
  else
    match players s !! player_id, hazards s !! hazard_id with
    | Some p, Some h =>
        if decide (color_type p ≠ hazard_type h)
        then
          let p' := mk_player (color_type p) (player_x p) (player_y p) 0
                      (gems_collected p) (at_exit p) in
          let s := set_players (<[player_id := p']> (players s)) s in
          let opponent_id :=
            match color_type p with
            | black => "player_white"
            | white => "player_black"
            end in
          (_handle_stage_win opponent_id ;; ret (Status OK None)) s
        else ret (Status OK None) s
    | _, _ => ret (Status OK None) s
    end.

Definition _player_at_exit (player_id : string) : M response := fun s =>
  if truthy (match_winner s) || truthy (stage_winner s)
  then ret (Status OK (Some "Stage has already been won.")) s
  else
    match players s !! player_id with
    | Some p =>
        let p' := mk_player (color_type p) (player_x p) (player_y p) (lives p)
                    (gems_collected p) true in
        let s := set_players (<[player_id := p']> (players s)) s in
        let required_gems :=
          match color_type p' with
          | black => black_gems_required s
          | white => white_gems_required s
          end in
        ((if required_gems <=? gems_collected p'
          then _handle_stage_win player_id
          else ret tt) ;;
         ret (Status OK (Some "Player at exit processed."))) s
    | None => ret (Status ERROR (Some "Player not found.")) s
    end.

(** ** The command processor *)

(** The first statement under the lock: the match clock starts with the
    first command that finds a player registered. *)
Definition start_clock (now : Z) (s : game) : game :=
  if negb (truthy_time (start_time s)) && (1 <=? size (players s))%nat
  then set_start_time (Some now) s else s.

(** [proses_string(command_string)], [now] being what [time.time()] reads
    during the call.  The result is the dictionary handed to
    [json.dumps]. *)
Definition proses_string (now : Z) (command_string : string) : M response :=
  fun s =>
  match split (strip command_string) with
  | [] => raise IndexError s
  | part0 :: args =>
      let command := lower part0 in
      let s := start_clock now s in
      if String.eqb command "register_player" then
        match args with
        | a0 :: _ => _register_player now a0 s
        | [] => ret (Status ERROR None) s
        end
      else if String.eqb command "set_player_state" then
        match args with
        | [a0; a1; a2; a3] =>
            match int a1, int a2, int a3 with
            | Some x, Some y, Some lv => _set_player_state a0 x y lv s
            | _, _, _ => ret (Status ERROR None) s
            end
        | _ => ret (Status ERROR None) s
        end
      else if String.eqb command "get_game_state" then _get_game_state now s
      else if String.eqb command "get_player_info" then
        match args with
        | a0 :: _ => _get_player_info a0 s
        | [] => ret (Status ERROR None) s
        end
      else if String.eqb command "collect_gem" then
        match args with
        | [a0; a1] => _collect_gem a0 a1 s
        | _ => ret (Status ERROR None) s
        end
      else if String.eqb command "check_hazard_collision" then
        match args with
        | [a0; a1] => _check_hazard_collision a0 a1 s
        | _ => ret (Status ERROR None) s
        end
      else if String.eqb command "player_at_exit" then
        match args with
        | a0 :: _ => _player_at_exit a0 s
        | [] => ret (Status ERROR None) s
        end
      else if String.eqb command "reset_game" then
        ret (Status OK None) (_full_reset s)
      else ret (Status ERROR (Some "Unknown command")) s
  end.

(** A timer that was started fires: it leaves the pending list and runs its
    callback. *)
Definition fire_timer (s : game) : option game :=
  match timers s with
  | Timer _ load_next_stage_cb :: rest => Some (_load_next_stage (set_timers rest s))
  | [] => None
  end.

(** ** The single-round ancestor: [protocol.py] at the root *)

Module Legacy.

Record game := mk_game {
  players : gmap string player;
  gems : gmap string gem;
  hazards : gmap string hazard;
  walls : gmap string rect;
  exit_area : rect;
  next_gem_id : nat;
  winner : option string;
  black_gems_required : Z;
  white_gems_required : Z
}.

Definition map_width : Z := 640.
Definition map_height : Z := 480.
Definition default_player_lives : Z := 1.

Record snapshot := mk_snapshot {
  snap_players : gmap string player;
  snap_gems : list (string * gem);
  snap_hazards : list (string * hazard);
  snap_walls : list (string * rect);
  snap_exit_area : rect;
  snap_black_gems_required : Z;
  snap_white_gems_required : Z;
  snap_winner : option string
}.

Inductive response :=
| Status (st : status) (message : string)
| Registered (player_id : string) (c : color) (message : string) (x y : Z)
| PlayerInfo (c : color)
| HazardHit (message : string) (winner : option string)
| GameState (snap : snapshot).

Definition status_of (r : response) : status :=
  match r with
  | Status st _ => st
  | Registered _ _ _ _ _ | PlayerInfo _ | HazardHit _ _ | GameState _ => OK
  end.

Definition _place_wall (x y wd ht : Z) (s : game) : game :=
  let wall_id := "wall_" +:+ pretty (size (walls s)) in
  mk_game (players s) (gems s) (hazards s)
    (<[wall_id := mk_rect x y wd ht]> (walls s)) (exit_area s) (next_gem_id s)
    (winner s) (black_gems_required s) (white_gems_required s).

Definition _place_gem (x y : Z) (gt : color) (s : game) : game :=
  let gem_id := color_name gt +:+ "_gem_" +:+ pretty (next_gem_id s) in
  mk_game (players s) (<[gem_id := mk_gem x y gt]> (gems s)) (hazards s)
    (walls s) (exit_area s) (S (next_gem_id s)) (winner s)
    (match gt with black => black_gems_required s + 1
                 | white => black_gems_required s end)
    (match gt with black => white_gems_required s
                 | white => white_gems_required s + 1 end).

Definition _initialize_game_elements (s : game) : game :=
  let s := mk_game (players s) ∅ ∅ ∅ (exit_area s) 0 None 0 0 in
  let s := _place_wall 0 (map_height - 20) map_width 20 s in
  let s := _place_wall 0 0 20 map_height s in
  let s := _place_wall (map_width - 20) 0 20 map_height s in
  let s := _place_wall 0 0 map_width 20 s in
  let s := _place_wall 50 400 (map_width - 100) 20 s in
  let s := _place_wall 150 300 100 20 s in
  let s := _place_wall (map_width - 250) 300 100 20 s in
  let s := _place_wall 50 200 150 20 s in
  let s := _place_wall (map_width - 200) 200 150 20 s in
  let s := _place_wall 250 100 140 20 s in
  let hz :=
    <["black_pool_2" := mk_hazard black (map_width - 340) 200 60 20]>
      (<["black_pool_1" := mk_hazard black (map_width - 160) 420 60 20]>
         (<["white_pool_2" := mk_hazard white 300 380 60 20]>
            (<["white_pool_1" := mk_hazard white 100 420 60 20]> (hazards s)))) in
  let s := mk_game (players s) (gems s) hz (walls s) (mk_rect 280 40 80 80)
             (next_gem_id s) (winner s) (black_gems_required s)
             (white_gems_required s) in
  let s := _place_gem 70 370 black s in
  let s := _place_gem 200 270 black s in
  let s := _place_gem 120 170 black s in
  let s := _place_gem (map_width - 120) 370 white s in
  let s := _place_gem (map_width - 240) 270 white s in
  _place_gem (map_width - 150) 170 white s.

Definition init : game :=
  _initialize_game_elements (mk_game ∅ ∅ ∅ ∅ (mk_rect 0 0 0 0) 0 None 0 0).

Definition set_players (v : gmap string player) (s : game) : game :=
  mk_game v (gems s) (hazards s) (walls s) (exit_area s) (next_gem_id s)
    (winner s) (black_gems_required s) (white_gems_required s).

Definition set_winner (v : option string) (s : game) : game :=
  mk_game (players s) (gems s) (hazards s) (walls s) (exit_area s)
    (next_gem_id s) v (black_gems_required s) (white_gems_required s).

Definition _register_player (color_choice : string) (s : game)
    : response * game :=
  match parse_color (lower color_choice) with
  | None =>
      (Status ERROR "Invalid color choice. Must be 'black' or 'white'.", s)
  | Some c =>
      let player_id := player_id_of c in
      match players s !! player_id with
      | Some _ =>
          (Status ERROR
             ("Player color '" +:+ color_name c +:+ "' is already taken."), s)
      | None =>
          let '(initial_x, initial_y) :=
            match c with
            | black => (70, 400 - 64)
            | white => (map_width - 70 - 64, 400 - 64)
            end in
          let p := mk_player c initial_x initial_y default_player_lives 0 false in
          (Registered player_id c
             ("Player " +:+ player_id +:+ " registered as " +:+ color_name c
              +:+ ".") initial_x initial_y,
           set_players (<[player_id := p]> (players s)) s)
      end
  end.

Definition _set_player_state (player_id : string) (x y lv : Z) (s : game)
    : response * game :=
  match players s !! player_id with
  | Some p =>
      let p' := mk_player (color_type p) x y lv (gems_collected p) (at_exit p) in
      (Status OK ("Player " +:+ player_id +:+ " state updated."),
       set_players (<[player_id := p']> (players s)) s)
  | None => (Status ERROR ("Player " +:+ player_id +:+ " not found."), s)
  end.

Definition _get_player_info (player_id : string) (s : game) : response * game :=
  match players s !! player_id with
  | Some p => (PlayerInfo (color_type p), s)
  | None => (Status ERROR "Player not found.", s)
  end.

Definition _get_game_state (s : game) : response * game :=
  (GameState
     (mk_snapshot (players s) (map_to_list (gems s)) (map_to_list (hazards s))
        (map_to_list (walls s)) (exit_area s) (black_gems_required s)
        (white_gems_required s) (winner s)), s).

Definition _collect_gem (player_id gem_id : string) (s : game)
    : response * game :=
  if truthy (winner s) then (Status ERROR "Game has already ended.", s)
  else
    match players s !! player_id, gems s !! gem_id with
    | Some p, Some g =>
        if decide (color_type p = gem_type g)
        then
          let p' := mk_player (color_type p) (player_x p) (player_y p) (lives p)
                      (gems_collected p + 1) (at_exit p) in
          (Status OK "Gem collected.",
           mk_game (<[player_id := p']> (players s)) (delete gem_id (gems s))
             (hazards s) (walls s) (exit_area s) (next_gem_id s) (winner s)
             (black_gems_required s) (white_gems_required s))
        else (Status ERROR "Wrong gem color for this character.", s)
    | _, _ => (Status ERROR "Player or gem not found.", s)
    end.

Definition _check_hazard_collision (player_id hazard_id : string) (s : game)
    : response * game :=
  if truthy (winner s) then (Status ERROR "Game has already ended.", s)
  else
    match players s !! player_id, hazards s !! hazard_id with
    | Some p, Some h =>
        let opponent_color := opponent (color_type p) in
        if decide (color_type p ≠ hazard_type h)
        then
          let p' := mk_player (color_type p) (player_x p) (player_y p) 0
                      (gems_collected p) (at_exit p) in
          let w := Some (player_id_of opponent_color) in
          (HazardHit "Hazard hit, game over." w,
           set_winner w (set_players (<[player_id := p']> (players s)) s))
        else (Status OK "Safe hazard.", s)
    | _, _ => (Status ERROR "Player or hazard not found.", s)
    end.

Definition _check_race_win_condition (player_id : string) (p : player)
    (s : game) : game :=
  if truthy (winner s) then s
  else
    let required_gems :=
      match color_type p with
      | black => black_gems_required s
      | white => white_gems_required s
      end in
    if at_exit p && (required_gems <=? gems_collected p)
    then set_winner (Some player_id) s
    else s.

Definition _player_at_exit (player_id : string) (s : game) : response * game :=
  if truthy (winner s) then (Status ERROR "Game has already ended.", s)
  else
    match players s !! player_id with
    | Some p =>
        let p' := mk_player (color_type p) (player_x p) (player_y p) (lives p)
                    (gems_collected p) true in
        let s := set_players (<[player_id := p']> (players s)) s in
        (Status OK ("Player " +:+ player_id +:+ " is at exit."),
         _check_race_win_condition player_id p' s)
    | None => (Status ERROR "Player not found.", s)
    end.

(** The module-level function [_reset_game(self)], which no command
    reaches: it rebuilds the level, moves every stored player back to its
    start, and then clears the players. *)
Definition reset_player (p : player) : player :=
  let '(x, y) :=
    match color_type p with
    | black => (70, 400 - 64)
    | white => (map_width - 70 - 64, 400 - 64)
    end in
  mk_player (color_type p) x y default_player_lives 0 false.

Definition _reset_game (s : game) : response * game :=
  let s := _initialize_game_elements s in
  let s := set_players (reset_player <$> players s) s in
  let s := set_players ∅ s in
  (Status OK "Game state reset.", s).

(** [proses_string].  The class has no attribute [_reset_game]: the
    function of that name is defined at module level, below the class, so
    the call [self._reset_game()] raises [AttributeError]. *)
Definition proses_string (command_string : string) (s : game)
    : res response * game :=
  let ok (r : response * game) : res response * game := (Ok r.1, r.2) in
  match split (strip command_string) with
  | [] => (Raise IndexError, s)
  | part0 :: args =>
      let command := lower part0 in
      if String.eqb command "register_player" then
        match args with
        | [a0] => ok (_register_player a0 s)
        | _ => (Ok (Status ERROR "Usage: register_player <player_id>"), s)
        end
      else if String.eqb command "set_player_state" then
        match args with
        | [a0; a1; a2; a3] =>
            match int a1, int a2, int a3 with
            | Some x, Some y, Some lv => ok (_set_player_state a0 x y lv s)
            | _, _, _ => (Ok (Status ERROR "Invalid state values"), s)
            end
        | _ =>
            (Ok (Status ERROR "Usage: set_player_state <id> <x> <y> <lives>"), s)
        end
      else if String.eqb command "get_game_state" then ok (_get_game_state s)
      else if String.eqb command "get_player_info" then
        match args with
        | [a0] => ok (_get_player_info a0 s)
        | _ => (Ok (Status ERROR "Usage: get_player_info <player_id>"), s)
        end
      else if String.eqb command "collect_gem" then
        match args with
        | [a0; a1] => ok (_collect_gem a0 a1 s)
        | _ => (Ok (Status ERROR "Usage: collect_gem <player_id> <gem_id>"), s)
        end
      else if String.eqb command "check_hazard_collision" then
        match args with
        | [a0; a1] => ok (_check_hazard_collision a0 a1 s)
        | _ =>
            (Ok (Status ERROR
                   "Usage: check_hazard_collision <player_id> <hazard_id>"), s)
        end
      else if String.eqb command "player_at_exit" then
        match args with
        | [a0] => ok (_player_at_exit a0 s)
        | _ => (Ok (Status ERROR "Usage: player_at_exit <player_id>"), s)
        end
      else if String.eqb command "reset_game" then (Raise AttributeError, s)
      else (Ok (Status ERROR "Unknown command"), s)
  end.

End Legacy.

(** * Verification *)

(** ** Vocabulary of the statements *)

(** Every player is stored under the identifier of its colour. *)
Definition ids_follow_colors (m : gmap string player) : Prop :=
  ∀ pid p, m !! pid = Some p -> pid = player_id_of (color_type p).

(** What every command and every stage load maintains: players sit under
    their colour's id, and the current stage is a stage of the catalog. *)
Definition well_formed (s : game) : Prop :=
  ids_follow_colors (players s)
  ∧ is_Some (levels s !! current_level_index s).

(** The match clock runs whenever a player is registered: there is no
    player, or [start_time] holds a clock reading that counts as true. *)
Definition clock_runs (s : game) : Prop :=
  players s = ∅ ∨ truthy_time (start_time s) = true.

(** A winner flag is unset when it holds [None], and set when it holds a
    value the guards of the handlers take for true. *)
Definition undecided (s : game) : Prop :=
  stage_winner s = None ∧ match_winner s = None.

Definition decided (s : game) : Prop :=
  truthy (stage_winner s) = true ∨ truthy (match_winner s) = true.

(** The collectibles of colour [c] in a stage definition. *)
Definition gems_of_color (c : color) (lv : level) : list (color * Z * Z) :=
  filter (fun g => g.1.1 = c) (level_gems lv).

(** [required_gems[c]] *)
Definition required_gems (c : color) (s : game) : Z :=
  match c with
  | black => black_gems_required s
  | white => white_gems_required s
  end.

(** The cumulative score of colour [c]. *)
Definition score (c : color) (s : game) : Z :=
  match c with
  | black => player_black (scores s)
  | white => player_white (scores s)
  end.

(** The player dictionary after [player['lives'] = 0]. *)
Definition killed (p : player) : player :=
  mk_player (color_type p) (player_x p) (player_y p) 0 (gems_collected p)
    (at_exit p).

(** The player dictionary after [player['at_exit'] = True]. *)
Definition arrived (p : player) : player :=
  mk_player (color_type p) (player_x p) (player_y p) (lives p)
    (gems_collected p) true.

(** The player dictionary after [player['gems_collected'] += 1]. *)
Definition collected (p : player) : player :=
  mk_player (color_type p) (player_x p) (player_y p) (lives p)
    (gems_collected p + 1) (at_exit p).

(** The command name [proses_string] dispatches on, when the line has one. *)
Definition command_of (line : string) : option string :=
  match split (strip line) with
  | part0 :: _ => Some (lower part0)
  | [] => None
  end.

(** The arguments that follow the command name. *)
Definition args_of (line : string) : list string :=
  match split (strip line) with
  | _ :: args => args
  | [] => []
  end.

(** A sequence of commands, each with the clock reading of its call,
    processed in order; no timer fires in between. *)
Definition run_commands (cmds : list (Z * string)) (s : game) : game :=
  foldl (fun s c => (proses_string c.1 c.2 s).2) s cmds.

(** The identifiers of the gems listed by an answer of [get_game_state]. *)
Definition snapshot_gem_ids (r : res response) : list string :=
  match r with
  | Ok (GameState snap) => (snap_gems snap).*1
  | _ => []
  end.

(** What a command of the running stage may do to the stage: it adds no
    gem, and leaves the hazards, the walls, the exit, the catalog, the stage
    index and the requirement counts as they are. *)
Definition stage_frame (s s' : game) : Prop :=
  gems s' ⊆ gems s ∧ hazards s' = hazards s ∧ walls s' = walls s ∧
  exit_area s' = exit_area s ∧ levels s' = levels s ∧
  total_stages s' = total_stages s ∧
  current_level_index s' = current_level_index s ∧
  next_gem_id s' = next_gem_id s ∧
  black_gems_required s' = black_gems_required s ∧
  white_gems_required s' = white_gems_required s.

(** The ["status"] entry of the answer of a call, when the call returns. *)
Definition answer_status (r : res response) : option status :=
  match r with
  | Ok r => Some (status_of r)
  | Raise _ => None
  end.

(** The object right after [reset_game]: the initial one, but for the number
    of stages, which no code assigns after construction, and the timers that
    are still pending. *)
Definition fresh (total : Z) (pending : list timer) : game :=
  mk_game (players init) (gems init) (hazards init) (walls init)
    (exit_area init) _define_levels total (mk_scores 0 0) 0 None None None
    (next_gem_id init) (black_gems_required init) (white_gems_required init)
    pending.

(** The command names of the dispatcher. *)
Definition known_commands : list string :=
  ["register_player"; "set_player_state"; "get_game_state"; "get_player_info";
   "collect_gem"; "check_hazard_collision"; "player_at_exit"; "reset_game"].

(** The commands that read their first argument and ignore the rest. *)
Definition first_argument_commands : list string :=
  ["register_player"; "get_player_info"; "player_at_exit"].

(** The commands of a player and one more identifier. *)
Definition pair_commands : list string :=
  ["collect_gem"; "check_hazard_collision"].

(** The requests that the staged dispatcher rejects before it calls a
    handler: a command name it does not know, no argument where the first
    one is read, other than four arguments or a number that [int] refuses
    for [set_player_state], other than two arguments for a pair command. *)
Inductive malformed : string -> list string -> Prop :=
| unknown_command (cmd : string) (args : list string) :
    cmd ∉ known_commands -> malformed cmd args
| missing_argument (cmd : string) :
    cmd ∈ first_argument_commands -> malformed cmd []
| state_arity (args : list string) :
    length args ≠ 4%nat -> malformed "set_player_state" args
| state_number (a0 a1 a2 a3 : string) :
    int a1 = None ∨ int a2 = None ∨ int a3 = None ->
    malformed "set_player_state" [a0; a1; a2; a3]
| pair_arity (cmd : string) (args : list string) :
    cmd ∈ pair_commands -> length args ≠ 2%nat -> malformed cmd args.

(** The root dispatcher also wants exactly one argument where the staged
    one reads the first. *)
Definition malformed_legacy (cmd : string) (args : list string) : Prop :=
  malformed cmd args
  ∨ (cmd ∈ first_argument_commands ∧ length args ≠ 1%nat).

(** The identifiers the stage loader makes: [f"{gem_type}_gem_{n}"],
    [f"{color}_pool_{n}"] and [f"wall_{n}"]. *)
Definition gem_id_of (gt : color) (n : nat) : string :=
  color_name gt +:+ "_gem_" +:+ pretty n.

Definition hazard_id_of (c : color) (n : nat) : string :=
  color_name c +:+ "_pool_" +:+ pretty n.

Definition wall_id_of (n : nat) : string := "wall_" +:+ pretty n.

(** The number of gems of colour [c] that are still in the stage. *)
Definition remaining (c : color) (s : game) : nat :=
  size (filter (fun kv : string * gem => gem_type kv.2 = c) (gems s)).

(** What the player of colour [c] has collected in the stage, 0 when the
    colour is not registered. *)
Definition collected_by (c : color) (s : game) : Z :=
  match players s !! player_id_of c with
  | Some p => gems_collected p
  | None => 0
  end.

(** The four boundary walls that every stage starts with. *)
Definition boundary_walls : list (Z * Z * Z * Z) :=
  [(0, map_height - 20, map_width, 20); (0, 0, 20, map_height);
   (map_width - 20, 0, 20, map_height); (0, 0, map_width, 20)].

(** A later state of the same stage, reached through [collect_gem] commands
    of any player. *)
Definition collect_step (a b : game) : Prop :=
  ∃ player_id gem_id, b = (_collect_gem player_id gem_id a).2.

(** The first stage after black touched the white pool. *)
Definition white_won_stage_1 : game :=
  foldl (fun s line => (proses_string 7 line s).2) init
    ["register_player black"; "register_player white";
     "check_hazard_collision player_black white_pool_0"].

(** Entries stored one after the other under identifiers made from a
    running index, as the loops of [_load_level] do: the entry [a] that
    comes at index [n] is stored as [mk a] under [idf a n]. *)
Fixpoint inserts {A V} (idf : A -> nat -> string) (mk : A -> V)
    (m : gmap string V) (n : nat) (l : list A) : gmap string V :=
  match l with
  | a :: l' => inserts idf mk (<[idf a n := mk a]> m) (S n) l'
  | [] => m
  end.

(** Every key of [m] was made from an index below [n]. *)
Definition keys_below {A V} (idf : A -> nat -> string)
    (m : gmap string V) (n : nat) : Prop :=
  ∀ k v, m !! k = Some v -> ∃ a j, k = idf a j ∧ (j < n)%nat.

(** How the three loops of the loader name and build their entries. *)
Definition gem_key (g : color * Z * Z) (n : nat) : string :=
  gem_id_of g.1.1 n.
Definition gem_entry (g : color * Z * Z) : gem :=
  mk_gem g.1.2 g.2 g.1.1.

Definition hazard_key (h : color * Z * Z * Z * Z) (n : nat) : string :=
  hazard_id_of h.1.1.1.1 n.
Definition hazard_entry (h : color * Z * Z * Z * Z) : hazard :=
  mk_hazard h.1.1.1.1 h.1.1.1.2 h.1.1.2 h.1.2 h.2.

Definition wall_key (w : Z * Z * Z * Z) (n : nat) : string := wall_id_of n.
Definition wall_entry (w : Z * Z * Z * Z) : rect :=
  mk_rect w.1.1.1 w.1.1.2 w.1.2 w.2.


(** The state [_load_level] builds from the definition [lv] of stage
    [level_index]: containers made from the definition alone, players reset
    for the stage, the match data kept. *)
Definition loaded (level_index : nat) (lv : level) (s : game) : game :=
  mk_game
    ((fun p => _reset_player_for_new_stage p (start_pos lv)) <$> players s)
    (inserts gem_key gem_entry ∅ 0 (level_gems lv))
    (inserts hazard_key hazard_entry ∅ 0 (level_hazards lv))
    (inserts wall_key wall_entry ∅ 0 (boundary_walls ++ level_walls lv))
    (wall_entry (level_exit lv))
    (levels s) (total_stages s) (scores s) level_index (match_winner s) None
    (start_time s) (length (level_gems lv))
    (Z.of_nat (length (gems_of_color black lv)))
    (Z.of_nat (length (gems_of_color white lv)))
    (timers s).


(** The elementary changes that the commands and the timer callback are
    made of.  Each constructor is one effect of the code on the state, with
    the conditions under which the code performs it. *)
Inductive effect : game -> game -> Prop :=
| clock_started (now : Z) (s : game) :
    effect s (set_start_time (Some now) s)
| player_added (s : game) (p : player) :
    players s !! player_id_of (color_type p) = None ->
    lives p = default_player_lives -> gems_collected p = 0 ->
    at_exit p = false ->
    effect s (set_players (<[player_id_of (color_type p) := p]> (players s)) s)
| player_updated (s : game) (pid : string) (p p' : player) :
    players s !! pid = Some p ->
    color_type p' = color_type p -> gems_collected p' = gems_collected p ->
    effect s (set_players (<[pid := p']> (players s)) s)
| gem_collected (s : game) (pid gid : string) (p : player) (g : gem) :
    undecided s ->
    players s !! pid = Some p -> gems s !! gid = Some g ->
    color_type p = gem_type g ->
    effect s (set_gems (delete gid (gems s))
                (set_players (<[pid := collected p]> (players s)) s))
| stage_won (s : game) (c : color) :
    undecided s ->
    effect s (_handle_stage_win (player_id_of c) s).2
| timer_consumed (s : game) (rest : list timer) :
    effect s (set_timers rest s)
| stage_loaded (s : game) (lv : level) :
    match_winner s = None ->
    levels s !! S (current_level_index s) = Some lv ->
    effect s (loaded (S (current_level_index s)) lv s)
| match_closed (s : game) :
    match_winner s = None ->
    effect s (_determine_final_winner s)
| game_reset (s : game) :
    effect s (fresh (total_stages s) (timers s)).

(** A winner attribute holds [None] or a string that counts as true. *)
Definition winners_proper (s : game) : Prop :=
  (truthy (stage_winner s) = false -> stage_winner s = None)
  ∧ (truthy (match_winner s) = false -> match_winner s = None).


(** Gem accounting: for each colour, the gems still in the stage and those
    its player has collected add up to the requirement of the colour. *)
Definition gems_accounted (s : game) : Prop :=
  ∀ c, 0 <= collected_by c s
       ∧ Z.of_nat (remaining c s) + collected_by c s = required_gems c s.

(** The announced match winner agrees with the scores. *)
Definition winner_agrees (s : game) : Prop :=
  match match_winner s with
  | None => True
  | Some w =>
      (w = "player_black" ∧ score white s < score black s)
      ∨ (w = "player_white" ∧ score black s < score white s)
      ∨ (w = "draw" ∧ score black s = score white s)
  end.

(** Best of five: five stages of the catalog, scores between 0 and 3, a
    colour with 3 wins is the match winner, the announced winner agrees
    with the scores, and a stage winner is one of the two player ids. *)
Definition best_of_five (s : game) : Prop :=
  total_stages s = 5 ∧ levels s = _define_levels
  ∧ (current_level_index s < 5)%nat
  ∧ (∀ c, 0 <= score c s <= 3)
  ∧ (∀ c, score c s = 3 -> match_winner s = Some (player_id_of c))
  ∧ winner_agrees s
  ∧ (stage_winner s = None ∨ ∃ c, stage_winner s = Some (player_id_of c)).

(** The invariant of the engine: what the start state satisfies and every
    command keeps. *)
Definition sound (s : game) : Prop :=
  ids_follow_colors (players s) ∧ gems_accounted s ∧ best_of_five s.


(** The first stage with black registered, and with both colours
    registered. *)
Definition black_registered : game :=
  (proses_string 7 "register_player black" init).2.

Definition both_registered : game :=
  (proses_string 8 "register_player white" black_registered).2.


(** A whole match: white wins the first stage when black touches the white
    pool, the second by collecting its two gems and reaching the exit, and
    the third when black touches the white pool again; the timers fire in
    between. *)
Definition after_timer (s : game) : game := default s (fire_timer s).

Definition white_wins_match : game :=
  let run := foldl (fun s line => (proses_string 9 line s).2) in
  let stage_2 :=
    after_timer
      (run both_registered ["check_hazard_collision player_black white_pool_0"]) in
  let stage_3 :=
    after_timer
      (run stage_2 ["collect_gem player_white white_gem_1";
                    "collect_gem player_white white_gem_3";
                    "player_at_exit player_white"]) in
  run stage_3 ["check_hazard_collision player_black white_pool_0"].


(** ** The command lines of the client *)

(** [" ".join(ts)] *)
Fixpoint join (ts : list string) : string :=
  match ts with
  | [] => ""
  | [t] => t
  | t :: ts' => t +:+ " " +:+ join ts'
  end.

(** A string without blank character. *)
Fixpoint no_space (s : string) : bool :=
  match s with
  | String a s' => negb (isspace a) && no_space s'
  | EmptyString => true
  end.

(** What [split] returns as one part: a non-empty string without blank. *)
Definition token (s : string) : Prop := s ≠ "" ∧ no_space s = true.

(** The last character of a string. *)
Fixpoint last_char (s : string) : option ascii :=
  match s with
  | String a EmptyString => Some a
  | String _ s' => last_char s'
  | EmptyString => None
  end.

(** The command strings that [ClientInterface] of
    [Hampir Final/Edited_Dustin/client.py] hands to [send_command]; an
    integer in an f-string is written in decimal, as [pretty] does. *)
Module ClientInterface.

Definition register_player (color : string) : string :=
  "register_player " +:+ color.

Definition set_player_state (player_id : string) (x y lives : Z) : string :=
  "set_player_state " +:+ player_id +:+ " " +:+ pretty x +:+ " " +:+ pretty y
  +:+ " " +:+ pretty lives.

Definition get_game_state : string := "get_game_state".

Definition get_player_info (player_id : string) : string :=
  "get_player_info " +:+ player_id.

Definition collect_gem (player_id gem_id : string) : string :=
  "collect_gem " +:+ player_id +:+ " " +:+ gem_id.

Definition check_hazard_collision (player_id hazard_id : string) : string :=
  "check_hazard_collision " +:+ player_id +:+ " " +:+ hazard_id.

Definition player_at_exit (player_id : string) : string :=
  "player_at_exit " +:+ player_id.

Definition reset_game : string := "reset_game".

(** The text that [send_command] writes to the socket: the command and the
    delimiter, two carriage return and line feed pairs. *)
Definition delimiter : string :=
  String "013" (String "010" (String "013" (String "010" ""))).

Definition payload (command_str : string) : string :=
  command_str +:+ delimiter.

End ClientInterface.

(** What [ProcessTheClient.run] of [server.py] hands to [proses_string]:
    the received text, stripped. *)
Definition received_command (data : string) : string := strip data.


(** ** Vocabulary for the single-level engine *)

(** One request served by the single-level engine; a request that raises
    leaves the state as it was. *)
Definition legacy_step (a b : Legacy.game) : Prop :=
  ∃ line, b = (Legacy.proses_string line a).2.

Definition legacy_reachable (s : Legacy.game) : Prop :=
  rtc legacy_step Legacy.init s.

Definition legacy_remaining (c : color) (s : Legacy.game) : nat :=
  size (filter (fun kv : string * gem => gem_type kv.2 = c) (Legacy.gems s)).

Definition legacy_collected_by (c : color) (s : Legacy.game) : Z :=
  match Legacy.players s !! player_id_of c with
  | Some p => gems_collected p
  | None => 0
  end.

Definition legacy_required (c : color) (s : Legacy.game) : Z :=
  match c with
  | black => Legacy.black_gems_required s
  | white => Legacy.white_gems_required s
  end.

(** The part of the state that describes the level. *)
Definition legacy_level (s : Legacy.game)
    : gmap string rect * gmap string hazard * rect * Z * Z :=
  (Legacy.walls s, Legacy.hazards s, Legacy.exit_area s,
   Legacy.black_gems_required s, Legacy.white_gems_required s).

(** What every reachable state of the single-level engine satisfies. *)
Definition legacy_sound (s : Legacy.game) : Prop :=
  ids_follow_colors (Legacy.players s)
  ∧ (∀ c, 0 <= legacy_collected_by c s
          ∧ Z.of_nat (legacy_remaining c s) + legacy_collected_by c s
            = legacy_required c s)
  ∧ (Legacy.winner s = None ∨ ∃ c, Legacy.winner s = Some (player_id_of c))
  ∧ legacy_level s = legacy_level Legacy.init.

Definition legacy_black_registered : Legacy.game :=
  (Legacy.proses_string "register_player black" Legacy.init).2.

(** Black touched a white pool: white has won. *)
Definition legacy_white_won : Legacy.game :=
  (Legacy.proses_string "check_hazard_collision player_black white_pool_1"
     legacy_black_registered).2.

Lemma undecided_guard (s : game) :
  undecided s -> truthy (match_winner s) || truthy (stage_winner s) = false.
Proof. intros [-> ->]. reflexivity. Qed.

Lemma decided_guard (s : game) :
  decided s -> truthy (match_winner s) || truthy (stage_winner s) = true.
Proof. intros [H | H]; rewrite H; [apply orb_true_r | reflexivity]. Qed.

Lemma scores_get_id (c : color) (sc : scores_t) :
  scores_get (player_id_of c) sc =
  Some (match c with black => player_black sc | white => player_white sc end).
Proof. destruct c; reflexivity. Qed.

(** The majority test of the code, [score >= total_stages // 2 + 1], is the
    comparison of the score with half the number of stages. *)
Lemma majority_test (total n : Z) :
  (total / 2 + 1 <=? n) = true <-> total < 2 * n.
Proof.
  rewrite Z.leb_le. Z.div_mod_to_equations. lia.
Qed.

Lemma majority_test_false (total n : Z) :
  (total / 2 + 1 <=? n) = false <-> 2 * n <= total.
Proof.
  rewrite Z.leb_gt. Z.div_mod_to_equations. lia.
Qed.

(** Comparisons computed by the code, read as propositions. *)
Ltac bool_to_prop :=
  repeat match goal with
  | H : (_ / 2 + 1 <=? _) = true |- _ => apply majority_test in H
  | H : (_ / 2 + 1 <=? _) = false |- _ => apply majority_test_false in H
  | H : (_ <=? _) = true |- _ => apply Z.leb_le in H
  | H : (_ <=? _) = false |- _ => apply Z.leb_gt in H
  | H : (_ <? _) = true |- _ => apply Z.ltb_lt in H
  | H : (_ <? _) = false |- _ => apply Z.ltb_ge in H
  end.

Ltac case_if :=
  match goal with
  | |- context [if ?b then _ else _] => destruct b eqn:?
  end.

(** What [_handle_stage_win] leaves alone, and what it records. *)
Lemma handle_stage_win_frame (s : game) (c : color) :
  stage_winner s = None ->
  let s' := (_handle_stage_win (player_id_of c) s).2 in
  (_handle_stage_win (player_id_of c) s).1 = Ok tt ∧
  stage_winner s' = Some (player_id_of c) ∧
  score c s' = score c s + 1 ∧
  score (opponent c) s' = score (opponent c) s ∧
  players s' = players s ∧ gems s' = gems s ∧ hazards s' = hazards s ∧
  walls s' = walls s ∧ exit_area s' = exit_area s ∧ levels s' = levels s ∧
  total_stages s' = total_stages s ∧
  current_level_index s' = current_level_index s ∧
  start_time s' = start_time s ∧ next_gem_id s' = next_gem_id s ∧
  black_gems_required s' = black_gems_required s ∧
  white_gems_required s' = white_gems_required s.
Proof.
  intros Hs s'. subst s'.
  destruct s as [pl gm hz wl ex lv tot [sb sw] idx mw stw st ng br wr tm].
  simpl in *. subst.
  unfold _handle_stage_win, _determine_final_winner, score, ret, raise.
  destruct c; simpl; repeat (case_if; simpl); repeat split; reflexivity.
Qed.

(** The same for an arbitrary identifier, for which the score update may
    raise [KeyError]: the stage winner is recorded before it. *)
Lemma handle_stage_win_any (s : game) (winner_id : string) :
  stage_winner s = None ->
  let s' := (_handle_stage_win winner_id s).2 in
  stage_winner s' = Some winner_id ∧
  players s' = players s ∧ gems s' = gems s ∧ hazards s' = hazards s ∧
  black_gems_required s' = black_gems_required s ∧
  white_gems_required s' = white_gems_required s.
Proof.
  intros Hs s'. subst s'.
  destruct s as [pl gm hz wl ex lv tot [sb sw] idx mw stw st ng br wr tm].
  simpl in *. subst.
  unfold _handle_stage_win, _determine_final_winner, ret, raise. simpl.
  repeat (case_if || case_match); simpl; repeat split; reflexivity.
Qed.

(** ** C3: a stage win decides the match at once, or defers the next stage *)

(** C3. When a stage win is recorded for colour [c] (no stage winner and no
    match winner yet), the winner's score goes up by one; if that score is
    more than half of [total_stages], or the stage was the last one, the
    match winner is fixed inside the same call -- the colour with the
    strictly higher score, or ["draw"] on equal scores -- and no timer is
    started; otherwise the match winner stays unset, the call changes nothing
    but the stage winner, the score and the list of timers, to which it adds
    exactly one timer of 3 seconds, and the callback of that timer loads the
    next stage. *)
Theorem stage_win_decides_match (s : game) (c : color) :
  undecided s ->
  let w := player_id_of c in
  let s' := (_handle_stage_win w s).2 in
  (_handle_stage_win w s).1 = Ok tt ∧
  stage_winner s' = Some w ∧
  score c s' = score c s + 1 ∧
  score (opponent c) s' = score (opponent c) s ∧
  ((total_stages s < 2 * score c s'
    ∨ total_stages s <= Z.of_nat (current_level_index s) + 1) ->
   timers s' = timers s ∧
   (score white s' < score black s' -> match_winner s' = Some "player_black") ∧
   (score black s' < score white s' -> match_winner s' = Some "player_white") ∧
   (score black s' = score white s' -> match_winner s' = Some "draw")) ∧
  (¬ (total_stages s < 2 * score c s'
      ∨ total_stages s <= Z.of_nat (current_level_index s) + 1) ->
   match_winner s' = None ∧
   timers s' = timers s ++ [Timer 3 load_next_stage_cb] ∧
   s' = set_timers (timers s') (set_scores (scores s')
          (set_stage_winner (Some w) s)) ∧
   _load_next_stage s' = _load_level (S (current_level_index s)) s').
Proof.
  intros [Hs Hm] w s'. subst w s'.
  destruct s as [pl gm hz wl ex lv tot [sb sw] idx mw stw st ng br wr tm].
  simpl in *. subst.
  unfold _handle_stage_win, _determine_final_winner, _load_next_stage, score,
    ret, raise.
  destruct c; simpl; repeat (case_if; simpl); bool_to_prop.
  all: repeat split; intros; try lia; try reflexivity.
  all: rewrite Nat.add_1_r; reflexivity.
Qed.

Lemma stage_win_decides_match_witness :
  undecided init ∧
  stage_winner (_handle_stage_win (player_id_of black) init).2
  = Some (player_id_of black).
Proof.
  split; [split; reflexivity |].
  apply (stage_win_decides_match init black). split; reflexivity.
Defined.

(** The scenario of the specification: with five stages, black's third
    stage win decides the match at once. *)
Example third_win_decides :
  let s := set_current_level_index 2 (set_scores (mk_scores 2 0) init) in
  let s' := (_handle_stage_win "player_black" s).2 in
  match_winner s' = Some "player_black" ∧ timers s' = [].
Proof. split; reflexivity. Qed.

(** ** C1: touching a hazard of the other colour *)

(** On the wrong-colour branch [_check_hazard_collision] zeroes the lives
    and hands over to [_handle_stage_win] for the opponent. *)
Lemma check_hazard_collision_wrong (s : game) (player_id hazard_id : string)
    (p : player) (h : hazard) :
  players s !! player_id = Some p ->
  hazards s !! hazard_id = Some h ->
  color_type p ≠ hazard_type h ->
  undecided s ->
  _check_hazard_collision player_id hazard_id s =
  (Ok (Status OK None),
   (_handle_stage_win (player_id_of (opponent (color_type p)))
      (set_players (<[player_id := killed p]> (players s)) s)).2).
Proof.
  intros Hp Hh Hne Hu.
  unfold _check_hazard_collision.
  rewrite (undecided_guard _ Hu), Hp, Hh.
  destruct (decide (color_type p ≠ hazard_type h)) as [_ | Hc]; [| tauto].
  unfold bind, ret.
  pose proof (handle_stage_win_frame
    (set_players (<[player_id := killed p]> (players s)) s)
    (opponent (color_type p)) (proj1 Hu)) as (Hok & _).
  replace (match color_type p with
           | black => "player_white" | white => "player_black" end)
    with (player_id_of (opponent (color_type p)))
    by (destruct (color_type p); reflexivity).
  fold (killed p).
  destruct (_handle_stage_win _ _) as [[[] | e] s2]; simpl in *;
    [reflexivity | discriminate].
Qed.

(** C1. For a registered player and a hazard of the stage whose colours
    differ, with neither winner set, [_check_hazard_collision] answers OK,
    sets the player's lives to 0 (and nothing else of any player), makes the
    opposing colour's player id the stage winner and raises the opposing
    colour's cumulative score by exactly 1, the toucher's score staying as it
    was. *)
Theorem wrong_hazard_ends_stage (s : game) (player_id hazard_id : string)
    (p : player) (h : hazard) :
  players s !! player_id = Some p ->
  hazards s !! hazard_id = Some h ->
  color_type p ≠ hazard_type h ->
  undecided s ->
  let opp := opponent (color_type p) in
  let out := _check_hazard_collision player_id hazard_id s in
  out.1 = Ok (Status OK None) ∧
  players out.2 = <[player_id := killed p]> (players s) ∧
  lives <$> players out.2 !! player_id = Some 0 ∧
  stage_winner out.2 = Some (player_id_of opp) ∧
  score opp out.2 = score opp s + 1 ∧
  score (color_type p) out.2 = score (color_type p) s.
Proof.
  intros Hp Hh Hne Hu opp out. subst out.
  rewrite (check_hazard_collision_wrong s player_id hazard_id p h) by assumption.
  pose proof (handle_stage_win_frame
    (set_players (<[player_id := killed p]> (players s)) s) opp (proj1 Hu))
    as (_ & Hw & Hsc & Hso & Hpl & _).
  assert (Hopp : opponent opp = color_type p)
    by (subst opp; destruct (color_type p); reflexivity).
  rewrite Hopp in Hso.
  simpl in *. fold opp. rewrite Hpl, Hw, Hsc, Hso.
  repeat split; try reflexivity.
  rewrite lookup_insert_eq. reflexivity.
Qed.

Lemma wrong_hazard_ends_stage_witness :
  let s := (proses_string 7 "register_player black" init).2 in
  let out := _check_hazard_collision "player_black" "white_pool_0" s in
  stage_winner out.2 = Some "player_white" ∧ score white out.2 = 1.
Proof.
  pose proof (wrong_hazard_ends_stage
    (proses_string 7 "register_player black" init).2
    "player_black" "white_pool_0"
    (mk_player black 50 532 1 0 false) (mk_hazard white 300 560 100 20)) as H.
  destruct H as (_ & _ & _ & Hw & Hs & _);
    [reflexivity | reflexivity | discriminate | split; reflexivity |].
  split; [exact Hw | exact Hs].
Defined.

(** ** C2: reaching the exit *)

Lemma collect_gem_winners (player_id gem_id : string) (s : game) :
  stage_winner (_collect_gem player_id gem_id s).2 = stage_winner s ∧
  match_winner (_collect_gem player_id gem_id s).2 = match_winner s.
Proof.
  unfold _collect_gem, ret.
  repeat (case_if || case_match); simpl; split; reflexivity.
Qed.

Lemma collects_undecided (s t : game) :
  rtc collect_step s t -> undecided s -> undecided t.
Proof.
  induction 1 as [| a b c (q & g & ->) _ IH]; [tauto |].
  intros [Hs Hm]. apply IH. unfold undecided.
  destruct (collect_gem_winners q g a) as [-> ->]. split; assumption.
Qed.

Lemma player_at_exit_state (s : game) (player_id : string) (p : player) :
  players s !! player_id = Some p ->
  undecided s ->
  let s1 := set_players (<[player_id := arrived p]> (players s)) s in
  _player_at_exit player_id s =
  if required_gems (color_type p) s <=? gems_collected p
  then match _handle_stage_win player_id s1 with
       | (Ok _, s2) => (Ok (Status OK (Some "Player at exit processed.")), s2)
       | (Raise e, s2) => (Raise e, s2)
       end
  else (Ok (Status OK (Some "Player at exit processed.")), s1).
Proof.
  intros Hp Hu. unfold _player_at_exit.
  rewrite (undecided_guard _ Hu), Hp. unfold bind, ret. fold (arrived p).
  replace (match color_type (arrived p) with
           | black => _ | white => _ end)
    with (required_gems (color_type p) s)
    by (destruct p as [[] ? ? ? ? ?]; reflexivity).
  simpl. case_if; reflexivity.
Qed.

Lemma player_at_exit_winner_iff (s : game) (player_id : string) (p : player) :
  players s !! player_id = Some p ->
  undecided s ->
  stage_winner (_player_at_exit player_id s).2 = Some player_id
  <-> required_gems (color_type p) s <= gems_collected p.
Proof.
  intros Hp Hu. rewrite (player_at_exit_state s player_id p Hp Hu).
  destruct Hu as [Hs Hm].
  case_if; bool_to_prop.
  - split; [intros _; assumption | intros _].
    pose proof (handle_stage_win_any
      (set_players (<[player_id := arrived p]> (players s)) s) player_id Hs)
      as (Hw & _).
    destruct (_handle_stage_win _ _) as [[[] | e] s2]; exact Hw.
  - simpl. rewrite Hs. split; [discriminate | lia].
Qed.

(** C2. For a registered player, while neither winner is set,
    [_player_at_exit] records [at_exit = True] whatever the gem count, and
    makes the player the stage winner exactly when [gems_collected] is at
    least the requirement of the player's colour (the answer then being OK
    for a player registered under its colour's id).  Short of the
    requirement the call changes nothing else: both winners stay unset, and
    in any later state of the stage reached by collecting gems, a new
    [_player_at_exit] of the same player wins the stage as soon as the count
    suffices. *)
Theorem exit_rule (s : game) (player_id : string) (p : player) :
  players s !! player_id = Some p ->
  undecided s ->
  let out := _player_at_exit player_id s in
  let req := required_gems (color_type p) s in
  players out.2 !! player_id = Some (arrived p) ∧
  (stage_winner out.2 = Some player_id <-> req <= gems_collected p) ∧
  (player_id = player_id_of (color_type p) ->
   out.1 = Ok (Status OK (Some "Player at exit processed."))) ∧
  (gems_collected p < req ->
   out = (Ok (Status OK (Some "Player at exit processed.")),
          set_players (<[player_id := arrived p]> (players s)) s) ∧
   undecided out.2 ∧
   ∀ (t : game) (q : player),
     rtc collect_step out.2 t ->
     players t !! player_id = Some q ->
     required_gems (color_type q) t <= gems_collected q ->
     stage_winner (_player_at_exit player_id t).2 = Some player_id).
Proof.
  intros Hp Hu out req. subst out req.
  split; [| split; [apply player_at_exit_winner_iff; assumption | split]].
  - rewrite (player_at_exit_state s player_id p Hp Hu).
    case_if; simpl; [| apply lookup_insert_eq].
    pose proof (handle_stage_win_any
      (set_players (<[player_id := arrived p]> (players s)) s) player_id
      (proj1 Hu)) as (_ & Hpl & _).
    destruct (_handle_stage_win _ _) as [[[] | e] s2]; simpl in *;
      rewrite Hpl; apply lookup_insert_eq.
  - intros ->. rewrite (player_at_exit_state s _ p Hp Hu).
    case_if; [| reflexivity].
    pose proof (handle_stage_win_frame
      (set_players (<[player_id_of (color_type p) := arrived p]> (players s)) s)
      (color_type p) (proj1 Hu)) as (Hok & _).
    destruct (_handle_stage_win _ _) as [[[] | e] s2]; simpl in *;
      [reflexivity | discriminate].
  - intros Hshort.
    assert (Hout : _player_at_exit player_id s =
              (Ok (Status OK (Some "Player at exit processed.")),
               set_players (<[player_id := arrived p]> (players s)) s)).
    { rewrite (player_at_exit_state s player_id p Hp Hu).
      case_if; bool_to_prop; [lia | reflexivity]. }
    rewrite Hout. split; [reflexivity | split; [exact Hu |]].
    intros t q Hrun Hq Hreq.
    apply (player_at_exit_winner_iff t player_id q Hq); [| assumption].
    apply (collects_undecided _ _ Hrun). exact Hu.
Qed.

Lemma exit_rule_witness :
  let s := (proses_string 7 "register_player black" init).2 in
  let out := _player_at_exit "player_black" s in
  (at_exit <$> players out.2 !! "player_black") = Some true ∧
  stage_winner out.2 = None.
Proof.
  pose proof (exit_rule (proses_string 7 "register_player black" init).2
    "player_black" (mk_player black 50 532 1 0 false)) as H.
  destruct H as (Hp & _ & _ & Hshort); [reflexivity | split; reflexivity |].
  destruct Hshort as (_ & Hu & _); [reflexivity |].
  split; [rewrite Hp; reflexivity | exact (proj1 Hu)].
Defined.

(** Black arrives with no gem, collects its two gems of the first stage and
    arrives again: the second arrival wins the stage. *)
Example exit_twice :
  let run := foldl (fun s line => (proses_string 7 line s).2) in
  let s1 := run init ["register_player black"; "player_at_exit player_black"] in
  let s2 := run s1 ["collect_gem player_black black_gem_0";
                    "collect_gem player_black black_gem_2";
                    "player_at_exit player_black"] in
  stage_winner s1 = None ∧ stage_winner s2 = Some "player_black"
  ∧ score black s2 = 1 ∧ match_winner s2 = None.
Proof. vm_compute. repeat split; reflexivity. Qed.

(** ** C4: commands of a decided stage *)

(** C4, as the code has it.  Once [stage_winner] or [match_winner] is set,
    [_collect_gem] and [_check_hazard_collision] answer ERROR and
    [_player_at_exit] answers OK with the message "Stage has already been
    won."; all three leave the whole state as it was. *)
Theorem decided_stage_is_frozen (s : game) (player_id other_id : string) :
  decided s ->
  _collect_gem player_id other_id s = (Ok (Status ERROR None), s) ∧
  _check_hazard_collision player_id other_id s = (Ok (Status ERROR None), s) ∧
  _player_at_exit player_id s
  = (Ok (Status OK (Some "Stage has already been won.")), s).
Proof.
  intros Hd. unfold _collect_gem, _check_hazard_collision, _player_at_exit.
  rewrite (decided_guard _ Hd). repeat split; reflexivity.
Qed.

Lemma decided_stage_is_frozen_witness :
  decided white_won_stage_1 ∧
  _collect_gem "player_white" "white_gem_1" white_won_stage_1
  = (Ok (Status ERROR None), white_won_stage_1).
Proof.
  assert (Hd : decided white_won_stage_1) by (left; vm_compute; reflexivity).
  split; [exact Hd |].
  exact (proj1 (decided_stage_is_frozen white_won_stage_1 "player_white"
                  "white_gem_1" Hd)).
Defined.

(** C4 as stated does not hold: in a decided stage [_player_at_exit] does
    not answer ERROR. *)
Lemma exit_in_decided_stage_not_error :
  ¬ (∀ (s : game) (player_id : string),
       decided s ->
       ∃ r, _player_at_exit player_id s = (Ok r, s) ∧ status_of r = ERROR).
Proof.
  intros H.
  destruct (H white_won_stage_1 "player_white") as (r & Hr & Hst);
    [left; vm_compute; reflexivity |].
  assert (E : (_player_at_exit "player_white" white_won_stage_1).1
              = Ok (Status OK (Some "Stage has already been won.")))
    by (vm_compute; reflexivity).
  rewrite Hr in E. cbn [fst] in E. injection E as ->. discriminate Hst.
Qed.

(** ** C5: the requirement counts follow the stage definition *)

Lemma foldl_invariant {A} (P : game -> Prop) (f : game -> A -> game) :
  (∀ s a, P s -> P (f s a)) -> ∀ l s, P s -> P (foldl f s l).
Proof.
  intros Hf l. induction l as [| a l IH]; intros s Hs; simpl; [exact Hs |].
  apply IH, Hf, Hs.
Qed.

Lemma place_wall_required (w : Z * Z * Z * Z) (s : game) (c : color) :
  required_gems c (_place_wall w s) = required_gems c s.
Proof. destruct w as [[[x y] wd] ht], c; reflexivity. Qed.

Lemma place_hazard_required (h : color * Z * Z * Z * Z) (s : game) (c : color) :
  required_gems c (place_hazard h s) = required_gems c s.
Proof. destruct h as [[[[hc x] y] wd] ht], c; reflexivity. Qed.

(** Each placement of a gem counts for its colour, and for no other. *)
Lemma place_gems_required (c : color) (gs : list (color * Z * Z)) (s : game) :
  required_gems c
    (foldl (fun s g => let '(gt, x, y) := g in _place_gem x y gt s) s gs)
  = required_gems c s + Z.of_nat (length (filter (fun g => g.1.1 = c) gs)).
Proof.
  revert s. induction gs as [| [[gt x] y] gs IH]; intros s; simpl.
  - lia.
  - rewrite IH, filter_cons. simpl.
    destruct (decide (gt = c)) as [-> | Hne]; simpl.
    + destruct c; simpl; lia.
    + destruct gt, c; simpl; try lia; congruence.
Qed.

Lemma load_level_required (s : game) (i : nat) (lv : level) (c : color) :
  levels s !! i = Some lv ->
  required_gems c (_load_level i s) = Z.of_nat (length (gems_of_color c lv)).
Proof.
  intros Hlv. unfold _load_level. rewrite Hlv.
  destruct (level_exit lv) as [[[ex ey] ew] eh]. cbv zeta.
  assert (Hp : ∀ v t, required_gems c (set_players v t) = required_gems c t)
    by (intros; destruct c; reflexivity).
  assert (He : ∀ v t, required_gems c (set_exit_area v t) = required_gems c t)
    by (intros; destruct c; reflexivity).
  rewrite Hp, He, place_gems_required. unfold gems_of_color.
  match goal with |- ?a + _ = _ => assert (Hz : a = 0); [| rewrite Hz; lia] end.
  apply (foldl_invariant (fun t => required_gems c t = 0));
    [intros t h Ht; rewrite place_hazard_required; exact Ht |].
  apply (foldl_invariant (fun t => required_gems c t = 0));
    [intros t w Ht; rewrite place_wall_required; exact Ht |].
  destruct c; reflexivity.
Qed.

(** *** Commands of the running stage keep the stage *)

Lemma stage_frame_refl (s : game) : stage_frame s s.
Proof. unfold stage_frame. repeat split; reflexivity. Qed.

Lemma stage_frame_trans (s t u : game) :
  stage_frame s t -> stage_frame t u -> stage_frame s u.
Proof.
  unfold stage_frame.
  intros (Hg & -> & -> & -> & -> & -> & -> & -> & -> & ->)
         (Hg' & -> & -> & -> & -> & -> & -> & -> & -> & ->).
  repeat split; try reflexivity. etrans; eassumption.
Qed.

Ltac frame_by_cases :=
  repeat (case_if || case_match); simpl;
  unfold stage_frame; simpl; repeat split;
  try reflexivity; try apply delete_subseteq.

Lemma start_clock_frame (now : Z) (s : game) : stage_frame s (start_clock now s).
Proof. unfold start_clock. frame_by_cases. Qed.

Lemma handle_stage_win_stage (winner_id : string) (s : game) :
  stage_frame s (_handle_stage_win winner_id s).2.
Proof.
  unfold _handle_stage_win, _determine_final_winner, ret, raise.
  frame_by_cases.
Qed.

Lemma register_player_frame (now : Z) (a : string) (s : game) :
  stage_frame s (_register_player now a s).2.
Proof. unfold _register_player, ret, raise. frame_by_cases. Qed.

Lemma set_player_state_frame (a : string) (x y lv : Z) (s : game) :
  stage_frame s (_set_player_state a x y lv s).2.
Proof. unfold _set_player_state, ret. frame_by_cases. Qed.

Lemma get_player_info_frame (a : string) (s : game) :
  stage_frame s (_get_player_info a s).2.
Proof. unfold _get_player_info, ret. frame_by_cases. Qed.

Lemma get_game_state_frame (now : Z) (s : game) :
  stage_frame s (_get_game_state now s).2.
Proof. unfold _get_game_state, ret. frame_by_cases. Qed.

Lemma collect_gem_frame (a b : string) (s : game) :
  stage_frame s (_collect_gem a b s).2.
Proof. unfold _collect_gem, ret. frame_by_cases. Qed.

Lemma bind_snd_frame {A B} (c : M A) (k : A -> M B) (s : game) :
  stage_frame s (c s).2 ->
  (∀ a t, stage_frame t (k a t).2) ->
  stage_frame s (bind c k s).2.
Proof.
  intros Hc Hk. unfold bind. destruct (c s) as [[a | e] t]; simpl in *.
  - eapply stage_frame_trans; [exact Hc | apply Hk].
  - exact Hc.
Qed.

Lemma check_hazard_collision_frame (a b : string) (s : game) :
  stage_frame s (_check_hazard_collision a b s).2.
Proof.
  unfold _check_hazard_collision.
  repeat (case_if || case_match); try apply stage_frame_refl.
  all: eapply stage_frame_trans;
    [| apply bind_snd_frame;
       [apply handle_stage_win_stage | intros; apply stage_frame_refl]].
  all: unfold stage_frame; simpl; repeat split; reflexivity.
Qed.

Lemma player_at_exit_frame (a : string) (s : game) :
  stage_frame s (_player_at_exit a s).2.
Proof.
  unfold _player_at_exit.
  repeat (case_if || case_match); try apply stage_frame_refl.
  all: eapply stage_frame_trans;
    [| apply bind_snd_frame;
       [first [apply handle_stage_win_stage | apply stage_frame_refl]
       | intros; apply stage_frame_refl]].
  all: unfold stage_frame; simpl; repeat split; reflexivity.
Qed.

Lemma proses_string_frame (now : Z) (line : string) (s : game) :
  command_of line ≠ Some "reset_game" ->
  stage_frame s (proses_string now line s).2.
Proof.
  intros Hcmd. unfold proses_string, command_of in *.
  destruct (split (strip line)) as [| part0 args]; [apply stage_frame_refl |].
  cbv zeta.
  pose proof (start_clock_frame now s) as Hc.
  repeat case_if.
  all: try match goal with
           | H : (_ =? "reset_game")%string = true |- _ =>
               apply String.eqb_eq in H; congruence
           end.
  all: repeat case_match; subst.
  all: try exact Hc.
  all: eapply stage_frame_trans; [exact Hc |].
  all: first
    [ apply register_player_frame | apply set_player_state_frame
    | apply get_player_info_frame | apply get_game_state_frame
    | apply collect_gem_frame | apply check_hazard_collision_frame
    | apply player_at_exit_frame ].
Qed.

(** C5. Loading stage [i] from any state -- whatever the counts were --
    leaves [required_gems[c]] equal to the number of collectibles of colour
    [c] in the definition of stage [i]; a reset leaves the counts of the
    first stage; and a command other than [reset_game] does not change the
    counts. *)
Theorem required_gems_follow_stage
    (s t : game) (i : nat) (lv : level) (c : color) (now : Z) (line : string) :
  levels s !! i = Some lv ->
  command_of line ≠ Some "reset_game" ->
  required_gems c (_load_level i s) = Z.of_nat (length (gems_of_color c lv)) ∧
  required_gems c (_full_reset t) = Z.of_nat (length (gems_of_color c level_1)) ∧
  required_gems c (proses_string now line t).2 = required_gems c t.
Proof.
  intros Hlv Hcmd. split; [| split].
  - apply load_level_required, Hlv.
  - unfold _full_reset. apply load_level_required. reflexivity.
  - destruct (proses_string_frame now line t Hcmd)
      as (_ & _ & _ & _ & _ & _ & _ & _ & Hb & Hw).
    destruct c; assumption.
Qed.

Lemma required_gems_follow_stage_witness :
  required_gems black (_load_level 1 init) = 3 ∧
  required_gems black (_full_reset init) = 2 ∧
  required_gems black (proses_string 7 "get_game_state" init).2
  = required_gems black init.
Proof.
  apply (required_gems_follow_stage init init 1 level_2 black 7 "get_game_state").
  - reflexivity.
  - vm_compute. discriminate.
Defined.

(** The timer callback either loads the next stage, with the counts of its
    definition, or leaves the counts alone. *)
Lemma load_next_stage_required (s : game) (c : color) :
  (∃ lv, levels s !! S (current_level_index s) = Some lv ∧
         required_gems c (_load_next_stage s)
         = Z.of_nat (length (gems_of_color c lv)))
  ∨ required_gems c (_load_next_stage s) = required_gems c s.
Proof.
  unfold _load_next_stage. repeat case_if.
  - right; reflexivity.
  - rewrite Nat.add_1_r.
    destruct (levels s !! S (current_level_index s)) as [lv |] eqn:Hlv.
    + left. exists lv. split; [reflexivity | apply load_level_required, Hlv].
    + right. unfold _load_level. rewrite Hlv. reflexivity.
  - right. unfold _determine_final_winner.
    repeat case_if; destruct c; reflexivity.
Qed.

(** ** C6: collecting a gem *)

Lemma run_commands_frame (cmds : list (Z * string)) (s : game) :
  Forall (fun c => command_of c.2 ≠ Some "reset_game") cmds ->
  stage_frame s (run_commands cmds s).
Proof.
  intros Hall. revert s.
  induction Hall as [| [now line] cmds Hc _ IH]; intros s; simpl.
  - apply stage_frame_refl.
  - eapply stage_frame_trans; [apply (proses_string_frame now line s Hc) |].
    apply IH.
Qed.

Lemma snapshot_without_gem (now : Z) (gem_id : string) (s : game) :
  gems s !! gem_id = None ->
  gem_id ∉ snapshot_gem_ids (_get_game_state now s).1.
Proof.
  intros Hnone Hin. simpl in Hin.
  apply list_elem_of_fmap in Hin as ([k v] & -> & Hkv).
  apply elem_of_map_to_list in Hkv. simpl in Hnone. congruence.
Qed.

Lemma proses_get_game_state (now : Z) (s : game) :
  proses_string now "get_game_state" s = _get_game_state now (start_clock now s).
Proof. reflexivity. Qed.

Lemma collect_missing_gem (player_id gem_id : string) (s : game) :
  gems s !! gem_id = None ->
  _collect_gem player_id gem_id s = (Ok (Status ERROR None), s).
Proof.
  intros Hnone. unfold _collect_gem, ret. rewrite Hnone.
  repeat (case_if || case_match); reflexivity.
Qed.

(** C6. A [_collect_gem] of a registered player and a gem of the player's
    colour, with neither winner set, answers OK and in that one transition
    removes the gem and adds 1 to the collector's [gems_collected]; no other
    player and no other gem changes.  Through any later commands of the
    stage (no [reset_game], no stage load) the gem stays away: no
    [get_game_state] answer lists it, and a further [_collect_gem] of the
    same id, by any player, answers ERROR and changes nothing. *)
Theorem collect_gem_removes (s : game) (player_id gem_id : string)
    (p : player) (g : gem) :
  players s !! player_id = Some p ->
  gems s !! gem_id = Some g ->
  color_type p = gem_type g ->
  undecided s ->
  let out := _collect_gem player_id gem_id s in
  out = (Ok (Status OK None),
         set_gems (delete gem_id (gems s))
           (set_players (<[player_id := collected p]> (players s)) s)) ∧
  gems_collected <$> players out.2 !! player_id = Some (gems_collected p + 1) ∧
  (∀ q, q ≠ player_id -> players out.2 !! q = players s !! q) ∧
  (∀ k, k ≠ gem_id -> gems out.2 !! k = gems s !! k) ∧
  ∀ cmds : list (Z * string),
    Forall (fun c => command_of c.2 ≠ Some "reset_game") cmds ->
    let t := run_commands cmds out.2 in
    gems t !! gem_id = None ∧
    (∀ now, gem_id ∉ snapshot_gem_ids (proses_string now "get_game_state" t).1) ∧
    ∀ q, _collect_gem q gem_id t = (Ok (Status ERROR None), t).
Proof.
  intros Hp Hg Hc Hu out.
  assert (Hout : out = (Ok (Status OK None),
             set_gems (delete gem_id (gems s))
               (set_players (<[player_id := collected p]> (players s)) s))).
  { subst out. unfold _collect_gem.
    rewrite (undecided_guard _ Hu), Hp, Hg.
    destruct (decide (color_type p = gem_type g)); [reflexivity | contradiction]. }
  rewrite Hout. cbn [fst snd].
  split; [reflexivity |]. split; [| split; [| split]].
  - simpl. rewrite lookup_insert_eq. reflexivity.
  - intros q Hq. simpl. apply lookup_insert_ne. congruence.
  - intros k Hk. simpl. apply lookup_delete_ne. congruence.
  - intros cmds Hall.
    pose proof (run_commands_frame cmds
      (set_gems (delete gem_id (gems s))
         (set_players (<[player_id := collected p]> (players s)) s)) Hall)
      as (Hsub & _).
    set (t := run_commands cmds _) in *.
    assert (Hnone : gems t !! gem_id = None).
    { simpl in Hsub.
      destruct (gems t !! gem_id) as [g' |] eqn:Hg'; [| reflexivity].
      pose proof (lookup_weaken _ _ _ _ Hg' Hsub) as Hw.
      rewrite lookup_delete_eq in Hw. discriminate. }
    split; [exact Hnone | split].
    + intros now. rewrite proses_get_game_state.
      apply snapshot_without_gem.
      destruct (start_clock_frame now t) as (Hclk & _).
      destruct (gems (start_clock now t) !! gem_id) as [g' |] eqn:Hg';
        [| reflexivity].
      pose proof (lookup_weaken _ _ _ _ Hg' Hclk) as Hw. congruence.
    + intros q. apply collect_missing_gem, Hnone.
Qed.

Lemma collect_gem_removes_witness :
  let s := (proses_string 7 "register_player black" init).2 in
  gems (_collect_gem "player_black" "black_gem_0" s).2 !! "black_gem_0" = None.
Proof.
  pose proof (collect_gem_removes
    (proses_string 7 "register_player black" init).2
    "player_black" "black_gem_0"
    (mk_player black 50 532 1 0 false) (mk_gem 250 450 black)) as H.
  destruct H as (_ & _ & _ & _ & H);
    [vm_compute; reflexivity | vm_compute; reflexivity | reflexivity
    | split; vm_compute; reflexivity |].
  exact (proj1 (H [] (Forall_nil_2 _))).
Defined.

(** ** C7: [reset_game] *)

Lemma full_reset_fresh (s : game) :
  _full_reset s = fresh (total_stages s) (timers s).
Proof.
  destruct s as [pl gm hz wl ex lv tot sc idx mw stw st ng br wr tm].
  vm_compute. reflexivity.
Qed.

(** In the staged snapshot [reset_game] cannot fail: from every state the
    command answers OK and leaves stage 1, no player, both scores at 0 and
    neither winner set. *)
Lemma reset_game_restores (now : Z) (s : game) :
  let out := proses_string now "reset_game" s in
  out = (Ok (Status OK None), fresh (total_stages s) (timers s)) ∧
  Z.of_nat (current_level_index out.2) + 1 = 1 ∧
  players out.2 = ∅ ∧
  scores out.2 = mk_scores 0 0 ∧
  stage_winner out.2 = None ∧ match_winner out.2 = None.
Proof.
  assert (H : proses_string now "reset_game" s
              = (Ok (Status OK None), _full_reset (start_clock now s)))
    by reflexivity.
  cbv zeta. rewrite H, full_reset_fresh.
  replace (total_stages (start_clock now s)) with (total_stages s)
    by (unfold start_clock; case_if; reflexivity).
  replace (timers (start_clock now s)) with (timers s)
    by (unfold start_clock; case_if; reflexivity).
  repeat split; vm_compute; reflexivity.
Qed.

(** C7, at the root snapshot.  There [reset_game] never succeeds: the
    dispatcher calls [self._reset_game()], the class has no such attribute,
    and the command raises [AttributeError] in every state, leaving the
    state as it was. *)
Theorem legacy_reset_game_raises (s : Legacy.game) :
  Legacy.proses_string "reset_game" s = (Raise AttributeError, s).
Proof. reflexivity. Qed.

(** ** C8: unknown identifiers *)

(** C8, as the code has it.  With an unknown player id, [_set_player_state]
    and [_get_player_info] answer ERROR, and [_player_at_exit] answers ERROR
    while neither winner is set and OK once one is; with an unknown player
    or gem id [_collect_gem] answers ERROR; none of them, and no
    [_check_hazard_collision] with an unknown player or hazard id, changes
    the state. *)
Theorem unknown_ids_change_nothing
    (s : game) (player_id other_id : string) (x y lv : Z) :
  players s !! player_id = None ->
  _set_player_state player_id x y lv s
  = (Ok (Status ERROR (Some "Player not found.")), s) ∧
  _get_player_info player_id s
  = (Ok (Status ERROR (Some "Player not found.")), s) ∧
  _collect_gem player_id other_id s = (Ok (Status ERROR None), s) ∧
  (∀ q, gems s !! other_id = None ->
        _collect_gem q other_id s = (Ok (Status ERROR None), s)) ∧
  (_check_hazard_collision player_id other_id s).2 = s ∧
  (∀ q, hazards s !! other_id = None ->
        (_check_hazard_collision q other_id s).2 = s) ∧
  (_player_at_exit player_id s).2 = s ∧
  (undecided s ->
   _player_at_exit player_id s
   = (Ok (Status ERROR (Some "Player not found.")), s)) ∧
  (decided s ->
   _player_at_exit player_id s
   = (Ok (Status OK (Some "Stage has already been won.")), s)).
Proof.
  intros Hp.
  unfold _set_player_state, _get_player_info, _collect_gem,
    _check_hazard_collision, _player_at_exit, ret.
  rewrite Hp. repeat split.
  - case_if; reflexivity.
  - intros q Hg. rewrite Hg. repeat (case_if || case_match); reflexivity.
  - case_if; reflexivity.
  - intros q Hh. rewrite Hh. repeat (case_if || case_match); reflexivity.
  - case_if; reflexivity.
  - intros Hu. rewrite (undecided_guard _ Hu). reflexivity.
  - intros Hd. rewrite (decided_guard _ Hd). reflexivity.
Qed.

Lemma unknown_ids_change_nothing_witness :
  players init !! "nobody" = None ∧
  _collect_gem "nobody" "black_gem_0" init = (Ok (Status ERROR None), init).
Proof.
  assert (Hp : players init !! "nobody" = None) by (vm_compute; reflexivity).
  split; [exact Hp |].
  exact (proj1 (proj2 (proj2
    (unknown_ids_change_nothing init "nobody" "black_gem_0" 0 0 0 Hp)))).
Defined.

(** C8 as stated does not hold: with identifiers that do not exist
    [_check_hazard_collision] answers OK, and so does [_player_at_exit] in a
    decided stage. *)
Lemma unknown_ids_answered_ok :
  players init !! "nobody" = None ∧ hazards init !! "nothing" = None ∧
  answer_status (_check_hazard_collision "nobody" "nothing" init).1 = Some OK ∧
  players white_won_stage_1 !! "nobody" = None ∧
  answer_status (_player_at_exit "nobody" white_won_stage_1).1 = Some OK.
Proof. vm_compute. repeat split; reflexivity. Qed.

(** ** C10: a gem of the other colour *)

(** C10. [_collect_gem] for a registered player and an existing gem whose
    colours differ answers ERROR and returns the state it was given: the gem
    stays, no counter moves, nothing else changes.  This holds in the staged
    snapshot and in the root one. *)
Theorem wrong_color_gem_rejected
    (player_id gem_id : string) (p : player) (g : gem) :
  color_type p ≠ gem_type g ->
  (∀ s : game,
     players s !! player_id = Some p -> gems s !! gem_id = Some g ->
     _collect_gem player_id gem_id s = (Ok (Status ERROR None), s)) ∧
  (∀ t : Legacy.game,
     Legacy.players t !! player_id = Some p ->
     Legacy.gems t !! gem_id = Some g ->
     ∃ msg, Legacy._collect_gem player_id gem_id t
            = (Legacy.Status ERROR msg, t)).
Proof.
  intros Hne. split.
  - intros s Hp Hg. unfold _collect_gem, ret. rewrite Hp, Hg.
    destruct (decide (color_type p = gem_type g)); [contradiction |].
    case_if; reflexivity.
  - intros t Hp Hg. unfold Legacy._collect_gem. rewrite Hp, Hg.
    destruct (decide (color_type p = gem_type g)); [contradiction |].
    case_if; eexists; reflexivity.
Qed.

Lemma wrong_color_gem_rejected_witness :
  let s := (proses_string 7 "register_player black" init).2 in
  _collect_gem "player_black" "white_gem_1" s = (Ok (Status ERROR None), s).
Proof.
  assert (Hne : color_type (mk_player black 50 532 1 0 false)
                ≠ gem_type (mk_gem 500 450 white)) by discriminate.
  apply (proj1 (wrong_color_gem_rejected "player_black" "white_gem_1"
                  (mk_player black 50 532 1 0 false) (mk_gem 500 450 white)
                  Hne));
    vm_compute; reflexivity.
Defined.

(** ** C9: malformed requests *)

Lemma start_clock_cases (now : Z) (s : game) :
  start_clock now s = s
  ∨ (start_clock now s = set_start_time (Some now) s
     ∧ truthy_time (start_time s) = false ∧ players s ≠ ∅).
Proof.
  unfold start_clock.
  destruct (truthy_time (start_time s)) eqn:Ht; [left; reflexivity |].
  destruct (1 <=? size (players s))%nat eqn:Hsz; [| left; reflexivity].
  right. repeat split. intros Hempty. rewrite Hempty, map_size_empty in Hsz.
  discriminate.
Qed.

Lemma malformed_rejected_staged (now : Z) (line cmd : string) (s : game) :
  command_of line = Some cmd ->
  malformed cmd (args_of line) ->
  ∃ msg, proses_string now line s = (Ok (Status ERROR msg), start_clock now s).
Proof.
  unfold command_of, args_of, proses_string.
  destruct (split (strip line)) as [| part0 args]; [discriminate |].
  intros [= Hcmd] Hbad. cbv zeta. rewrite Hcmd. clear Hcmd.
  destruct Hbad as [cmd args Hnot | cmd Hin | args Hlen | a0 a1 a2 a3 Hnum
                   | cmd args Hin Hlen].
  - unfold known_commands in Hnot.
    repeat (case_if;
      [match goal with
       | H : (_ =? _)%string = true |- _ =>
           apply String.eqb_eq in H; subst; exfalso; apply Hnot;
           repeat first [apply list_elem_of_here | apply list_elem_of_further]
       end |]).
    eexists; reflexivity.
  - unfold first_argument_commands in Hin.
    repeat (apply elem_of_cons in Hin as [-> | Hin]; [eexists; reflexivity |]).
    apply elem_of_nil in Hin. contradiction.
  - simpl. destruct args as [| a0 [| a1 [| a2 [| a3 [| a4 args]]]]];
      simpl in Hlen; try lia; eexists; reflexivity.
  - simpl. unfold ret.
    destruct (int a1), (int a2), (int a3);
      try (eexists; reflexivity);
      destruct Hnum as [? | [? | ?]]; discriminate.
  - unfold pair_commands in Hin.
    repeat (apply elem_of_cons in Hin as [-> | Hin];
      [simpl; destruct args as [| a0 [| a1 [| a2 args]]]; simpl in Hlen;
       try lia; eexists; reflexivity |]).
    apply elem_of_nil in Hin. contradiction.
Qed.

Lemma malformed_rejected_legacy (line cmd : string) (t : Legacy.game) :
  command_of line = Some cmd ->
  malformed_legacy cmd (args_of line) ->
  ∃ msg, Legacy.proses_string line t = (Ok (Legacy.Status ERROR msg), t).
Proof.
  unfold command_of, args_of, Legacy.proses_string.
  destruct (split (strip line)) as [| part0 args]; [discriminate |].
  intros [= Hcmd] Hbad. cbv zeta. rewrite Hcmd. clear Hcmd.
  destruct Hbad as [Hbad | [Hin Hlen]];
    [destruct Hbad as [cmd args Hnot | cmd Hin | args Hlen | a0 a1 a2 a3 Hnum
                      | cmd args Hin Hlen] |].
  - unfold known_commands in Hnot.
    repeat (case_if;
      [match goal with
       | H : (_ =? _)%string = true |- _ =>
           apply String.eqb_eq in H; subst; exfalso; apply Hnot;
           repeat first [apply list_elem_of_here | apply list_elem_of_further]
       end |]).
    eexists; reflexivity.
  - unfold first_argument_commands in Hin.
    repeat (apply elem_of_cons in Hin as [-> | Hin]; [eexists; reflexivity |]).
    apply elem_of_nil in Hin. contradiction.
  - simpl. destruct args as [| a0 [| a1 [| a2 [| a3 [| a4 args]]]]];
      simpl in Hlen; try lia; eexists; reflexivity.
  - simpl.
    destruct (int a1), (int a2), (int a3);
      try (eexists; reflexivity);
      destruct Hnum as [? | [? | ?]]; discriminate.
  - unfold pair_commands in Hin.
    repeat (apply elem_of_cons in Hin as [-> | Hin];
      [simpl; destruct args as [| a0 [| a1 [| a2 args]]]; simpl in Hlen;
       try lia; eexists; reflexivity |]).
    apply elem_of_nil in Hin. contradiction.
  - unfold first_argument_commands in Hin.
    repeat (apply elem_of_cons in Hin as [-> | Hin];
      [simpl; destruct args as [| a0 [| a1 args]]; simpl in Hlen;
       try lia; eexists; reflexivity |]).
    apply elem_of_nil in Hin. contradiction.
Qed.

(** With the clock running, or no player to run it for, the first statement
    under the lock does nothing. *)
Lemma start_clock_idle (now : Z) (s : game) :
  clock_runs s -> start_clock now s = s.
Proof.
  unfold start_clock. intros [Hempty | Hruns].
  - rewrite Hempty, map_size_empty, andb_false_r. reflexivity.
  - rewrite Hruns. reflexivity.
Qed.

(** C9, as the code has it.  In a state where the match clock runs whenever
    a player is registered -- the start state is one, and so is the state
    after every command that is served at a clock reading other than 0 --
    and for a line that holds a command name, a malformed request -- an
    unknown command name; [register_player], [get_player_info] or
    [player_at_exit] without argument; [set_player_state] with other than
    four arguments or with an [x], [y] or [lives] that [int] refuses;
    [collect_gem] or [check_hazard_collision] with other than two arguments
    -- is answered with status ERROR and leaves the state exactly as it was.
    The root dispatcher, which has no clock, rejects the same requests, and
    any argument count other than one for the three one-argument commands,
    without a change, in every state. *)
Theorem malformed_requests_rejected
    (now : Z) (line cmd : string) (s : game) (t : Legacy.game) :
  clock_runs s ->
  command_of line = Some cmd ->
  (malformed cmd (args_of line) ->
   ∃ msg, proses_string now line s = (Ok (Status ERROR msg), s)) ∧
  (malformed_legacy cmd (args_of line) ->
   ∃ msg, Legacy.proses_string line t = (Ok (Legacy.Status ERROR msg), t)).
Proof.
  intros Hclock Hcmd. split.
  - intros Hbad.
    destruct (malformed_rejected_staged now line cmd s Hcmd Hbad) as [msg Hrun].
    exists msg. rewrite Hrun, (start_clock_idle now s Hclock). reflexivity.
  - apply malformed_rejected_legacy, Hcmd.
Qed.

Lemma malformed_requests_rejected_witness :
  ∃ msg, proses_string 9 "collect_gem player_black" black_registered
         = (Ok (Status ERROR msg), black_registered).
Proof.
  assert (Hclock : clock_runs black_registered)
    by (right; vm_compute; reflexivity).
  assert (Hcmd : command_of "collect_gem player_black" = Some "collect_gem")
    by (vm_compute; reflexivity).
  refine (proj1 (malformed_requests_rejected 9 "collect_gem player_black"
                   "collect_gem" black_registered Legacy.init Hclock Hcmd) _).
  apply pair_arity.
  - apply list_elem_of_here.
  - vm_compute. discriminate.
Defined.

(** C9 as stated does not hold.  A line without a token makes both
    dispatchers raise [IndexError]; and the staged dispatcher ignores extra
    arguments: [player_at_exit] and [reset_game] with one argument too many
    answer OK and change the state. *)
Lemma malformed_requests_not_all_rejected :
  let s := (proses_string 7 "register_player black" init).2 in
  let exit2 := proses_string 8 "player_at_exit player_black again" s in
  let reset1 := proses_string 8 "reset_game now" s in
  proses_string 7 "" init = (Raise IndexError, init) ∧
  (proses_string 7 "   " s).1 = Raise IndexError ∧
  (Legacy.proses_string "" Legacy.init).1 = Raise IndexError ∧
  answer_status exit2.1 = Some OK ∧
  at_exit <$> players s !! "player_black" = Some false ∧
  at_exit <$> players exit2.2 !! "player_black" = Some true ∧
  answer_status reset1.1 = Some OK ∧
  players reset1.2 !! "player_black" = None.
Proof. vm_compute. repeat split; reflexivity. Qed.

(** ** Well-formed states, and commands return in them *)

Lemma ids_insert (m : gmap string player) (pid : string) (p : player) :
  pid = player_id_of (color_type p) ->
  ids_follow_colors m -> ids_follow_colors (<[pid := p]> m).
Proof.
  intros Hpid Hm k q. rewrite lookup_insert. case_decide.
  - intros [= <-]. congruence.
  - apply Hm.
Qed.

Lemma ids_update (m : gmap string player) (pid : string) (p p' : player) :
  m !! pid = Some p -> color_type p' = color_type p ->
  ids_follow_colors m -> ids_follow_colors (<[pid := p']> m).
Proof.
  intros Hp Hc Hm. apply ids_insert; [| exact Hm]. rewrite Hc. apply Hm, Hp.
Qed.

Lemma reset_player_color (p : player) (sp : list (color * (Z * Z))) :
  color_type (_reset_player_for_new_stage p sp) = color_type p.
Proof. unfold _reset_player_for_new_stage. repeat case_match; reflexivity. Qed.

Lemma ids_reset (m : gmap string player) (sp : list (color * (Z * Z))) :
  ids_follow_colors m ->
  ids_follow_colors ((fun p => _reset_player_for_new_stage p sp) <$> m).
Proof.
  intros Hm k q. rewrite lookup_fmap.
  destruct (m !! k) as [p |] eqn:Hp; [| discriminate].
  intros [= <-]. rewrite (Hm k p Hp), reset_player_color. reflexivity.
Qed.

Lemma load_level_players (s : game) (i : nat) (lv : level) :
  levels s !! i = Some lv ->
  players (_load_level i s)
  = (fun p => _reset_player_for_new_stage p (start_pos lv)) <$> players s
  ∧ levels (_load_level i s) = levels s
  ∧ current_level_index (_load_level i s) = i.
Proof.
  intros Hlv. unfold _load_level. rewrite Hlv.
  destruct (level_exit lv) as [[[ex ey] ew] eh]. cbv zeta.
  set (P := fun t : game =>
    players t = players s ∧ levels t = levels s ∧ current_level_index t = i).
  match goal with
  | |- context [set_exit_area _ ?t] => set (X := t); assert (HP : P X)
  end.
  { subst X.
    apply foldl_invariant;
      [intros t [[gt x] y] Ht; destruct gt; exact Ht |].
    apply foldl_invariant;
      [intros t [[[[hc x] y] wd] ht] Ht; exact Ht |].
    apply foldl_invariant;
      [intros t [[[x y] wd] ht] Ht; exact Ht |].
    repeat split. }
  destruct HP as (Hpl & Hlvs & Hidx).
  unfold set_players, set_exit_area.
  cbn [players levels current_level_index]. rewrite Hpl.
  repeat split; assumption.
Qed.

Lemma load_level_well_formed (s : game) (i : nat) :
  well_formed s -> well_formed (_load_level i s).
Proof.
  intros [Hids Hcur].
  destruct (levels s !! i) as [lv |] eqn:Hlv.
  - destruct (load_level_players s i lv Hlv) as (Hpl & Hlvs & Hidx).
    split.
    + rewrite Hpl. apply ids_reset, Hids.
    + rewrite Hlvs, Hidx, Hlv. eexists; reflexivity.
  - unfold _load_level. rewrite Hlv. split; assumption.
Qed.

Lemma handle_stage_win_well_formed (winner_id : string) (s : game) :
  well_formed s -> well_formed (_handle_stage_win winner_id s).2.
Proof.
  intros Hwf. unfold _handle_stage_win, _determine_final_winner, ret, raise.
  repeat (case_if || case_match); exact Hwf.
Qed.

Lemma bind_well_formed {A B} (c : M A) (k : A -> M B) (s : game) :
  well_formed (c s).2 ->
  (∀ a t, well_formed t -> well_formed (k a t).2) ->
  well_formed (bind c k s).2.
Proof.
  intros Hc Hk. unfold bind. destruct (c s) as [[a | e] t]; simpl in *.
  - apply Hk, Hc.
  - exact Hc.
Qed.

Ltac stage_in_catalog :=
  simpl; first [assumption | eexists; eassumption].

Ltac well_formed_update Hids :=
  split; [eapply ids_update;
            [eassumption | first [reflexivity | simpl; congruence] | exact Hids]
         | stage_in_catalog].

Lemma proses_string_well_formed (now : Z) (line : string) (s : game) :
  well_formed s -> well_formed (proses_string now line s).2.
Proof.
  intros Hwf. unfold proses_string.
  destruct (split (strip line)) as [| part0 args]; [exact Hwf |].
  cbv zeta.
  assert (Hc : well_formed (start_clock now s))
    by (unfold start_clock; case_if; exact Hwf).
  revert Hc. generalize (start_clock now s). clear s Hwf.
  intros s [Hids [lv0 Hcur]].
  repeat case_if.
  - destruct args as [| a0 args]; [split; [assumption | stage_in_catalog] |].
    unfold _register_player, ret, raise.
    destruct (parse_color (lower a0)) as [c |];
      [| split; [assumption | stage_in_catalog]].
    destruct (players s !! player_id_of c);
      [split; [assumption | stage_in_catalog] |].
    rewrite Hcur. cbv zeta.
    case_if; (split; [| stage_in_catalog]); simpl;
      (apply ids_insert; [| exact Hids]);
      rewrite reset_player_color; reflexivity.
  - unfold _set_player_state, ret.
    repeat (case_if || case_match);
      try (split; [assumption | stage_in_catalog]).
    well_formed_update Hids.
  - split; [assumption | stage_in_catalog].
  - unfold _get_player_info, ret.
    repeat (case_if || case_match); (split; [assumption | stage_in_catalog]).
  - unfold _collect_gem, ret.
    repeat (case_if || case_match);
      try (split; [assumption | stage_in_catalog]).
    well_formed_update Hids.
  - unfold _check_hazard_collision, ret.
    repeat (case_if || case_match);
      try (split; [assumption | stage_in_catalog]).
    all: apply bind_well_formed; [| intros; assumption].
    all: apply handle_stage_win_well_formed.
    all: well_formed_update Hids.
  - unfold _player_at_exit, ret.
    repeat (case_if || case_match);
      try (split; [assumption | stage_in_catalog]).
    all: apply bind_well_formed; [| intros; assumption].
    all: try apply handle_stage_win_well_formed.
    all: well_formed_update Hids.
  - simpl. rewrite full_reset_fresh. split.
    + intros pid p Hp. vm_compute in Hp. discriminate.
    + eexists. vm_compute. reflexivity.
  - split; [assumption | stage_in_catalog].
Qed.

Lemma fire_timer_well_formed (s s' : game) :
  fire_timer s = Some s' -> well_formed s -> well_formed s'.
Proof.
  unfold fire_timer. destruct (timers s) as [| [dt []] rest]; [discriminate |].
  intros [= <-] Hwf. unfold _load_next_stage.
  repeat case_if.
  - exact Hwf.
  - apply load_level_well_formed. exact Hwf.
  - unfold _determine_final_winner. repeat case_if; exact Hwf.
Qed.

Lemma init_well_formed : well_formed init.
Proof.
  split.
  - intros pid p Hp. vm_compute in Hp. discriminate.
  - eexists. vm_compute. reflexivity.
Qed.

Lemma handle_stage_win_returns (c : color) (s : game) :
  (_handle_stage_win (player_id_of c) s).1 = Ok tt.
Proof.
  unfold _handle_stage_win. case_if; [reflexivity |].
  rewrite scores_get_id. unfold ret. repeat case_if; reflexivity.
Qed.

(** In a well-formed state a line that holds a command name is answered: no exception escapes [proses_string]. *)
Lemma commands_return (now : Z) (line : string) (s : game) :
  well_formed s ->
  is_Some (command_of line) ->
  ∃ r, (proses_string now line s).1 = Ok r.
Proof.
  intros Hwf [cmd Hcmd]. unfold command_of, proses_string in *.
  destruct (split (strip line)) as [| part0 args]; [discriminate |].
  cbv zeta.
  assert (Hc : well_formed (start_clock now s))
    by (unfold start_clock; case_if; exact Hwf).
  revert Hc. generalize (start_clock now s). clear s Hwf.
  intros s [Hids [lv0 Hcur]].
  repeat case_if.
  - destruct args as [| a0 args]; [eexists; reflexivity |].
    unfold _register_player, ret, raise.
    destruct (parse_color (lower a0)) as [c |]; [| eexists; reflexivity].
    destruct (players s !! player_id_of c); [eexists; reflexivity |].
    rewrite Hcur. eexists; reflexivity.
  - unfold _set_player_state, ret.
    repeat (case_if || case_match); eexists; reflexivity.
  - eexists; reflexivity.
  - unfold _get_player_info, ret.
    repeat (case_if || case_match); eexists; reflexivity.
  - unfold _collect_gem, ret.
    repeat (case_if || case_match); eexists; reflexivity.
  - unfold _check_hazard_collision, ret.
    destruct args as [| a0 [| a1 [| a2 args]]]; try (eexists; reflexivity).
    case_if; [eexists; reflexivity |].
    destruct (players s !! a0) as [p |]; [| eexists; reflexivity].
    destruct (hazards s !! a1) as [h |]; [| eexists; reflexivity].
    case_match; [| eexists; reflexivity].
    unfold bind.
    match goal with
    | |- context [_handle_stage_win ?w ?t] =>
        pose proof (handle_stage_win_returns (opponent (color_type p)) t) as Hr;
        replace (player_id_of (opponent (color_type p))) with w in Hr
          by (destruct (color_type p); reflexivity);
        destruct (_handle_stage_win w t) as [[[] | e] t']
    end; [eexists; reflexivity | discriminate].
  - unfold _player_at_exit, ret.
    destruct args as [| a0 args]; [eexists; reflexivity |].
    case_if; [eexists; reflexivity |].
    destruct (players s !! a0) as [p |] eqn:Hp; [| eexists; reflexivity].
    unfold bind. case_if; [| eexists; reflexivity].
    rewrite (Hids a0 p Hp).
    match goal with
    | |- context [_handle_stage_win ?w ?t] =>
        pose proof (handle_stage_win_returns (color_type p) t) as Hr;
        destruct (_handle_stage_win w t) as [[[] | e] t']
    end; [eexists; reflexivity | discriminate].
  - eexists; reflexivity.
  - eexists; reflexivity.
Qed.

(** * Further properties of the engine *)

(** ** What a stage load builds *)

Lemma gem_id_inj (gt gt' : color) (n n' : nat) :
  gem_id_of gt n = gem_id_of gt' n' -> gt = gt' ∧ n = n'.
Proof.
  unfold gem_id_of.
  destruct gt, gt'; intros H; try (simpl in H; discriminate H);
    simplify_eq; done.
Qed.

Lemma hazard_id_inj (c c' : color) (n n' : nat) :
  hazard_id_of c n = hazard_id_of c' n' -> c = c' ∧ n = n'.
Proof.
  unfold hazard_id_of.
  destruct c, c'; intros H; try (simpl in H; discriminate H);
    simplify_eq; done.
Qed.

Lemma wall_id_inj (n n' : nat) : wall_id_of n = wall_id_of n' -> n = n'.
Proof.
  unfold wall_id_of. intros H. simplify_eq. done.
Qed.

(** *** Entries stored under fresh indexed identifiers *)

Section indexed_inserts.
Context {A V : Type} (idf : A -> nat -> string) (mk : A -> V).
Hypothesis idf_inj : ∀ a a' n n', idf a n = idf a' n' -> n = n'.

Lemma keys_below_fresh (m : gmap string V) (n : nat) (a : A) :
  keys_below idf m n -> m !! idf a n = None.
Proof.
  intros Hk. destruct (m !! idf a n) as [v |] eqn:Hv; [| reflexivity].
  destruct (Hk _ _ Hv) as (a' & j & Heq & Hlt).
  apply idf_inj in Heq. lia.
Qed.

Lemma keys_below_insert (m : gmap string V) (n : nat) (a : A) :
  keys_below idf m n -> keys_below idf (<[idf a n := mk a]> m) (S n).
Proof.
  intros Hk k v. rewrite lookup_insert. case_decide as Hkk.
  - intros _. exists a, n. split; [congruence | lia].
  - intros Hv. destruct (Hk _ _ Hv) as (a' & j & Heq & Hlt).
    exists a', j. split; [exact Heq | lia].
Qed.

Lemma inserts_spec (l : list A) (m : gmap string V) (n : nat) :
  keys_below idf m n ->
  keys_below idf (inserts idf mk m n l) (n + length l) ∧
  size (inserts idf mk m n l) = (size m + length l)%nat ∧
  (∀ j a, l !! j = Some a ->
          inserts idf mk m n l !! idf a (n + j) = Some (mk a)) ∧
  (∀ k v, m !! k = Some v -> inserts idf mk m n l !! k = Some v) ∧
  (∀ k v, inserts idf mk m n l !! k = Some v ->
          m !! k = Some v
          ∨ ∃ j a, l !! j = Some a ∧ k = idf a (n + j) ∧ v = mk a).
Proof.
  revert m n. induction l as [| a l IH]; intros m n Hk; simpl.
  - rewrite Nat.add_0_r. repeat split; try assumption.
    + lia.
    + intros j b Hj. rewrite lookup_nil in Hj. discriminate.
    + intros k v Hv. exact Hv.
    + intros k v Hv. left. exact Hv.
  - pose proof (keys_below_fresh m n a Hk) as Hfresh.
    destruct (IH _ _ (keys_below_insert m n a Hk))
      as (Hk' & Hsz & Hin & Hkeep & Hout).
    replace (n + S (length l))%nat with (S n + length l)%nat by lia.
    split; [exact Hk' |]. split; [| split; [| split]].
    + rewrite Hsz, map_size_insert_None by exact Hfresh. lia.
    + intros [| j] b Hj; simpl in Hj.
      * injection Hj as <-. rewrite Nat.add_0_r.
        apply Hkeep, lookup_insert_eq.
      * replace (n + S j)%nat with (S n + j)%nat by lia. apply Hin, Hj.
    + intros k v Hv. apply Hkeep. rewrite lookup_insert_ne; [exact Hv |].
      intros <-. congruence.
    + intros k v Hv. destruct (Hout _ _ Hv) as [Hm | (j & b & Hj & -> & ->)].
      * rewrite lookup_insert in Hm. case_decide as Hkk.
        -- injection Hm as <-. right. exists 0%nat, a.
           rewrite Nat.add_0_r. repeat split. congruence.
        -- left. exact Hm.
      * right. exists (S j), b.
        replace (n + S j)%nat with (S n + j)%nat by lia. repeat split.
        exact Hj.
Qed.

Lemma inserts_filter_size (P : V -> Prop) `{!∀ v, Decision (P v)}
    (l : list A) (m : gmap string V) (n : nat) :
  keys_below idf m n ->
  size (filter (fun kv : string * V => P kv.2) (inserts idf mk m n l))
  = (size (filter (fun kv : string * V => P kv.2) m)
     + length (filter (fun a => P (mk a)) l))%nat.
Proof.
  revert m n. induction l as [| a l IH]; intros m n Hk; simpl.
  - lia.
  - rewrite (IH _ _ (keys_below_insert m n a Hk)), filter_cons.
    pose proof (keys_below_fresh m n a Hk) as Hfresh.
    destruct (decide (P (mk a))) as [HP | HP]; simpl.
    + rewrite map_filter_insert_True by exact HP.
      rewrite map_size_insert_None; [lia |].
      apply map_lookup_filter_None. left. exact Hfresh.
    + rewrite map_filter_insert_False by exact HP.
      rewrite delete_id; [lia | exact Hfresh].
Qed.
End indexed_inserts.


(** *** The three loops of [_load_level] *)

Lemma keys_below_empty {A V} (idf : A -> nat -> string) (n : nat) :
  keys_below idf (∅ : gmap string V) n.
Proof. intros k v Hv. rewrite lookup_empty in Hv. discriminate. Qed.

Lemma wall_key_inj (a a' : Z * Z * Z * Z) (n n' : nat) :
  wall_key a n = wall_key a' n' -> n = n'.
Proof. apply wall_id_inj. Qed.

Lemma hazard_key_inj (a a' : color * Z * Z * Z * Z) (n n' : nat) :
  hazard_key a n = hazard_key a' n' -> n = n'.
Proof. intros H. apply hazard_id_inj in H. tauto. Qed.

Lemma gem_key_inj (a a' : color * Z * Z) (n n' : nat) :
  gem_key a n = gem_key a' n' -> n = n'.
Proof. intros H. apply gem_id_inj in H. tauto. Qed.

Lemma walls_loop (ws : list (Z * Z * Z * Z)) (s : game) :
  keys_below wall_key (walls s) (size (walls s)) ->
  foldl (fun s w => _place_wall w s) s ws
  = set_walls (inserts wall_key wall_entry (walls s) (size (walls s)) ws) s.
Proof.
  revert s. induction ws as [| w ws IH]; intros s Hk; simpl.
  - destruct s; reflexivity.
  - assert (Hw : walls (_place_wall w s)
                 = <[wall_key w (size (walls s)) := wall_entry w]> (walls s))
      by (destruct w as [[[x y] wd] ht]; reflexivity).
    assert (Hsz : size (walls (_place_wall w s)) = S (size (walls s))).
    { rewrite Hw. apply map_size_insert_None.
      apply (keys_below_fresh wall_key wall_key_inj), Hk. }
    rewrite IH.
    + rewrite Hsz, Hw. destruct w as [[[x y] wd] ht], s; reflexivity.
    + rewrite Hsz, Hw. apply keys_below_insert, Hk.
Qed.

Lemma hazards_loop (hs : list (color * Z * Z * Z * Z)) (s : game) :
  keys_below hazard_key (hazards s) (size (hazards s)) ->
  foldl (fun s h => place_hazard h s) s hs
  = set_hazards
      (inserts hazard_key hazard_entry (hazards s) (size (hazards s)) hs) s.
Proof.
  revert s. induction hs as [| h hs IH]; intros s Hk; simpl.
  - destruct s; reflexivity.
  - assert (Hh : hazards (place_hazard h s)
                 = <[hazard_key h (size (hazards s)) := hazard_entry h]>
                     (hazards s))
      by (destruct h as [[[[c x] y] wd] ht]; reflexivity).
    assert (Hsz : size (hazards (place_hazard h s)) = S (size (hazards s))).
    { rewrite Hh. apply map_size_insert_None.
      apply (keys_below_fresh hazard_key hazard_key_inj), Hk. }
    rewrite IH.
    + rewrite Hsz, Hh. destruct h as [[[[c x] y] wd] ht], s; reflexivity.
    + rewrite Hsz, Hh. apply keys_below_insert, Hk.
Qed.

Lemma place_gem_fields (x y : Z) (gt : color) (s : game) :
  _place_gem x y gt s
  = mk_game (players s)
      (<[gem_key (gt, x, y) (next_gem_id s) := gem_entry (gt, x, y)]> (gems s))
      (hazards s) (walls s) (exit_area s) (levels s) (total_stages s)
      (scores s) (current_level_index s) (match_winner s) (stage_winner s)
      (start_time s) (S (next_gem_id s))
      (black_gems_required s + if decide (gt = black) then 1 else 0)
      (white_gems_required s + if decide (gt = white) then 1 else 0)
      (timers s).
Proof.
  destruct s as [pl gm hz wl ex lv tot sc idx mw stw st ng br wr tm].
  destruct gt; unfold _place_gem, set_next_gem_id, set_gems,
    set_black_gems_required, set_white_gems_required;
    cbn -[insert]; repeat case_decide; try congruence; f_equal; lia.
Qed.

Lemma gems_loop (gs : list (color * Z * Z)) (s : game) :
  foldl (fun s g => let '(gt, x, y) := g in _place_gem x y gt s) s gs
  = mk_game (players s)
      (inserts gem_key gem_entry (gems s) (next_gem_id s) gs)
      (hazards s) (walls s) (exit_area s) (levels s) (total_stages s)
      (scores s) (current_level_index s) (match_winner s) (stage_winner s)
      (start_time s) (next_gem_id s + length gs)
      (black_gems_required s
       + Z.of_nat (length (filter (fun g => g.1.1 = black) gs)))
      (white_gems_required s
       + Z.of_nat (length (filter (fun g => g.1.1 = white) gs)))
      (timers s).
Proof.
  revert s. induction gs as [| [[gt x] y] gs IH]; intros s.
  - destruct s as [pl gm hz wl ex lv tot sc idx mw stw st ng br wr tm].
    cbn -[insert]. f_equal; lia.
  - cbn [foldl]. rewrite IH, place_gem_fields. cbn [players gems hazards walls
      exit_area levels total_stages scores current_level_index match_winner
      stage_winner start_time next_gem_id black_gems_required
      white_gems_required timers inserts length].
    rewrite !filter_cons. cbn [fst snd].
    repeat case_decide; cbn [length]; f_equal; lia.
Qed.

(** [_load_level] with an index of the catalog builds [loaded]: the gems,
    hazards, walls and exit come from the stage definition alone, whatever
    the containers held before. *)
Lemma load_level_loaded (s : game) (i : nat) (lv : level) :
  levels s !! i = Some lv -> _load_level i s = loaded i lv s.
Proof.
  intros Hlv. unfold _load_level. rewrite Hlv.
  destruct (level_exit lv) as [[[ex ey] ew] eh] eqn:Hexit. cbv zeta.
  set (s0 := set_stage_winner None _).
  change (_place_wall (0, 0, map_width, 20)
            (_place_wall (map_width - 20, 0, 20, map_height)
               (_place_wall (0, 0, 20, map_height)
                  (_place_wall (0, map_height - 20, map_width, 20) s0))))
    with (foldl (fun s w => _place_wall w s) s0 boundary_walls).
  rewrite <- foldl_app.
  assert (Hw0 : walls s0 = ∅) by reflexivity.
  assert (Hh0 : hazards s0 = ∅) by reflexivity.
  rewrite walls_loop by (rewrite Hw0; apply keys_below_empty).
  rewrite Hw0, map_size_empty.
  rewrite hazards_loop by (cbn [hazards set_walls]; rewrite Hh0;
                           apply keys_below_empty).
  cbn [hazards set_walls]. rewrite Hh0, map_size_empty.
  rewrite gems_loop.
  unfold loaded, gems_of_color. rewrite Hexit.
  subst s0. destruct s. reflexivity.
Qed.


(** ** Commands and timers as sequences of elementary effects *)

Lemma effects_two (s t u : game) :
  effect s t -> effect t u -> rtc effect s u.
Proof. intros Hst Htu. eapply rtc_l; [exact Hst | apply rtc_once, Htu]. Qed.

Lemma proper_guard (s : game) :
  winners_proper s ->
  truthy (match_winner s) || truthy (stage_winner s) = false ->
  undecided s.
Proof.
  intros [Hs Hm] Hg. apply orb_false_elim in Hg as [Hgm Hgs].
  split; [apply Hs, Hgs | apply Hm, Hgm].
Qed.

Lemma start_clock_effects (now : Z) (s : game) :
  rtc effect s (start_clock now s).
Proof.
  unfold start_clock. case_if; [apply rtc_once, clock_started | apply rtc_refl].
Qed.

Lemma register_player_effects (now : Z) (a : string) (s : game) :
  rtc effect s (_register_player now a s).2.
Proof.
  unfold _register_player, ret, raise.
  destruct (parse_color (lower a)) as [c |]; [| apply rtc_refl].
  destruct (players s !! player_id_of c) eqn:Hp; [apply rtc_refl |].
  destruct (levels s !! current_level_index s) as [lv |]; [| apply rtc_refl].
  cbv zeta.
  set (p := _reset_player_for_new_stage _ _).
  assert (Hc : color_type p = c) by (subst p; apply reset_player_color).
  assert (Hadd : effect s
            (set_players (<[player_id_of c := p]> (players s)) s)).
  { rewrite <- Hc. apply player_added;
      [rewrite Hc; exact Hp | | |]; subst p;
      unfold _reset_player_for_new_stage; repeat case_match; reflexivity. }
  case_if.
  - eapply effects_two; [exact Hadd | apply clock_started].
  - apply rtc_once, Hadd.
Qed.

Lemma set_player_state_effects (a : string) (x y lv : Z) (s : game) :
  rtc effect s (_set_player_state a x y lv s).2.
Proof.
  unfold _set_player_state, ret.
  destruct (players s !! a) as [p |] eqn:Hp; [| apply rtc_refl].
  apply rtc_once. eapply player_updated; [exact Hp | reflexivity..].
Qed.

Lemma collect_gem_effects (a b : string) (s : game) :
  winners_proper s -> rtc effect s (_collect_gem a b s).2.
Proof.
  intros Hpr. unfold _collect_gem, ret.
  destruct (truthy (match_winner s) || truthy (stage_winner s)) eqn:Hg;
    [apply rtc_refl |].
  destruct (players s !! a) as [p |] eqn:Hp; [| apply rtc_refl].
  destruct (gems s !! b) as [g |] eqn:Hgem; [| apply rtc_refl].
  case_match; [| apply rtc_refl].
  apply rtc_once. fold (collected p).
  apply (gem_collected s a b p g); try assumption.
  apply proper_guard; assumption.
Qed.

Lemma check_hazard_collision_effects (a b : string) (s : game) :
  winners_proper s -> rtc effect s (_check_hazard_collision a b s).2.
Proof.
  intros Hpr. unfold _check_hazard_collision, ret.
  destruct (truthy (match_winner s) || truthy (stage_winner s)) eqn:Hg;
    [apply rtc_refl |].
  destruct (players s !! a) as [p |] eqn:Hp; [| apply rtc_refl].
  destruct (hazards s !! b) as [h |] eqn:Hh; [| apply rtc_refl].
  case_match; [| apply rtc_refl].
  pose proof (proper_guard s Hpr Hg) as Hu.
  fold (killed p).
  replace (match color_type p with
           | black => "player_white" | white => "player_black" end)
    with (player_id_of (opponent (color_type p)))
    by (destruct (color_type p); reflexivity).
  unfold bind.
  set (s1 := set_players (<[a := killed p]> (players s)) s).
  assert (Hwin : effect s1
            (_handle_stage_win (player_id_of (opponent (color_type p))) s1).2)
    by (apply stage_won; exact Hu).
  assert (Hupd : effect s s1)
    by (eapply player_updated; [exact Hp | reflexivity..]).
  destruct (_handle_stage_win _ s1) as [[[] | e] s2]; simpl in *;
    eapply effects_two; eassumption.
Qed.

Lemma player_at_exit_effects (a : string) (s : game) :
  winners_proper s -> ids_follow_colors (players s) ->
  rtc effect s (_player_at_exit a s).2.
Proof.
  intros Hpr Hids. unfold _player_at_exit, ret.
  destruct (truthy (match_winner s) || truthy (stage_winner s)) eqn:Hg;
    [apply rtc_refl |].
  destruct (players s !! a) as [p |] eqn:Hp; [| apply rtc_refl].
  pose proof (proper_guard s Hpr Hg) as Hu.
  fold (arrived p). unfold bind.
  set (s1 := set_players (<[a := arrived p]> (players s)) s).
  assert (Hupd : effect s s1)
    by (eapply player_updated; [exact Hp | reflexivity..]).
  case_if; [| apply rtc_once, Hupd].
  assert (Hwin : effect s1 (_handle_stage_win a s1).2).
  { rewrite (Hids a p Hp). apply stage_won. exact Hu. }
  destruct (_handle_stage_win a s1) as [[[] | e] s2]; simpl in *;
    eapply effects_two; eassumption.
Qed.

(** Every command is a sequence of elementary effects. *)
Lemma proses_string_effects (now : Z) (line : string) (s : game) :
  winners_proper s -> ids_follow_colors (players s) ->
  rtc effect s (proses_string now line s).2.
Proof.
  intros Hpr Hids. unfold proses_string.
  destruct (split (strip line)) as [| part0 args]; [apply rtc_refl |].
  cbv zeta. etrans; [apply (start_clock_effects now) |].
  assert (Hpr' : winners_proper (start_clock now s))
    by (unfold start_clock; case_if; exact Hpr).
  assert (Hids' : ids_follow_colors (players (start_clock now s)))
    by (unfold start_clock; case_if; exact Hids).
  assert (Hreset : rtc effect (start_clock now s)
                     (fresh (total_stages (start_clock now s))
                        (timers (start_clock now s))))
    by apply rtc_once, game_reset.
  revert Hpr' Hids' Hreset. generalize (start_clock now s).
  clear s Hpr Hids. intros s Hpr Hids Hreset.
  repeat case_if.
  - destruct args; [apply rtc_refl | apply register_player_effects].
  - repeat case_match; try apply rtc_refl. apply set_player_state_effects.
  - apply rtc_refl.
  - unfold _get_player_info, ret. repeat case_match; apply rtc_refl.
  - repeat case_match; try apply rtc_refl.
    apply collect_gem_effects, Hpr.
  - repeat case_match; try apply rtc_refl.
    apply check_hazard_collision_effects, Hpr.
  - repeat case_match; try apply rtc_refl.
    apply player_at_exit_effects; assumption.
  - simpl. rewrite full_reset_fresh. exact Hreset.
  - apply rtc_refl.
Qed.



(** ** The invariant of the engine *)

Lemma player_id_of_inj (c c' : color) :
  player_id_of c = player_id_of c' -> c = c'.
Proof. destruct c, c'; intros H; try reflexivity; discriminate H. Qed.

Lemma best_of_five_proper (s : game) : best_of_five s -> winners_proper s.
Proof.
  intros (_ & _ & _ & _ & _ & Hagree & Hstage). split.
  - destruct Hstage as [-> | [c ->]]; [reflexivity |].
    destruct c; discriminate.
  - unfold winner_agrees in Hagree.
    destruct (match_winner s) as [w |]; [| reflexivity].
    destruct Hagree as [[-> _] | [[-> _] | [-> _]]]; discriminate.
Qed.

(** *** Player identifiers *)

Lemma effect_ids (s s' : game) :
  effect s s' ->
  ids_follow_colors (players s) -> ids_follow_colors (players s').
Proof.
  intros Heff Hids.
  destruct Heff as [now s | s p Hnone _ _ _ | s pid p p' Hp Hc _
                   | s pid gid p g _ Hp _ _ | s c Hu | s rest | s lv _ _
                   | s _ | s]; simpl.
  - exact Hids.
  - apply ids_insert; [reflexivity | exact Hids].
  - eapply ids_update; eassumption.
  - eapply ids_update; [exact Hp | reflexivity | exact Hids].
  - destruct (handle_stage_win_any s (player_id_of c) (proj1 Hu))
      as (_ & -> & _). exact Hids.
  - exact Hids.
  - apply ids_reset, Hids.
  - unfold _determine_final_winner. repeat case_if; exact Hids.
  - intros pid p Hp. vm_compute in Hp. discriminate.
Qed.

(** *** Gem accounting *)

Lemma collected_by_insert (c : color) (pid : string) (p : player)
    (m : gmap string player) :
  match <[pid := p]> m !! player_id_of c with
  | Some q => gems_collected q
  | None => 0
  end
  = if decide (pid = player_id_of c) then gems_collected p
    else match m !! player_id_of c with
         | Some q => gems_collected q
         | None => 0
         end.
Proof.
  rewrite lookup_insert. repeat case_decide; congruence.
Qed.

Lemma remaining_delete (c : color) (gid : string) (g : gem)
    (m : gmap string gem) :
  m !! gid = Some g ->
  (size (filter (fun kv : string * gem => gem_type kv.2 = c) (delete gid m))
   + (if decide (gem_type g = c) then 1 else 0))%nat
  = size (filter (fun kv : string * gem => gem_type kv.2 = c) m).
Proof.
  intros Hg. rewrite map_filter_delete.
  destruct (decide (gem_type g = c)) as [Hc | Hc].
  - assert (Hin : filter (fun kv : string * gem => gem_type kv.2 = c) m
                    !! gid = Some g)
      by (apply map_lookup_filter_Some; split; assumption).
    rewrite map_size_delete, Hin.
    assert (size (filter (fun kv : string * gem => gem_type kv.2 = c) m) ≠ 0%nat)
      by (apply map_size_ne_0_lookup_2 with gid; eexists; exact Hin).
    simpl. lia.
  - rewrite delete_id; [lia |].
    apply map_lookup_filter_None. right. intros g' Hg'.
    simpl. congruence.
Qed.

Lemma reset_player_fields (p : player) (sp : list (color * (Z * Z))) :
  gems_collected (_reset_player_for_new_stage p sp) = 0.
Proof. unfold _reset_player_for_new_stage. repeat case_match; reflexivity. Qed.

Lemma effect_accounted (s s' : game) :
  effect s s' ->
  ids_follow_colors (players s) -> gems_accounted s -> gems_accounted s'.
Proof.
  intros Heff Hids Hacc.
  destruct Heff as [now s | s p Hnone _ Hzero _ | s pid p p' Hp Hc Hgc
                   | s pid gid p g _ Hp Hg Hcol | s w Hu | s rest | s lv _ _
                   | s _ | s]; intros c; specialize (Hacc c) as Hc0;
    unfold collected_by, remaining in *.
  - exact Hc0.
  - simpl. rewrite collected_by_insert. case_decide as Hid; [| exact Hc0].
    apply player_id_of_inj in Hid. subst c. rewrite Hnone in Hc0.
    rewrite Hzero. exact Hc0.
  - simpl. rewrite collected_by_insert. case_decide as Hid; [| exact Hc0].
    subst pid. rewrite Hp in Hc0. rewrite Hgc. exact Hc0.
  - pose proof (Hids pid p Hp) as Hpid.
    pose proof (remaining_delete c gid g (gems s) Hg) as Hrem.
    simpl. rewrite collected_by_insert. simpl in Hc0.
    destruct (decide (gem_type g = c)) as [Hgc | Hgc].
    + assert (Hpc : player_id_of c = pid) by (rewrite Hpid; congruence).
      rewrite Hpc in *. rewrite decide_True by reflexivity.
      rewrite Hp in Hc0.
      replace (required_gems c
                 (set_gems (delete gid (gems s))
                    (set_players (<[pid := collected p]> (players s)) s)))
        with (required_gems c s) by (destruct c; reflexivity).
      simpl. lia.
    + rewrite decide_False
        by (rewrite Hpid; intros Heq; apply player_id_of_inj in Heq;
            congruence).
      replace (required_gems c
                 (set_gems (delete gid (gems s))
                    (set_players (<[pid := collected p]> (players s)) s)))
        with (required_gems c s) by (destruct c; reflexivity).
      rewrite Nat.add_0_r in Hrem. rewrite Hrem. exact Hc0.
  - destruct (handle_stage_win_any s (player_id_of w) (proj1 Hu))
      as (_ & -> & -> & _ & Hb & Hw).
    replace (required_gems c (_handle_stage_win (player_id_of w) s).2)
      with (required_gems c s) by (destruct c; simpl; congruence).
    exact Hc0.
  - exact Hc0.
  - unfold loaded. cbn [gems players].
    pose proof (inserts_filter_size gem_key gem_entry gem_key_inj
                  (fun g => gem_type g = c) (level_gems lv) ∅ 0
                  (keys_below_empty _ _)) as Hsize.
    cbn beta in Hsize. rewrite Hsize, map_filter_empty, map_size_empty.
    rewrite lookup_fmap.
    destruct (players s !! player_id_of c) as [q |]; cbn [fmap option_fmap
      option_map]; rewrite ?reset_player_fields;
      (split; [lia |]);
      rewrite Z.add_0_r, Nat.add_0_l; destruct c; reflexivity.
  - unfold _determine_final_winner. repeat case_if; exact Hc0.
  - destruct c; vm_compute; (split; [discriminate | reflexivity]).
Qed.


(** *** Scores and winners *)

Lemma stage_win_best_of_five (s : game) (c : color) :
  undecided s -> best_of_five s ->
  best_of_five (_handle_stage_win (player_id_of c) s).2.
Proof.
  intros [Hs Hm] (Htot & Hlv & Hidx & Hsc & Hthree & _ & _).
  pose proof (Hsc black) as Hb. pose proof (Hsc white) as Hw.
  pose proof (Hthree black) as Hb3. pose proof (Hthree white) as Hw3.
  destruct s as [pl gm hz wl ex lv tot [sb sw] idx mw stw st ng br wr tm].
  unfold score in *. simpl in *. subst.
  assert (sb ≠ 3) by (intros ->; discriminate Hb3; reflexivity).
  assert (sw ≠ 3) by (intros ->; discriminate Hw3; reflexivity).
  clear Hb3 Hw3 Hsc Hthree.
  unfold _handle_stage_win, _determine_final_winner, best_of_five,
    winner_agrees, score, ret, raise.
  destruct c; simpl; repeat (case_if; simpl); bool_to_prop;
    (split; [reflexivity |]); (split; [reflexivity |]);
    (split; [assumption |]);
    (split; [intros []; simpl; lia |]);
    (split; [intros []; simpl; intros; first [reflexivity | lia] |]);
    (split; [first [exact I | left; split; [reflexivity | lia]
                   | right; left; split; [reflexivity | lia]
                   | right; right; split; [reflexivity | lia]] |]).
  all: right; first [by exists black | by exists white].
Qed.

Lemma effect_best_of_five (s s' : game) :
  effect s s' -> best_of_five s -> best_of_five s'.
Proof.
  intros Heff Hbo.
  destruct Heff as [now s | s p _ _ _ _ | s pid p p' _ _ _
                   | s pid gid p g _ _ _ _ | s c Hu | s rest | s lv Hm Hlv
                   | s Hm | s]; try exact Hbo.
  - apply stage_win_best_of_five; assumption.
  - destruct Hbo as (Htot & Hlvs & Hidx & Hsc & Hthree & Hagree & _).
    repeat split; try assumption.
    + rewrite Hlvs in Hlv. apply lookup_lt_Some in Hlv. exact Hlv.
    + apply Hsc.
    + apply Hsc.
    + left. reflexivity.
  - destruct Hbo as (Htot & Hlvs & Hidx & Hsc & Hthree & _ & Hstage).
    pose proof (Hsc black) as Hb. pose proof (Hsc white) as Hw.
    pose proof (Hthree black) as Hb3. pose proof (Hthree white) as Hw3.
    rewrite Hm in Hb3, Hw3.
    assert (score black s ≠ 3) by (intros H3; discriminate (Hb3 H3)).
    assert (score white s ≠ 3) by (intros H3; discriminate (Hw3 H3)).
    unfold _determine_final_winner, best_of_five, winner_agrees, score in *.
    repeat case_if; simpl; bool_to_prop; repeat split; try assumption;
      try (intros []; simpl; lia);
      try match goal with c : color |- _ => destruct c; lia end.
    + left. split; [reflexivity | lia].
    + right. left. split; [reflexivity | lia].
    + right. right. split; [reflexivity | lia].
  - destruct Hbo as (Htot & _). rewrite Htot.
    unfold best_of_five, winner_agrees, score. simpl.
    repeat split; try (intros []; simpl; lia); try lia;
      try match goal with c : color |- _ => destruct c; lia end.
    left. reflexivity.
Qed.

Lemma effect_sound (s s' : game) : effect s s' -> sound s -> sound s'.
Proof.
  intros Heff (Hids & Hacc & Hbo). split; [| split].
  - apply (effect_ids s s' Heff Hids).
  - apply (effect_accounted s s' Heff Hids Hacc).
  - apply (effect_best_of_five s s' Heff Hbo).
Qed.

Lemma effects_sound (s s' : game) : rtc effect s s' -> sound s -> sound s'.
Proof.
  induction 1 as [| a b c Hab _ IH]; [tauto |].
  intros Ha. apply IH, (effect_sound a b Hab Ha).
Qed.

Lemma init_sound : sound init.
Proof.
  assert (Hinit : init = fresh 5 []) by (vm_compute; reflexivity).
  rewrite Hinit. split; [| split].
  - intros pid p Hp. vm_compute in Hp. discriminate.
  - intros c. destruct c; vm_compute; (split; [discriminate | reflexivity]).
  - unfold best_of_five, winner_agrees, score. simpl.
    repeat split; try (intros []; simpl; lia); try lia;
      try match goal with c : color |- _ => destruct c; lia end.
    left. reflexivity.
Qed.

Lemma proses_string_sound (now : Z) (line : string) (s : game) :
  sound s -> sound (proses_string now line s).2.
Proof.
  intros Hs. pose proof Hs as (Hids & _ & Hbo).
  apply (effects_sound s); [| exact Hs].
  apply proses_string_effects; [apply best_of_five_proper, Hbo | exact Hids].
Qed.


Lemma ids_at_most_two (m : gmap string player) :
  ids_follow_colors m -> (size m <= 2)%nat.
Proof.
  intros Hids.
  assert (Hdom : dom m ⊆ ({["player_black"; "player_white"]} : gset string)).
  { intros pid Hin. apply elem_of_dom in Hin as [p Hp].
    rewrite (Hids pid p Hp). destruct (color_type p); set_solver. }
  rewrite <- size_dom. etrans; [apply subseteq_size, Hdom |].
  vm_compute. lia.
Qed.

Lemma black_registered_sound : sound black_registered.
Proof. exact (proses_string_sound 7 "register_player black" init init_sound). Qed.


(** ** What every command keeps *)

(** X1. One command, whatever its line, keeps the invariant of the engine:
    players sit under the identifier of their colour, so there are at most
    two; for each colour the gems its player has collected and the gems of
    the colour still in the stage add up to the requirement; and the scores
    are those of a best of five -- five stages, scores between 0 and 3, a
    colour with 3 wins is the match winner, an announced match winner agrees
    with the scores.  The start state satisfies the invariant, by
    [init_sound]. *)
Theorem commands_keep_invariant (now : Z) (line : string) (s : game) :
  ids_follow_colors (players s) -> gems_accounted s -> best_of_five s ->
  let s' := (proses_string now line s).2 in
  ids_follow_colors (players s') ∧ gems_accounted s' ∧ best_of_five s'
  ∧ (size (players s') <= 2)%nat.
Proof.
  intros Hids Hacc Hbo s'. subst s'.
  destruct (proses_string_sound now line s (conj Hids (conj Hacc Hbo)))
    as (Hids' & Hacc' & Hbo').
  split; [exact Hids' | split; [exact Hacc' | split; [exact Hbo' |]]].
  apply ids_at_most_two, Hids'.
Qed.

Lemma commands_keep_invariant_witness : gems_accounted black_registered.
Proof.
  exact (proj1 (proj2 (commands_keep_invariant 7 "register_player black" init
                         (proj1 init_sound) (proj1 (proj2 init_sound))
                         (proj2 (proj2 init_sound))))).
Defined.

(** X2. In a state that satisfies the gem accounting, with neither winner
    set, a player who arrives at the exit wins the stage exactly when no gem
    of its colour is left in the stage. *)
Theorem exit_wins_when_no_gem_left (s : game) (pid : string) (p : player) :
  ids_follow_colors (players s) ->
  gems_accounted s ->
  undecided s ->
  players s !! pid = Some p ->
  stage_winner (_player_at_exit pid s).2 = Some pid
  <-> remaining (color_type p) s = 0%nat.
Proof.
  intros Hids Hacc Hu Hp. rewrite (player_at_exit_winner_iff s pid p Hp Hu).
  destruct (Hacc (color_type p)) as [Hnn Hsum].
  unfold collected_by in *. rewrite <- (Hids pid p Hp), Hp in Hnn, Hsum.
  lia.
Qed.

Lemma exit_wins_when_no_gem_left_witness :
  stage_winner (_player_at_exit "player_black" black_registered).2
  = Some "player_black"
  <-> remaining black black_registered = 0%nat.
Proof.
  exact (exit_wins_when_no_gem_left black_registered "player_black"
           (mk_player black 50 532 1 0 false)
           (proj1 black_registered_sound)
           (proj1 (proj2 black_registered_sound))
           ltac:(split; vm_compute; reflexivity)
           ltac:(vm_compute; reflexivity)).
Defined.



(** ** The match clock *)

Lemma clock_runs_started (now : Z) (s : game) :
  now ≠ 0 -> clock_runs s -> clock_runs (start_clock now s).
Proof.
  intros Hnow Hc. rewrite (start_clock_idle now s Hc). exact Hc.
Qed.

Lemma clock_runs_same (s t : game) :
  start_time t = start_time s -> (players s = ∅ -> players t = ∅) ->
  clock_runs s -> clock_runs t.
Proof.
  intros Hst Hpl [Hempty | Hruns]; [left; apply Hpl, Hempty |].
  right. rewrite Hst. exact Hruns.
Qed.

Lemma clock_runs_update (s : game) (pid : string) (p p' : player) :
  players s !! pid = Some p ->
  clock_runs s ->
  clock_runs (set_players (<[pid := p']> (players s)) s).
Proof.
  intros Hp. apply clock_runs_same; [reflexivity |].
  intros Hempty. rewrite Hempty, lookup_empty in Hp. discriminate.
Qed.

Lemma handle_stage_win_clock (winner_id : string) (s : game) :
  clock_runs s -> clock_runs (_handle_stage_win winner_id s).2.
Proof.
  intros Hc. unfold _handle_stage_win, _determine_final_winner, ret, raise.
  repeat (case_if || case_match); exact Hc.
Qed.

Lemma bind_clock {A B} (c : M A) (k : A -> M B) (s : game) :
  clock_runs (c s).2 ->
  (∀ a t, clock_runs t -> clock_runs (k a t).2) ->
  clock_runs (bind c k s).2.
Proof.
  intros Hc Hk. unfold bind. destruct (c s) as [[a | e] t]; simpl in *.
  - apply Hk, Hc.
  - exact Hc.
Qed.

Lemma register_player_clock (now : Z) (a : string) (s : game) :
  now ≠ 0 -> clock_runs s -> clock_runs (_register_player now a s).2.
Proof.
  intros Hnow Hc. unfold _register_player, ret, raise.
  destruct (parse_color (lower a)) as [c |]; [| exact Hc].
  destruct (players s !! player_id_of c) eqn:Hp; [exact Hc |].
  destruct (levels s !! current_level_index s) as [lv |]; [| exact Hc].
  cbv zeta. cbn [players start_time set_players].
  destruct Hc as [Hempty | Hruns].
  - rewrite Hempty.
    rewrite map_size_insert_None by apply lookup_empty.
    rewrite map_size_empty. cbn [Nat.eqb andb].
    destruct (truthy_time (start_time s)) eqn:Ht; cbn [negb snd].
    + right. exact Ht.
    + right. cbn. apply negb_true_iff, Z.eqb_neq, Hnow.
  - rewrite Hruns, andb_false_r. right. exact Hruns.
Qed.

Lemma load_level_clock (i : nat) (s : game) :
  clock_runs s -> clock_runs (_load_level i s).
Proof.
  intros Hc. destruct (levels s !! i) as [lv |] eqn:Hlv.
  - rewrite (load_level_loaded s i lv Hlv).
    apply (clock_runs_same s); [reflexivity | | exact Hc].
    unfold loaded. cbn [players]. intros Hempty. rewrite Hempty.
    apply fmap_empty.
  - unfold _load_level. rewrite Hlv. exact Hc.
Qed.

Lemma proses_string_clock (now : Z) (line : string) (s : game) :
  now ≠ 0 -> clock_runs s -> clock_runs (proses_string now line s).2.
Proof.
  intros Hnow Hc. unfold proses_string.
  destruct (split (strip line)) as [| part0 args]; [exact Hc |].
  cbv zeta. rewrite (start_clock_idle now s Hc).
  repeat case_if.
  - destruct args as [| a0 args]; [exact Hc |].
    apply register_player_clock; assumption.
  - unfold _set_player_state, ret.
    repeat (case_if || case_match); try exact Hc.
    eapply clock_runs_update; eassumption.
  - exact Hc.
  - unfold _get_player_info, ret. repeat (case_if || case_match); exact Hc.
  - unfold _collect_gem, ret.
    repeat (case_if || case_match); try exact Hc.
    eapply (clock_runs_same (set_players _ s)); [reflexivity | intros Hq; exact Hq |].
    eapply clock_runs_update; eassumption.
  - unfold _check_hazard_collision, ret.
    repeat (case_if || case_match); try exact Hc.
    all: apply bind_clock; [| intros; assumption].
    all: apply handle_stage_win_clock.
    all: eapply clock_runs_update; eassumption.
  - unfold _player_at_exit, ret.
    repeat (case_if || case_match); try exact Hc.
    all: apply bind_clock; [| intros; assumption].
    all: try apply handle_stage_win_clock.
    all: eapply clock_runs_update; eassumption.
  - simpl. rewrite full_reset_fresh. left. reflexivity.
  - exact Hc.
Qed.

Lemma fire_timer_clock (s s' : game) :
  fire_timer s = Some s' -> clock_runs s -> clock_runs s'.
Proof.
  unfold fire_timer. destruct (timers s) as [| [dt []] rest]; [discriminate |].
  intros [= <-] Hc. unfold _load_next_stage.
  repeat case_if.
  - exact Hc.
  - apply load_level_clock. exact Hc.
  - unfold _determine_final_winner. repeat case_if; exact Hc.
Qed.

Lemma clock_runs_init : clock_runs init.
Proof. left. reflexivity. Qed.

(** X4. The match clock runs whenever a player is registered.  In a state
    where this holds and whose current stage is in the catalog -- the start
    state is one, by [clock_runs_init] and [init_well_formed] -- a command
    served at a clock reading other than 0 keeps both; and so does the
    callback of a stage timer run from start to end, which writes neither
    the start time nor the set of players. *)
Theorem clock_keeps_running (now : Z) (line : string) (s : game) :
  now ≠ 0 ->
  well_formed s ->
  clock_runs s ->
  let s' := (proses_string now line s).2 in
  well_formed s' ∧ clock_runs s'
  ∧ ∀ t, fire_timer s = Some t -> well_formed t ∧ clock_runs t.
Proof.
  intros Hnow Hwf Hc s'. subst s'.
  split; [apply proses_string_well_formed, Hwf |].
  split; [apply proses_string_clock; assumption |].
  intros t Hfire. split.
  - apply (fire_timer_well_formed s t Hfire Hwf).
  - apply (fire_timer_clock s t Hfire Hc).
Qed.

Lemma clock_keeps_running_witness : clock_runs black_registered.
Proof.
  exact (proj1 (proj2 (clock_keeps_running 7 "register_player black" init
                         ltac:(discriminate) init_well_formed
                         clock_runs_init))).
Defined.

(** ** Stage loading *)

(** X5. Loading a stage of the catalog replaces the gems by those of the stage
    definition: the gem at position [n] of the definition is stored under
    [f"{type}_gem_{n}"], nothing else is a gem, however many gems the
    previous stage had left; and for each colour the gems in place are as
    many as the requirement. *)
Theorem stage_load_gems (s : game) (i : nat) (lv : level) :
  levels s !! i = Some lv ->
  let s' := _load_level i s in
  size (gems s') = length (level_gems lv) ∧
  next_gem_id s' = length (level_gems lv) ∧
  (∀ n gt x y, level_gems lv !! n = Some (gt, x, y) ->
               gems s' !! gem_id_of gt n = Some (mk_gem x y gt)) ∧
  (∀ k g, gems s' !! k = Some g ->
          ∃ n gt x y, level_gems lv !! n = Some (gt, x, y)
                      ∧ k = gem_id_of gt n ∧ g = mk_gem x y gt) ∧
  (∀ c, Z.of_nat (remaining c s') = required_gems c s').
Proof.
  intros Hlv s'. subst s'. rewrite (load_level_loaded s i lv Hlv).
  unfold loaded. cbn [gems next_gem_id].
  destruct (inserts_spec gem_key gem_entry gem_key_inj (level_gems lv) ∅ 0
              (keys_below_empty _ _)) as (_ & Hsz & Hin & _ & Hout).
  rewrite map_size_empty in Hsz.
  split; [exact Hsz |]. split; [reflexivity |]. split; [| split].
  - intros n gt x y Hn. apply (Hin n (gt, x, y) Hn).
  - intros k g Hg. destruct (Hout k g Hg) as [He | (n & [[gt x] y] & Hn & -> & ->)].
    + rewrite lookup_empty in He. discriminate.
    + exists n, gt, x, y. repeat split. exact Hn.
  - intros c. unfold remaining. cbn [gems].
    pose proof (inserts_filter_size gem_key gem_entry gem_key_inj
                  (fun g => gem_type g = c) (level_gems lv) ∅ 0
                  (keys_below_empty _ _)) as Hsize.
    cbn beta in Hsize. rewrite Hsize, map_filter_empty, map_size_empty.
    rewrite Nat.add_0_l. destruct c; reflexivity.
Qed.

Lemma stage_load_gems_witness :
  size (gems (_load_level 2 black_registered)) = 6%nat.
Proof.
  exact (proj1 (stage_load_gems black_registered 2 level_3
                  ltac:(vm_compute; reflexivity))).
Defined.

(** X6. Loading a stage of the catalog replaces the walls, the hazards and the
    exit: the walls are the four boundary walls followed by the walls of the
    definition, numbered from [wall_0]; the hazard at position [n] is stored
    under [f"{color}_pool_{n}"]; the exit is the one of the definition. *)
Theorem stage_load_geometry (s : game) (i : nat) (lv : level) :
  levels s !! i = Some lv ->
  let s' := _load_level i s in
  size (walls s') = (4 + length (level_walls lv))%nat ∧
  (∀ n w, (boundary_walls ++ level_walls lv) !! n = Some w ->
          walls s' !! wall_id_of n = Some (wall_entry w)) ∧
  size (hazards s') = length (level_hazards lv) ∧
  (∀ n h, level_hazards lv !! n = Some h ->
          hazards s' !! hazard_key h n = Some (hazard_entry h)) ∧
  (∀ k h, hazards s' !! k = Some h ->
          ∃ n d, level_hazards lv !! n = Some d
                 ∧ k = hazard_key d n ∧ h = hazard_entry d) ∧
  exit_area s' = wall_entry (level_exit lv).
Proof.
  intros Hlv s'. subst s'. rewrite (load_level_loaded s i lv Hlv).
  unfold loaded. cbn [walls hazards exit_area].
  destruct (inserts_spec wall_key wall_entry wall_key_inj
              (boundary_walls ++ level_walls lv) ∅ 0 (keys_below_empty _ _))
    as (_ & Hwsz & Hwin & _ & _).
  destruct (inserts_spec hazard_key hazard_entry hazard_key_inj
              (level_hazards lv) ∅ 0 (keys_below_empty _ _))
    as (_ & Hhsz & Hhin & _ & Hhout).
  rewrite map_size_empty in Hwsz. rewrite map_size_empty in Hhsz.
  rewrite length_app in Hwsz.
  split; [exact Hwsz |]. split; [| split; [exact Hhsz | split; [| split]]].
  - intros n w Hn. apply (Hwin n w Hn).
  - intros n h Hn. apply (Hhin n h Hn).
  - intros k h Hh. destruct (Hhout k h Hh) as [He | (n & d & Hn & -> & ->)].
    + rewrite lookup_empty in He. discriminate.
    + exists n, d. repeat split. exact Hn.
  - reflexivity.
Qed.

Lemma stage_load_geometry_witness :
  size (walls (_load_level 4 init)) = 13%nat.
Proof.
  exact (proj1 (stage_load_geometry init 4 level_5
                  ltac:(vm_compute; reflexivity))).
Defined.

(** X7. What a stage load does to the rest.  An index outside the catalog
    changes nothing.  An index of the catalog becomes the current stage and
    clears the stage winner; every registered player keeps its colour and is
    put at the start position of its colour with one life, no gem and
    [at_exit] false; the scores, the match winner, the clock and the pending
    timers stay. *)
Theorem stage_load_players (s : game) (i : nat) :
  match levels s !! i with
  | None => _load_level i s = s
  | Some lv =>
      let s' := _load_level i s in
      current_level_index s' = i ∧ stage_winner s' = None ∧
      scores s' = scores s ∧ match_winner s' = match_winner s ∧
      start_time s' = start_time s ∧ timers s' = timers s ∧
      dom (players s') = dom (players s) ∧
      ∀ pid p, players s !! pid = Some p ->
        ∃ p', players s' !! pid = Some p' ∧
              color_type p' = color_type p ∧ lives p' = 1 ∧
              gems_collected p' = 0 ∧ at_exit p' = false ∧
              ∀ xy, dict_get (start_pos lv) (color_type p) = Some xy ->
                    (player_x p', player_y p') = xy
  end.
Proof.
  destruct (levels s !! i) as [lv |] eqn:Hlv.
  - rewrite (load_level_loaded s i lv Hlv). unfold loaded.
    cbn [current_level_index stage_winner scores match_winner start_time
         timers players].
    repeat split; [apply dom_fmap_L |].
    intros pid p Hp. eexists. rewrite lookup_fmap, Hp. split; [reflexivity |].
    unfold _reset_player_for_new_stage.
    destruct (start_pos lv) as [| e sp] eqn:Hsp.
    + repeat split. intros xy Hxy. discriminate.
    + destruct (dict_get (e :: sp) (color_type p)) as [[x y] |];
        repeat split; intros xy Hxy; simpl; congruence.
  - unfold _load_level. rewrite Hlv. reflexivity.
Qed.


(** ** Registration *)

(** X8. [_register_player], the current stage being in the catalog.  A token
    that is neither colour, whatever its case, is refused.  A free colour is
    registered under [player_<colour>] at the start position of the colour,
    with one life, no gem and [at_exit] false, and nothing but the players
    and possibly the clock changes.  A taken colour is refused, and so is
    every later registration of the colour that was just asked for. *)
Theorem register_player_rule (now : Z) (a : string) (s : game) (lv : level) :
  levels s !! current_level_index s = Some lv ->
  let out := _register_player now a s in
  match parse_color (lower a) with
  | None => out = (Ok (Status ERROR (Some "Invalid color.")), s)
  | Some c =>
      (is_Some (players s !! player_id_of c) ->
       out = (Ok (Status ERROR (Some "Color is taken.")), s)) ∧
      (players s !! player_id_of c = None ->
       ∃ x y,
         out.1 = Ok (Registered (player_id_of c) c x y) ∧
         players out.2
         = <[player_id_of c := mk_player c x y 1 0 false]> (players s) ∧
         (∀ xy, dict_get (start_pos lv) c = Some xy -> (x, y) = xy) ∧
         stage_frame s out.2 ∧ scores out.2 = scores s ∧
         stage_winner out.2 = stage_winner s ∧
         match_winner out.2 = match_winner s) ∧
      (∀ now' a', parse_color (lower a') = Some c ->
         _register_player now' a' out.2
         = (Ok (Status ERROR (Some "Color is taken.")), out.2))
  end.
Proof.
  intros Hlv out.
  destruct (parse_color (lower a)) as [c |] eqn:Hc;
    [| subst out; unfold _register_player; rewrite Hc; reflexivity].
  destruct (players s !! player_id_of c) as [q |] eqn:Hq.
  - assert (Hout : out = (Ok (Status ERROR (Some "Color is taken.")), s))
      by (subst out; unfold _register_player; rewrite Hc, Hq; reflexivity).
    rewrite Hout. split; [reflexivity |]. split; [discriminate |].
    intros now' a' Hc'. unfold _register_player, ret. rewrite Hc'.
    cbn [snd]. rewrite Hq. reflexivity.
  - set (p := _reset_player_for_new_stage (mk_player c 0 0 0 0 false)
                (start_pos lv)).
    assert (Hp : ∃ x y, p = mk_player c x y 1 0 false
                        ∧ ∀ xy, dict_get (start_pos lv) c = Some xy
                                -> (x, y) = xy).
    { subst p. unfold _reset_player_for_new_stage. cbn [color_type].
      destruct (start_pos lv) as [| e sp].
      - eexists _, _. split; [reflexivity | discriminate].
      - destruct (dict_get (e :: sp) c) as [[x y] |];
          eexists _, _; (split; [reflexivity |]); intros xy Hxy; congruence. }
    destruct Hp as (x & y & Hp & Hxy).
    set (s1 := set_players (<[player_id_of c := p]> (players s)) s).
    assert (Hout : out = (Ok (Registered (player_id_of c) c x y), s1)
                   ∨ out = (Ok (Registered (player_id_of c) c x y),
                            set_start_time (Some now) s1)).
    { subst out s1. unfold _register_player, ret. rewrite Hc, Hq, Hlv.
      cbv zeta. fold p. rewrite Hp. case_if; [right | left]; reflexivity. }
    split; [intros [? ?]; discriminate |]. split.
    + intros _. exists x, y.
      destruct Hout as [-> | ->]; subst s1;
        cbn [fst snd players set_players set_start_time]; rewrite Hp;
        repeat split; try exact Hxy; reflexivity.
    + intros now' a' Hc'. unfold _register_player, ret. rewrite Hc'.
      destruct Hout as [-> | ->]; subst s1;
        cbn [snd players set_players set_start_time];
        rewrite lookup_insert_eq; reflexivity.
Qed.

Lemma register_player_rule_witness :
  _register_player 9 "BLACK" (_register_player 7 "Black" init).2
  = (Ok (Status ERROR (Some "Color is taken.")),
     (_register_player 7 "Black" init).2).
Proof.
  pose proof (register_player_rule 7 "Black" init level_1
                ltac:(vm_compute; reflexivity)) as H.
  change (parse_color (lower "Black")) with (Some black) in H.
  cbv zeta in H. destruct H as (_ & _ & H).
  apply (H 9 "BLACK"). vm_compute. reflexivity.
Defined.

(** ** The end of a match *)

(** X9. Once the match winner is set, nothing but [reset_game] reopens the match:
    every other command leaves the match winner, the stage winner, the
    scores, the stage, its gems and the pending timers as they are, and a
    timer that fires only leaves the list of pending timers. *)
Theorem match_winner_is_final (now : Z) (line : string) (s : game) :
  truthy (match_winner s) = true ->
  command_of line ≠ Some "reset_game" ->
  let s' := (proses_string now line s).2 in
  match_winner s' = match_winner s ∧ stage_winner s' = stage_winner s ∧
  scores s' = scores s ∧ gems s' = gems s ∧
  current_level_index s' = current_level_index s ∧ timers s' = timers s ∧
  (∀ pid p p', players s !! pid = Some p -> players s' !! pid = Some p' ->
     gems_collected p' = gems_collected p ∧ at_exit p' = at_exit p
     ∧ color_type p' = color_type p) ∧
  ∀ s'', fire_timer s = Some s'' -> s'' = set_timers (tail (timers s)) s.
Proof.
  intros Hm Hcmd s'. subst s'.
  assert (Hg : ∀ t, match_winner t = match_winner s ->
                    truthy (match_winner t) || truthy (stage_winner t) = true)
    by (intros t ->; rewrite Hm; reflexivity).
  assert (Htimer : ∀ s'', fire_timer s = Some s''
                          -> s'' = set_timers (tail (timers s)) s).
  { intros s''. unfold fire_timer, _load_next_stage.
    destruct (timers s) as [| [dt []] rest]; [discriminate |].
    cbn [match_winner set_timers tail]. rewrite Hm. congruence. }
  assert (Hsame : ∀ (m : gmap string player) pid p p',
            m !! pid = Some p -> m !! pid = Some p' ->
            gems_collected p' = gems_collected p ∧ at_exit p' = at_exit p
            ∧ color_type p' = color_type p)
    by (intros m pid p p' H1 H2; rewrite H1 in H2; injection H2 as <-;
        repeat split).
  cut (match_winner (proses_string now line s).2 = match_winner s
       ∧ stage_winner (proses_string now line s).2 = stage_winner s
       ∧ scores (proses_string now line s).2 = scores s
       ∧ gems (proses_string now line s).2 = gems s
       ∧ current_level_index (proses_string now line s).2
         = current_level_index s
       ∧ timers (proses_string now line s).2 = timers s
       ∧ (∀ pid p p', players s !! pid = Some p ->
            players (proses_string now line s).2 !! pid = Some p' ->
            gems_collected p' = gems_collected p
            ∧ at_exit p' = at_exit p ∧ color_type p' = color_type p));
    [intros (H1 & H2 & H3 & H4 & H5 & H6 & H7); repeat (split; [assumption |]);
     exact Htimer |].
  clear Htimer.
  unfold proses_string, command_of in *.
  destruct (split (strip line)) as [| part0 args];
    [repeat (split; [reflexivity |]); exact (Hsame (players s)) |].
  cbv zeta.
  assert (Hclock : match_winner (start_clock now s) = match_winner s
            ∧ stage_winner (start_clock now s) = stage_winner s
            ∧ scores (start_clock now s) = scores s
            ∧ gems (start_clock now s) = gems s
            ∧ current_level_index (start_clock now s) = current_level_index s
            ∧ timers (start_clock now s) = timers s
            ∧ players (start_clock now s) = players s)
    by (unfold start_clock; case_if; repeat split; reflexivity).
  destruct Hclock as (Hc1 & Hc2 & Hc3 & Hc4 & Hc5 & Hc6 & Hc7).
  pose proof (Hg _ Hc1) as Hguard.
  rewrite <- Hc1, <- Hc2, <- Hc3, <- Hc4, <- Hc5, <- Hc6, <- Hc7.
  clear Hc1 Hc2 Hc3 Hc4 Hc5 Hc6 Hc7 Hg Hm.
  revert Hguard. generalize (start_clock now s). intros t Hguard.
  assert (Hnone : match_winner t = match_winner t
            ∧ stage_winner t = stage_winner t ∧ scores t = scores t
            ∧ gems t = gems t
            ∧ current_level_index t = current_level_index t
            ∧ timers t = timers t
            ∧ (∀ pid p p', players t !! pid = Some p ->
                 players t !! pid = Some p' ->
                 gems_collected p' = gems_collected p
                 ∧ at_exit p' = at_exit p ∧ color_type p' = color_type p))
    by (repeat (split; [reflexivity |]); exact (Hsame (players t))).
  repeat case_if;
    try match goal with
        | H : (_ =? "reset_game")%string = true |- _ =>
            apply String.eqb_eq in H; congruence
        end.
  - destruct args as [| a0 args]; [exact Hnone |].
    unfold _register_player, ret, raise.
    repeat (case_if || case_match); try exact Hnone;
      cbn [snd match_winner stage_winner scores gems current_level_index
           timers players set_players set_start_time];
      repeat (split; [reflexivity |]).
    all: intros pid p p' Hp; rewrite lookup_insert; case_decide;
      [congruence | apply Hsame, Hp].
  - repeat case_match; try exact Hnone.
    unfold _set_player_state, ret.
    destruct (players t !! _) as [q |] eqn:Hq; [| exact Hnone].
    cbn [snd match_winner stage_winner scores gems current_level_index
         timers players set_players].
    repeat (split; [reflexivity |]).
    intros pid p p' Hp. rewrite lookup_insert. case_decide as Hpid.
    + intros [= <-]. subst. rewrite Hq in Hp. injection Hp as <-.
      repeat split.
    + apply Hsame, Hp.
  - exact Hnone.
  - unfold _get_player_info, ret. repeat case_match; exact Hnone.
  - unfold _collect_gem. rewrite Hguard. repeat case_match; exact Hnone.
  - unfold _check_hazard_collision. rewrite Hguard.
    repeat case_match; exact Hnone.
  - unfold _player_at_exit. rewrite Hguard. repeat case_match; exact Hnone.
  - exact Hnone.
Qed.


Example white_wins_match_result :
  match_winner white_wins_match = Some "player_white"
  ∧ scores white_wins_match = mk_scores 0 3
  ∧ current_level_index white_wins_match = 2%nat
  ∧ timers white_wins_match = [].
Proof. vm_compute. repeat split; reflexivity. Qed.

Lemma match_winner_is_final_witness :
  match_winner
    (proses_string 10 "check_hazard_collision player_white black_pool_1"
       white_wins_match).2
  = match_winner white_wins_match.
Proof.
  exact (proj1 (match_winner_is_final 10
                  "check_hazard_collision player_white black_pool_1"
                  white_wins_match
                  ltac:(vm_compute; reflexivity)
                  ltac:(vm_compute; discriminate))).
Defined.

(** ** Timers and resets *)

(** X10. [reset_game] does not cancel the timers that are pending.  When a timer
    started by an earlier stage win is still pending, the reset leaves it in
    place, and when it fires it loads the second stage of the fresh match:
    stage 2 is shown with both scores at 0, no player and no stage played. *)
Theorem reset_keeps_pending_timers
    (now : Z) (s : game) (t : timer) (rest : list timer) :
  timers s = t :: rest ->
  1 < total_stages s ->
  let s1 := (proses_string now "reset_game" s).2 in
  timers s1 = t :: rest ∧
  ∃ s2, fire_timer s1 = Some s2 ∧
        s2 = loaded 1 level_2 (fresh (total_stages s) rest) ∧
        Z.of_nat (current_level_index s2) + 1 = 2 ∧
        scores s2 = mk_scores 0 0 ∧ players s2 = ∅ ∧
        stage_winner s2 = None ∧ match_winner s2 = None ∧ timers s2 = rest.
Proof.
  intros Ht Htot s1. subst s1.
  destruct (reset_game_restores now s) as (Hout & _). cbv zeta in Hout.
  rewrite Hout. cbn [snd]. rewrite Ht.
  split; [reflexivity |].
  exists (loaded 1 level_2 (fresh (total_stages s) rest)).
  split.
  - unfold fire_timer. cbn [timers fresh]. destruct t as [dt []].
    unfold _load_next_stage. cbn [match_winner set_timers fresh truthy
      current_level_index total_stages].
    replace (Z.of_nat 0 + 1 <? total_stages s) with true
      by (symmetry; apply Z.ltb_lt; lia).
    rewrite (load_level_loaded _ 1 level_2) by reflexivity.
    reflexivity.
  - split; [reflexivity |]. repeat split.
Qed.

Lemma reset_keeps_pending_timers_witness :
  timers (proses_string 9 "reset_game" white_won_stage_1).2
  = [Timer 3 load_next_stage_cb].
Proof.
  exact (proj1 (reset_keeps_pending_timers 9 white_won_stage_1
                  (Timer 3 load_next_stage_cb) []
                  ltac:(vm_compute; reflexivity)
                  ltac:(vm_compute; reflexivity))).
Defined.

(** ** The match clock *)

Lemma handle_stage_win_start_time (winner_id : string) (s : game) :
  start_time (_handle_stage_win winner_id s).2 = start_time s.
Proof.
  unfold _handle_stage_win, _determine_final_winner, ret, raise.
  repeat (case_if || case_match); reflexivity.
Qed.

Lemma bind_start_time {A B} (c : M A) (k : A -> M B) (s : game) :
  start_time (c s).2 = start_time s ->
  (∀ a t, start_time (k a t).2 = start_time t) ->
  start_time (bind c k s).2 = start_time s.
Proof.
  intros Hc Hk. unfold bind. destruct (c s) as [[a | e] t]; simpl in *.
  - rewrite Hk. exact Hc.
  - exact Hc.
Qed.

(** After the clock statement, a command other than [reset_game] leaves the
    start time alone, but for a registration that finds the clock off. *)
Lemma proses_string_start_time (now : Z) (line : string) (s : game) :
  command_of line ≠ Some "reset_game" ->
  start_time (proses_string now line s).2 = start_time (start_clock now s)
  ∨ (start_time (proses_string now line s).2 = Some now
     ∧ truthy_time (start_time (start_clock now s)) = false)
  ∨ (command_of line = None
     ∧ start_time (proses_string now line s).2 = start_time s).
Proof.
  intros Hcmd. unfold proses_string, command_of in *.
  destruct (split (strip line)) as [| part0 args];
    [right; right; split; reflexivity |].
  cbv zeta. generalize (start_clock now s). intros t.
  repeat case_if;
    try match goal with
        | H : (_ =? "reset_game")%string = true |- _ =>
            apply String.eqb_eq in H; congruence
        end.
  - destruct args; [left; reflexivity |].
    unfold _register_player, ret, raise.
    repeat (case_if || case_match); try (left; reflexivity).
    right. left. split; [reflexivity |].
    match goal with
    | H : _ && negb (truthy_time _) = true |- _ =>
        apply andb_true_iff in H as [_ H]; apply negb_true_iff in H; exact H
    end.
  - left. repeat case_match; try reflexivity.
    unfold _set_player_state, ret. repeat case_match; reflexivity.
  - left. reflexivity.
  - left. unfold _get_player_info, ret. repeat case_match; reflexivity.
  - left. repeat case_match; try reflexivity.
    unfold _collect_gem, ret. repeat (case_if || case_match); reflexivity.
  - left. repeat case_match; try reflexivity.
    unfold _check_hazard_collision, ret.
    repeat (case_if || case_match); try reflexivity.
    all: etrans;
      [apply bind_start_time;
         [apply handle_stage_win_start_time | reflexivity]
      | reflexivity].
  - left. repeat case_match; try reflexivity.
    unfold _player_at_exit, ret.
    repeat (case_if || case_match); try reflexivity.
    all: etrans;
      [apply bind_start_time;
         [first [apply handle_stage_win_start_time | reflexivity]
         | reflexivity]
      | reflexivity].
  - left. reflexivity.
Qed.

(** X11. A command other than [reset_game] never restarts a running clock, and
    [get_game_state] reports the time since it started; with a player
    registered and the clock not running, any such command starts it at the
    time of the call. *)
Theorem match_clock (now : Z) (line cmd : string) (s : game) :
  command_of line = Some cmd ->
  cmd ≠ "reset_game" ->
  let s' := (proses_string now line s).2 in
  (∀ t0, start_time s = Some t0 -> t0 ≠ 0 ->
     start_time s' = Some t0 ∧
     ∃ snap, proses_string now "get_game_state" s = (Ok (GameState snap), s)
             ∧ info_elapsed_time (snap_game_info snap) = now - t0) ∧
  (truthy_time (start_time s) = false -> players s ≠ ∅ ->
   start_time s' = Some now).
Proof.
  intros Hcmd Hne s'. subst s'.
  assert (Hnr : command_of line ≠ Some "reset_game") by congruence.
  pose proof (proses_string_start_time now line s Hnr) as Hst.
  split.
  - intros t0 Hs Hnz0.
    assert (Hrun : truthy_time (start_time s) = true)
      by (rewrite Hs; simpl; apply negb_true_iff, Z.eqb_neq, Hnz0).
    assert (Hclk : start_clock now s = s)
      by (unfold start_clock; rewrite Hrun; reflexivity).
    rewrite Hclk in Hst. split.
    + destruct Hst as [Hst | [[_ Hoff] | [Hnone _]]]; congruence.
    + rewrite proses_get_game_state, Hclk.
      unfold _get_game_state, ret. rewrite Hs.
      eexists. split; [reflexivity |]. simpl.
      destruct (t0 =? 0) eqn:Hz; [apply Z.eqb_eq in Hz; contradiction |].
      reflexivity.
  - intros Hoff Hpl.
    assert (Hclk : start_clock now s = set_start_time (Some now) s).
    { unfold start_clock. rewrite Hoff.
      destruct (1 <=? size (players s))%nat eqn:Hsz; [reflexivity |].
      apply Nat.leb_gt in Hsz.
      assert (size (players s) = 0%nat) by lia.
      exfalso. apply Hpl, map_size_empty_inv. assumption. }
    rewrite Hclk in Hst.
    destruct Hst as [Hst | [[Hst _] | [Hnone _]]];
      [rewrite Hst; reflexivity | exact Hst | congruence].
Qed.

Lemma match_clock_witness :
  start_time (proses_string 20 "get_player_info player_black"
                black_registered).2 = Some 7.
Proof.
  destruct (match_clock 20 "get_player_info player_black" "get_player_info"
              black_registered
              ltac:(vm_compute; reflexivity) ltac:(discriminate))
    as [H _].
  exact (proj1 (H 7 ltac:(vm_compute; reflexivity) ltac:(discriminate))).
Defined.


(** ** Parsing: [strip], [split] and [int] *)

Lemma string_app_cons (x : ascii) (a b : string) :
  String x a +:+ b = String x (a +:+ b).
Proof. reflexivity. Qed.

Lemma string_app_assoc (a b c : string) : (a +:+ b) +:+ c = a +:+ (b +:+ c).
Proof.
  induction a as [| x a IH]; [reflexivity |].
  rewrite !string_app_cons, IH. reflexivity.
Qed.

Lemma string_app_nil_r (a : string) : a +:+ "" = a.
Proof.
  induction a as [| x a IH]; [reflexivity |].
  rewrite string_app_cons, IH. reflexivity.
Qed.

Lemma split_from_token (t tok s : string) :
  no_space t = true ->
  split_from tok (t +:+ s) = split_from (tok +:+ t) s.
Proof.
  revert tok. induction t as [| a t IH]; intros tok Ht.
  - rewrite string_app_nil_r. reflexivity.
  - simpl in Ht. apply andb_true_iff in Ht as [Ha Ht].
    apply negb_true_iff in Ha.
    rewrite string_app_cons. cbn [split_from]. rewrite Ha, IH by exact Ht.
    rewrite string_app_assoc. reflexivity.
Qed.

Lemma split_from_blank (tok s : string) :
  tok ≠ "" -> split_from tok (String " " s) = tok :: split_from "" s.
Proof. intros Hne. simpl. destruct tok; [contradiction | reflexivity]. Qed.

Lemma split_from_end (tok : string) : tok ≠ "" -> split_from tok "" = [tok].
Proof. intros Hne. simpl. destruct tok; [contradiction | reflexivity]. Qed.

(** Round trip: tokens joined by single blanks are split back into the same
    tokens. *)
Lemma split_join (ts : list string) :
  Forall token ts -> split (join ts) = ts.
Proof.
  unfold split. induction 1 as [| t ts [Hne Hns] Hall IH]; [reflexivity |].
  destruct ts as [| t' ts].
  - replace (join [t]) with (t +:+ "") by apply string_app_nil_r.
    rewrite split_from_token by exact Hns.
    change ("" +:+ t) with t. apply split_from_end. exact Hne.
  - change (join (t :: t' :: ts)) with (t +:+ String " " (join (t' :: ts))).
    rewrite split_from_token by exact Hns.
    change ("" +:+ t) with t.
    rewrite split_from_blank by exact Hne. rewrite IH. reflexivity.
Qed.

Lemma rev_onto_app (acc s1 s2 : string) :
  rev_onto acc (s1 +:+ s2) = rev_onto (rev_onto acc s1) s2.
Proof.
  revert acc. induction s1 as [| a s1 IH]; intros acc;
    [reflexivity | rewrite string_app_cons; apply IH].
Qed.

Lemma rev_onto_acc (acc s : string) : rev_onto acc s = rev_onto "" s +:+ acc.
Proof.
  revert acc. induction s as [| a s IH]; intros acc; [reflexivity |].
  cbn [rev_onto].
  rewrite (IH (String a acc)), (IH (String a "")), string_app_assoc.
  reflexivity.
Qed.

Lemma rev_onto_involutive (s : string) : rev_onto "" (rev_onto "" s) = s.
Proof.
  induction s as [| a s IH]; [reflexivity |].
  cbn [rev_onto].
  rewrite (rev_onto_acc (String a "")), rev_onto_app, IH. reflexivity.
Qed.

Lemma rev_onto_last (s : string) (a : ascii) :
  last_char s = Some a -> ∃ r, rev_onto "" s = String a r.
Proof.
  induction s as [| b s IH]; [discriminate |].
  destruct s as [| c s].
  - intros [= <-]. exists "". reflexivity.
  - intros Hl. destruct (IH Hl) as [r Hr].
    exists (r +:+ String b "").
    change (rev_onto "" (String b (String c s)))
      with (rev_onto (String b "") (String c s)).
    rewrite rev_onto_acc, Hr. reflexivity.
Qed.

(** [strip] leaves a string alone that neither starts nor ends with a
    blank. *)
Lemma strip_id (s : string) (a b : ascii) (r : string) :
  s = String a r -> isspace a = false ->
  last_char s = Some b -> isspace b = false ->
  strip s = s.
Proof.
  intros -> Ha Hl Hb. unfold strip, rstrip.
  assert (Hls : lstrip (String a r) = String a r) by (simpl; rewrite Ha; reflexivity).
  rewrite Hls. destruct (rev_onto_last _ _ Hl) as [q Hq].
  rewrite Hq. simpl lstrip. rewrite Hb, <- Hq. apply rev_onto_involutive.
Qed.

Lemma last_char_app (s t : string) :
  t ≠ "" -> last_char (s +:+ t) = last_char t.
Proof.
  intros Ht. induction s as [| a s IH]; [reflexivity |].
  rewrite string_app_cons. cbn [last_char]. rewrite IH.
  destruct (s +:+ t) eqn:Hst; [| reflexivity].
  destruct s; [contradiction | discriminate].
Qed.

Lemma token_last (t : string) :
  token t -> ∃ b, last_char t = Some b ∧ isspace b = false.
Proof.
  intros [Hne Hns]. induction t as [| a t IH]; [contradiction |].
  simpl in Hns. apply andb_true_iff in Hns as [Ha Hns].
  apply negb_true_iff in Ha.
  destruct t as [| c t].
  - exists a. split; [reflexivity | exact Ha].
  - destruct (IH ltac:(discriminate) Hns) as (b & Hl & Hb).
    exists b. split; [exact Hl | exact Hb].
Qed.

Lemma join_last (ts : list string) :
  Forall token ts -> ts ≠ [] ->
  ∃ b, last_char (join ts) = Some b ∧ isspace b = false.
Proof.
  induction 1 as [| t ts Ht Hall IH]; [contradiction |]. intros _.
  destruct ts as [| t' ts]; [apply token_last, Ht |].
  destruct (IH ltac:(discriminate)) as (b & Hl & Hb).
  exists b. split; [| exact Hb].
  change (join (t :: t' :: ts)) with (t +:+ String " " (join (t' :: ts))).
  rewrite last_char_app by discriminate.
  destruct (join (t' :: ts)) eqn:Hj; [discriminate | exact Hl].
Qed.

(** What the dispatcher reads from a line of tokens joined by single
    blanks: the tokens. *)
Lemma split_strip_join (ts : list string) :
  Forall token ts -> split (strip (join ts)) = ts.
Proof.
  intros Hall. destruct ts as [| t ts]; [reflexivity |].
  destruct (join_last (t :: ts) Hall ltac:(discriminate)) as (b & Hl & Hb).
  assert (Ht : token t) by (inversion Hall; assumption).
  destruct Ht as [Hne Hns]. destruct t as [| a t]; [contradiction |].
  simpl in Hns. apply andb_true_iff in Hns as [Ha _].
  apply negb_true_iff in Ha.
  assert (Hj : ∃ r, join (String a t :: ts) = String a r)
    by (destruct ts; eexists; reflexivity).
  destruct Hj as [r Hj].
  rewrite (strip_id _ a b r Hj Ha Hl Hb). apply split_join, Hall.
Qed.


(** *** Decimal numerals *)

Lemma pretty_N_char_digit (n : N) :
  (n < 10)%N ->
  digit_val (pretty_N_char n) = Some (Z.of_N n)
  ∧ Ascii.eqb (pretty_N_char n) "_" = false
  ∧ isspace (pretty_N_char n) = false
  ∧ pretty_N_char n ≠ "+"%char ∧ pretty_N_char n ≠ "-"%char.
Proof.
  intros Hn.
  assert (n = 0 ∨ n = 1 ∨ n = 2 ∨ n = 3 ∨ n = 4 ∨ n = 5 ∨ n = 6 ∨ n = 7
          ∨ n = 8 ∨ n = 9)%N as Hcases by lia.
  repeat destruct Hcases as [-> | Hcases]; try subst n;
    repeat split; try reflexivity; discriminate.
Qed.

(** Reading the digits that [pretty] wrote gives the number back. *)
Lemma digits_pretty_N_go (x : N) (s : string) (b : bool) :
  (0 < x)%N ->
  digits 0 b (pretty_N_go x s) = digits (Z.of_N x) true s.
Proof.
  revert s b. induction (N.lt_wf_0 x) as [x _ IH]. intros s b Hx.
  rewrite pretty_N_go_step by exact Hx.
  destruct (pretty_N_char_digit (x `mod` 10)%N) as (Hd & Hu & _);
    [apply N.mod_lt; discriminate |].
  destruct (decide (x `div` 10 = 0)%N) as [Hz | Hnz].
  - rewrite Hz, pretty_N_go_0. cbn [digits]. rewrite Hu, Hd.
    f_equal. pose proof (N.div_mod x 10 ltac:(discriminate)) as Hdm.
    rewrite Hz in Hdm. revert Hdm. generalize (x `mod` 10)%N. intros m Hdm.
    lia.
  - rewrite IH;
      [| apply N.div_lt; [exact Hx | reflexivity] | apply N.neq_0_lt_0, Hnz].
    cbn [digits]. rewrite Hu, Hd. f_equal.
    pose proof (N.div_mod x 10 ltac:(discriminate)) as Hdm.
    revert Hdm. generalize (x `mod` 10)%N (x `div` 10)%N. intros m q Hdm.
    lia.
Qed.

Lemma pretty_N_go_head (x : N) (s : string) :
  (0 < x)%N ->
  ∃ d r, pretty_N_go x s = String (pretty_N_char d) r ∧ (d < 10)%N.
Proof.
  revert s. induction (N.lt_wf_0 x) as [x _ IH]. intros s Hx.
  rewrite pretty_N_go_step by exact Hx.
  destruct (decide (x `div` 10 = 0)%N) as [Hz | Hnz].
  - rewrite Hz, pretty_N_go_0. eexists _, _. split; [reflexivity |].
    apply N.mod_lt. discriminate.
  - apply IH;
      [apply N.div_lt; [exact Hx | reflexivity] | apply N.neq_0_lt_0, Hnz].
Qed.

Lemma no_space_pretty_N_go (x : N) (s : string) :
  no_space s = true -> no_space (pretty_N_go x s) = true.
Proof.
  revert s. induction (N.lt_wf_0 x) as [x _ IH]. intros s Hs.
  destruct (decide (x = 0)%N) as [-> | Hx]; [rewrite pretty_N_go_0; exact Hs |].
  rewrite pretty_N_go_step by lia.
  apply IH; [apply N.div_lt; [lia | reflexivity] |].
  destruct (pretty_N_char_digit (x `mod` 10)%N) as (_ & _ & Hsp & _);
    [apply N.mod_lt; discriminate |].
  cbn [no_space]. rewrite Hsp, Hs. reflexivity.
Qed.

Lemma int_pretty_N (x : N) : int (pretty x) = Some (Z.of_N x).
Proof.
  unfold pretty, pretty_N. case_decide as Hx; [subst; reflexivity |].
  destruct (pretty_N_go_head x "") as (d & r & Hhead & Hd); [lia |].
  destruct (pretty_N_char_digit d Hd) as (_ & _ & _ & Hplus & Hminus).
  assert (Hint : int (pretty_N_go x "") = digits 0 false (pretty_N_go x "")).
  { rewrite Hhead. unfold int.
    destruct (pretty_N_char d) as [[] [] [] [] [] [] [] []] eqn:Hc;
      try reflexivity; exfalso;
      first [apply Hplus; reflexivity | apply Hminus; reflexivity]. }
  rewrite Hint, digits_pretty_N_go by lia. reflexivity.
Qed.

(** Round trip: [int] reads back every integer that an f-string wrote. *)
Lemma int_pretty (z : Z) : int (pretty z) = Some z.
Proof.
  destruct z as [| p | p].
  - reflexivity.
  - change (pretty (Z.pos p)) with (pretty (N.pos p)).
    rewrite int_pretty_N. reflexivity.
  - change (pretty (Z.neg p)) with (String "-" (pretty (N.pos p))).
    unfold int. unfold pretty, pretty_N.
    rewrite decide_False by discriminate.
    rewrite digits_pretty_N_go by reflexivity. reflexivity.
Qed.

Lemma token_pretty_N (x : N) : token (pretty x).
Proof.
  unfold pretty, pretty_N. case_decide as Hx; [split; [discriminate | reflexivity] |].
  split.
  - destruct (pretty_N_go_head x "") as (d & r & -> & _); [lia | discriminate].
  - apply no_space_pretty_N_go. reflexivity.
Qed.

Lemma token_pretty_nat (n : nat) : token (pretty n).
Proof. apply token_pretty_N. Qed.

Lemma token_pretty (z : Z) : token (pretty z).
Proof.
  destruct z as [| p | p].
  - split; [discriminate | reflexivity].
  - apply (token_pretty_N (N.pos p)).
  - destruct (token_pretty_N (N.pos p)) as [_ Hns].
    change (pretty (Z.neg p)) with (String "-" (pretty (N.pos p))).
    split; [discriminate |]. cbn [no_space]. rewrite Hns. reflexivity.
Qed.

Lemma no_space_app (a b : string) :
  no_space a = true -> no_space b = true -> no_space (a +:+ b) = true.
Proof.
  intros Ha Hb. induction a as [| x a IH]; [exact Hb |].
  rewrite string_app_cons. simpl in *.
  apply andb_true_iff in Ha as [Hx Ha]. rewrite Hx, IH by exact Ha.
  reflexivity.
Qed.

(** X12. The identifiers that the server hands out -- of players, gems,
    hazards and walls -- are tokens: not empty and without blank, so a
    command line carries them as one word. *)
Lemma server_ids_are_tokens (c : color) (n : nat) :
  token (player_id_of c) ∧ token (gem_id_of c n) ∧ token (hazard_id_of c n)
  ∧ token (wall_id_of n).
Proof.
  destruct (token_pretty_nat n) as [_ Hn].
  assert (Hg : no_space ("_gem_" +:+ pretty n) = true)
    by (apply no_space_app; [reflexivity | exact Hn]).
  assert (Hp : no_space ("_pool_" +:+ pretty n) = true)
    by (apply no_space_app; [reflexivity | exact Hn]).
  unfold gem_id_of, hazard_id_of, wall_id_of.
  repeat split; try (destruct c; discriminate); try discriminate.
  - destruct c; reflexivity.
  - apply no_space_app; [destruct c; reflexivity | exact Hg].
  - apply no_space_app; [destruct c; reflexivity | exact Hp].
  - apply no_space_app; [reflexivity | exact Hn].
Qed.


(** ** From the client's command line to the handler *)

Lemma token_literal (t : string) :
  t ≠ "" -> no_space t = true -> token t.
Proof. intros; split; assumption. Qed.

Ltac dispatch_tokens :=
  unfold proses_string;
  match goal with
  | |- context [split (strip ?line)] =>
      match goal with
      | H : split (strip line) = _ |- _ => rewrite H
      end
  end;
  cbv zeta;
  repeat match goal with
  | |- context [lower ?c] =>
      let v := eval vm_compute in (lower c) in
      change (lower c) with v
  end;
  repeat match goal with
  | |- context [String.eqb ?a ?b] =>
      let v := eval vm_compute in (String.eqb a b) in
      change (String.eqb a b) with v
  end;
  cbv iota.

(** X13. A [set_player_state] line that the client formats from a player id
    without blank and three integers reaches [_set_player_state] with that
    id and those integers; for a registered player the answer is OK and the
    position and lives are stored, the colour, the gem count and [at_exit]
    being kept. *)
Theorem wire_set_player_state
    (now : Z) (player_id : string) (x y lv : Z) (s : game) :
  token player_id ->
  proses_string now (ClientInterface.set_player_state player_id x y lv) s
  = _set_player_state player_id x y lv (start_clock now s)
  ∧ ∀ p, players s !! player_id = Some p ->
      proses_string now (ClientInterface.set_player_state player_id x y lv) s
      = (Ok (Status OK None),
         set_players
           (<[player_id := mk_player (color_type p) x y lv (gems_collected p)
                             (at_exit p)]> (players (start_clock now s)))
           (start_clock now s)).
Proof.
  intros Hpid.
  assert (Hsplit : split (strip (ClientInterface.set_player_state
                                   player_id x y lv))
                   = ["set_player_state"; player_id; pretty x; pretty y;
                      pretty lv]).
  { change (ClientInterface.set_player_state player_id x y lv)
      with (join ["set_player_state"; player_id; pretty x; pretty y;
                  pretty lv]).
    apply split_strip_join.
    repeat (apply Forall_cons; split); try apply token_pretty;
      [apply token_literal; [discriminate | reflexivity] | exact Hpid
      | apply Forall_nil_2]. }
  assert (Hrun : proses_string now
                   (ClientInterface.set_player_state player_id x y lv) s
                 = _set_player_state player_id x y lv (start_clock now s)).
  { dispatch_tokens. rewrite !int_pretty. reflexivity. }
  split; [exact Hrun |].
  intros p Hp. rewrite Hrun. unfold _set_player_state, ret.
  replace (players (start_clock now s)) with (players s)
    by (unfold start_clock; case_if; reflexivity).
  rewrite Hp. reflexivity.
Qed.

Lemma wire_set_player_state_witness :
  proses_string 9 (ClientInterface.set_player_state "player_black" 120 (-4) 1)
    black_registered
  = _set_player_state "player_black" 120 (-4) 1 (start_clock 9 black_registered).
Proof.
  exact (proj1 (wire_set_player_state 9 "player_black" 120 (-4) 1
                  black_registered
                  (token_literal "player_black" ltac:(discriminate)
                     ltac:(reflexivity)))).
Defined.

(** X14. The other command lines of the client reach the handler they name, with
    the identifiers as written, when these hold no blank; [reset_game] and
    [get_game_state] carry no argument. *)
Theorem wire_commands (now : Z) (a b : string) (s : game) :
  token a -> token b ->
  let t := start_clock now s in
  proses_string now (ClientInterface.register_player a) s
  = _register_player now a t ∧
  proses_string now (ClientInterface.get_player_info a) s
  = _get_player_info a t ∧
  proses_string now (ClientInterface.collect_gem a b) s = _collect_gem a b t ∧
  proses_string now (ClientInterface.check_hazard_collision a b) s
  = _check_hazard_collision a b t ∧
  proses_string now (ClientInterface.player_at_exit a) s = _player_at_exit a t ∧
  proses_string now ClientInterface.get_game_state s = _get_game_state now t ∧
  proses_string now ClientInterface.reset_game s
  = (Ok (Status OK None), _full_reset t).
Proof.
  intros Ha Hb t. subst t.
  assert (Hone : ∀ c, token c -> split (strip (c +:+ " " +:+ a)) = [c; a]).
  { intros c Hc. change (c +:+ " " +:+ a) with (join [c; a]).
    apply split_strip_join. repeat (apply Forall_cons; split); try assumption.
    apply Forall_nil_2. }
  assert (Htwo : ∀ c, token c ->
            split (strip (c +:+ " " +:+ a +:+ " " +:+ b)) = [c; a; b]).
  { intros c Hc. change (c +:+ " " +:+ a +:+ " " +:+ b) with (join [c; a; b]).
    apply split_strip_join. repeat (apply Forall_cons; split); try assumption.
    apply Forall_nil_2. }
  split; [| split; [| split; [| split; [| split; [| split]]]]].
  - pose proof (Hone "register_player"
                  ltac:(apply token_literal; [discriminate | reflexivity])) as H.
    change ("register_player" +:+ " " +:+ a)
      with (ClientInterface.register_player a) in H.
    dispatch_tokens. reflexivity.
  - pose proof (Hone "get_player_info"
                  ltac:(apply token_literal; [discriminate | reflexivity])) as H.
    change ("get_player_info" +:+ " " +:+ a)
      with (ClientInterface.get_player_info a) in H.
    dispatch_tokens. reflexivity.
  - pose proof (Htwo "collect_gem"
                  ltac:(apply token_literal; [discriminate | reflexivity])) as H.
    change ("collect_gem" +:+ " " +:+ a +:+ " " +:+ b)
      with (ClientInterface.collect_gem a b) in H.
    dispatch_tokens. reflexivity.
  - pose proof (Htwo "check_hazard_collision"
                  ltac:(apply token_literal; [discriminate | reflexivity])) as H.
    change ("check_hazard_collision" +:+ " " +:+ a +:+ " " +:+ b)
      with (ClientInterface.check_hazard_collision a b) in H.
    dispatch_tokens. reflexivity.
  - pose proof (Hone "player_at_exit"
                  ltac:(apply token_literal; [discriminate | reflexivity])) as H.
    change ("player_at_exit" +:+ " " +:+ a)
      with (ClientInterface.player_at_exit a) in H.
    dispatch_tokens. reflexivity.
  - assert (H : split (strip ClientInterface.get_game_state)
                = ["get_game_state"]) by (vm_compute; reflexivity).
    dispatch_tokens. reflexivity.
  - assert (H : split (strip ClientInterface.reset_game) = ["reset_game"])
      by (vm_compute; reflexivity).
    dispatch_tokens. reflexivity.
Qed.

Lemma wire_commands_witness :
  proses_string 9 (ClientInterface.collect_gem "player_black" "black_gem_0")
    black_registered
  = _collect_gem "player_black" "black_gem_0" (start_clock 9 black_registered).
Proof.
  exact (proj1 (proj2 (proj2
    (wire_commands 9 "player_black" "black_gem_0" black_registered
       (token_literal "player_black" ltac:(discriminate) ltac:(reflexivity))
       (token_literal "black_gem_0" ltac:(discriminate) ltac:(reflexivity)))))).
Defined.


(** ** From the socket to the dispatcher *)

Lemma strip_payload (s : string) (a b : ascii) (r : string) :
  s = String a r -> isspace a = false ->
  last_char s = Some b -> isspace b = false ->
  strip (ClientInterface.payload s) = s.
Proof.
  intros Hs Ha Hl Hb. unfold ClientInterface.payload, strip, rstrip.
  assert (Hls : lstrip (s +:+ ClientInterface.delimiter)
                = s +:+ ClientInterface.delimiter).
  { rewrite Hs, string_app_cons. cbn [lstrip]. rewrite Ha. reflexivity. }
  rewrite Hls, rev_onto_app. unfold ClientInterface.delimiter.
  cbn [rev_onto].
  destruct (rev_onto_last _ _ Hl) as [q Hq]. rewrite Hq.
  change (lstrip (String "010" (String "013" (String "010" (String "013"
            (String b q))))))
    with (lstrip (String b q)).
  cbn [lstrip]. rewrite Hb, <- Hq. apply rev_onto_involutive.
Qed.

(** X15. A command of blank-free words joined by single blanks survives the
    trip over the socket: the client appends the delimiter, the server
    strips what it received and gets the command back, and the dispatcher
    splits it into the same words. *)
Theorem request_round_trip (ts : list string) :
  Forall token ts -> ts ≠ [] ->
  received_command (ClientInterface.payload (join ts)) = join ts
  ∧ split (strip (received_command (ClientInterface.payload (join ts)))) = ts.
Proof.
  intros Hall Hne.
  assert (Hrecv : received_command (ClientInterface.payload (join ts))
                  = join ts).
  { destruct (join_last ts Hall Hne) as (b & Hl & Hb).
    destruct ts as [| t ts]; [contradiction |].
    assert (Ht : token t) by (inversion Hall; assumption).
    destruct Ht as [Hnt Hns]. destruct t as [| a t]; [contradiction |].
    simpl in Hns. apply andb_true_iff in Hns as [Ha _].
    apply negb_true_iff in Ha.
    assert (Hj : ∃ r, join (String a t :: ts) = String a r)
      by (destruct ts; eexists; reflexivity).
    destruct Hj as [r Hj].
    exact (strip_payload _ a b r Hj Ha Hl Hb). }
  split; [exact Hrecv |].
  rewrite Hrecv. apply split_strip_join, Hall.
Qed.

Lemma request_round_trip_witness :
  received_command
    (ClientInterface.payload (join ["collect_gem"; "player_black"; "black_gem_0"]))
  = join ["collect_gem"; "player_black"; "black_gem_0"].
Proof.
  refine (proj1 (request_round_trip
                   ["collect_gem"; "player_black"; "black_gem_0"] _ _)).
  - repeat (apply Forall_cons; split);
      try (apply token_literal; [discriminate | reflexivity]).
    apply Forall_nil_2.
  - discriminate.
Defined.


(** ** The single-level engine *)

Lemma legacy_truthy_id (c : color) : truthy (Some (player_id_of c)) = true.
Proof. destruct c; reflexivity. Qed.

Lemma legacy_set_players_sound (s : Legacy.game) (pid : string) (p p' : player) :
  legacy_sound s ->
  Legacy.players s !! pid = Some p ->
  color_type p' = color_type p ->
  gems_collected p' = gems_collected p ->
  legacy_sound (Legacy.set_players (<[pid := p']> (Legacy.players s)) s).
Proof.
  intros (Hids & Hacc & Hw & Hlv) Hp Hc Hg.
  split; [| split; [| split]]; [| | exact Hw | exact Hlv].
  - cbn. intros q x. rewrite lookup_insert. case_decide.
    + intros [= <-]. subst q. rewrite Hc. exact (Hids pid p Hp).
    + apply Hids.
  - intros c. destruct (Hacc c) as [Hnn Hsum].
    unfold legacy_collected_by, legacy_remaining, legacy_required in *.
    cbn. rewrite lookup_insert. case_decide as Hq; [| split; assumption].
    subst pid. rewrite Hp in Hnn, Hsum. rewrite Hg. split; assumption.
Qed.

Lemma legacy_register_sound (a : string) (s : Legacy.game) :
  legacy_sound s -> legacy_sound (Legacy._register_player a s).2.
Proof.
  intros Hs. unfold Legacy._register_player.
  destruct (parse_color (lower a)) as [c |]; [| exact Hs].
  destruct (Legacy.players s !! player_id_of c) eqn:Hp; [exact Hs |].
  destruct Hs as (Hids & Hacc & Hw & Hlv).
  assert (Hstate : ∀ x y,
    legacy_sound
      (Legacy.set_players
         (<[player_id_of c := mk_player c x y Legacy.default_player_lives 0
                                false]> (Legacy.players s)) s)).
  { intros x y. split; [| split; [| split]]; [| | exact Hw | exact Hlv].
    - cbn. intros q p. rewrite lookup_insert. case_decide.
      + intros [= <-]. subst q. reflexivity.
      + apply Hids.
    - intros c'. destruct (Hacc c') as [Hnn Hsum].
      unfold legacy_collected_by, legacy_remaining, legacy_required in *.
      cbn. rewrite lookup_insert. case_decide as Hq; [| split; assumption].
      apply player_id_of_inj in Hq. subst c'. rewrite Hp in Hnn, Hsum.
      cbn. split; [lia | exact Hsum]. }
  destruct c; apply Hstate.
Qed.

Lemma legacy_set_player_state_sound (a : string) (x y lv : Z) (s : Legacy.game) :
  legacy_sound s -> legacy_sound (Legacy._set_player_state a x y lv s).2.
Proof.
  intros Hs. unfold Legacy._set_player_state.
  destruct (Legacy.players s !! a) as [p |] eqn:Hp; [| exact Hs].
  apply (legacy_set_players_sound s a p); [exact Hs | exact Hp | |]; reflexivity.
Qed.

Lemma legacy_collect_gem_sound (a b : string) (s : Legacy.game) :
  legacy_sound s -> legacy_sound (Legacy._collect_gem a b s).2.
Proof.
  intros Hs. unfold Legacy._collect_gem.
  destruct (truthy (Legacy.winner s)); [exact Hs |].
  destruct (Legacy.players s !! a) as [p |] eqn:Hp; [| exact Hs].
  destruct (Legacy.gems s !! b) as [g |] eqn:Hg; [| exact Hs].
  case_decide as Hc; [| exact Hs].
  destruct Hs as (Hids & Hacc & Hw & Hlv).
  split; [| split; [| split]]; [| | exact Hw | exact Hlv].
  - cbn. intros q x. rewrite lookup_insert. case_decide.
    + intros [= <-]. subst q. exact (Hids a p Hp).
    + apply Hids.
  - intros c. destruct (Hacc c) as [Hnn Hsum].
    pose proof (Hids a p Hp) as Ha.
    unfold legacy_collected_by, legacy_remaining, legacy_required in *.
    cbn [snd Legacy.players Legacy.gems Legacy.black_gems_required
         Legacy.white_gems_required].
    rewrite lookup_insert.
    destruct (decide (gem_type g = c)) as [Hgc | Hgc].
    + assert (Hpc : a = player_id_of c) by (rewrite Ha, Hc, Hgc; reflexivity).
      rewrite decide_True by exact Hpc. rewrite Hpc in Hp.
      rewrite Hp in Hnn, Hsum. cbn [gems_collected].
      rewrite map_filter_delete, map_size_delete.
      assert (Hin : filter (fun kv : string * gem => gem_type kv.2 = c)
                      (Legacy.gems s) !! b = Some g)
        by (apply map_lookup_filter_Some; split; [exact Hg | exact Hgc]).
      rewrite Hin.
      assert (Hpos : (0 < size (filter (fun kv : string * gem =>
                                  gem_type kv.2 = c) (Legacy.gems s)))%nat).
      { destruct (size _) eqn:Hsz; [| lia].
        apply map_size_empty_iff in Hsz. rewrite Hsz in Hin.
        rewrite lookup_empty in Hin. discriminate. }
      split; lia.
    + assert (Hpc : a ≠ player_id_of c).
      { intros ->. apply Hgc. rewrite <- Hc.
        apply player_id_of_inj. symmetry. exact Ha. }
      rewrite decide_False by exact Hpc.
      rewrite map_filter_delete, map_size_delete.
      assert (Hout : filter (fun kv : string * gem => gem_type kv.2 = c)
                       (Legacy.gems s) !! b = None).
      { apply map_lookup_filter_None. right. intros g' Hg'.
        rewrite Hg in Hg'. injection Hg' as <-. exact Hgc. }
      rewrite Hout. split; assumption.
Qed.

Lemma legacy_hazard_sound (a b : string) (s : Legacy.game) :
  legacy_sound s -> legacy_sound (Legacy._check_hazard_collision a b s).2.
Proof.
  intros Hs. unfold Legacy._check_hazard_collision.
  destruct (truthy (Legacy.winner s)); [exact Hs |].
  destruct (Legacy.players s !! a) as [p |] eqn:Hp; [| exact Hs].
  destruct (Legacy.hazards s !! b) as [h |]; [| exact Hs].
  case_decide; [| exact Hs].
  pose proof (legacy_set_players_sound s a p
                (mk_player (color_type p) (player_x p) (player_y p) 0
                   (gems_collected p) (at_exit p)) Hs Hp eq_refl eq_refl)
    as (Hids & Hacc & Hw & Hlv).
  split; [| split; [| split]];
    [exact Hids | exact Hacc | right; eexists; reflexivity | exact Hlv].
Qed.

Lemma legacy_exit_sound (a : string) (s : Legacy.game) :
  legacy_sound s -> legacy_sound (Legacy._player_at_exit a s).2.
Proof.
  intros Hs. unfold Legacy._player_at_exit.
  destruct (truthy (Legacy.winner s)); [exact Hs |].
  destruct (Legacy.players s !! a) as [p |] eqn:Hp; [| exact Hs].
  pose proof (legacy_set_players_sound s a p
                (mk_player (color_type p) (player_x p) (player_y p) (lives p)
                   (gems_collected p) true) Hs Hp eq_refl eq_refl) as Hs'.
  cbn [snd]. unfold Legacy._check_race_win_condition.
  destruct (truthy _); [exact Hs' |].
  destruct (_ && _); [| exact Hs'].
  destruct Hs' as (Hids & Hacc & Hw & Hlv).
  split; [| split; [| split]]; [exact Hids | exact Hacc | | exact Hlv].
  right. exists (color_type p). cbn. f_equal. exact (proj1 Hs a p Hp).
Qed.

Lemma legacy_proses_string_sound (line : string) (s : Legacy.game) :
  legacy_sound s -> legacy_sound (Legacy.proses_string line s).2.
Proof.
  intros Hs. unfold Legacy.proses_string.
  destruct (split (strip line)) as [| part0 args]; [exact Hs |].
  cbv zeta. repeat case_if.
  - repeat case_match; try exact Hs. apply legacy_register_sound, Hs.
  - repeat case_match; try exact Hs. apply legacy_set_player_state_sound, Hs.
  - exact Hs.
  - unfold Legacy._get_player_info. repeat case_match; exact Hs.
  - repeat case_match; try exact Hs. apply legacy_collect_gem_sound, Hs.
  - repeat case_match; try exact Hs. apply legacy_hazard_sound, Hs.
  - repeat case_match; try exact Hs. apply legacy_exit_sound, Hs.
  - exact Hs.
  - exact Hs.
Qed.

Lemma legacy_init_sound : legacy_sound Legacy.init.
Proof.
  split; [| split; [| split]].
  - intros pid p Hp. vm_compute in Hp. discriminate.
  - intros c. destruct c; vm_compute; split; first [reflexivity | discriminate].
  - left. reflexivity.
  - reflexivity.
Qed.

Lemma legacy_steps_sound (a b : Legacy.game) :
  rtc legacy_step a b -> legacy_sound a -> legacy_sound b.
Proof.
  induction 1 as [| a b c [line ->] _ IH]; [tauto |].
  intros Ha. apply IH, legacy_proses_string_sound, Ha.
Qed.

Lemma legacy_reachable_sound (s : Legacy.game) :
  legacy_reachable s -> legacy_sound s.
Proof. intros Hr. exact (legacy_steps_sound _ _ Hr legacy_init_sound). Qed.

Lemma legacy_black_registered_reachable :
  legacy_reachable legacy_black_registered.
Proof. apply rtc_once. exists "register_player black". reflexivity. Qed.

Lemma legacy_white_won_reachable : legacy_reachable legacy_white_won.
Proof.
  eapply rtc_r; [exact legacy_black_registered_reachable |].
  exists "check_hazard_collision player_black white_pool_1". reflexivity.
Qed.

(** A request leaves the winner of an ended game in place. *)
Lemma legacy_winner_kept (line : string) (s : Legacy.game) :
  truthy (Legacy.winner s) = true ->
  Legacy.winner (Legacy.proses_string line s).2 = Legacy.winner s
  ∧ Legacy.gems (Legacy.proses_string line s).2 = Legacy.gems s.
Proof.
  intros Hw. unfold Legacy.proses_string.
  destruct (split (strip line)) as [| part0 args]; [split; reflexivity |].
  cbv zeta.
  unfold Legacy._register_player, Legacy._set_player_state,
    Legacy._get_player_info, Legacy._get_game_state, Legacy._collect_gem,
    Legacy._check_hazard_collision, Legacy._player_at_exit.
  rewrite Hw.
  repeat case_if; repeat case_match; split; reflexivity.
Qed.

(** ** Properties of the single-level engine *)

(** X16. In the single-level engine a game that has a winner keeps it for
    good: whatever requests follow, [reset_game] included, the winner and
    the gems on the map stay as they are. *)
Theorem legacy_game_never_restarts (s s' : Legacy.game) (w : string) :
  legacy_reachable s ->
  Legacy.winner s = Some w ->
  rtc legacy_step s s' ->
  Legacy.winner s' = Some w ∧ Legacy.gems s' = Legacy.gems s.
Proof.
  intros Hr Hw Hrun.
  assert (Ht : truthy (Legacy.winner s) = true).
  { destruct (legacy_reachable_sound s Hr) as (_ & _ & [Hn | [c Hc]] & _);
      [congruence |].
    rewrite Hc. apply legacy_truthy_id. }
  clear Hr. revert w Hw Ht.
  induction Hrun as [| a b c [line ->] _ IH]; intros w Hw Ht;
    [split; [exact Hw | reflexivity] |].
  destruct (legacy_winner_kept line a Ht) as [Hkw Hkg].
  destruct (IH w) as [Hw' Hg']; [congruence | congruence |].
  split; [exact Hw' | congruence].
Qed.

Lemma legacy_game_never_restarts_witness :
  Legacy.winner (Legacy.proses_string "reset_game" legacy_white_won).2
  = Some "player_white".
Proof.
  refine (proj1 (legacy_game_never_restarts legacy_white_won
                   (Legacy.proses_string "reset_game" legacy_white_won).2
                   "player_white" legacy_white_won_reachable _ _)).
  - vm_compute. reflexivity.
  - apply rtc_once. exists "reset_game". reflexivity.
Defined.

(** X17. In every reachable state of the single-level engine the level is the
    one built at start: the same walls, hazards and exit, and three gems
    required of each colour. *)
Theorem legacy_level_is_fixed (s : Legacy.game) :
  legacy_reachable s ->
  Legacy.walls s = Legacy.walls Legacy.init
  ∧ Legacy.hazards s = Legacy.hazards Legacy.init
  ∧ Legacy.exit_area s = mk_rect 280 40 80 80
  ∧ Legacy.black_gems_required s = 3
  ∧ Legacy.white_gems_required s = 3.
Proof.
  intros Hr. destruct (legacy_reachable_sound s Hr) as (_ & _ & _ & Hlv).
  unfold legacy_level in Hlv.
  injection Hlv as Hwl Hhz Hex Hb Hwt.
  rewrite Hwl, Hhz, Hex, Hb, Hwt. repeat split.
Qed.

Lemma legacy_level_is_fixed_witness :
  Legacy.black_gems_required legacy_white_won = 3.
Proof.
  exact (proj1 (proj2 (proj2 (proj2
    (legacy_level_is_fixed legacy_white_won legacy_white_won_reachable))))).
Defined.

(** X18. In every reachable state of the single-level engine the gems a player
    has collected and the gems of its colour still on the map add up to
    three, and the player sits under the identifier of its colour. *)
Theorem legacy_gems_add_up (s : Legacy.game) (pid : string) (p : player) :
  legacy_reachable s ->
  Legacy.players s !! pid = Some p ->
  pid = player_id_of (color_type p)
  ∧ gems_collected p + Z.of_nat (legacy_remaining (color_type p) s) = 3
  ∧ 0 <= gems_collected p <= 3.
Proof.
  intros Hr Hp.
  destruct (legacy_reachable_sound s Hr) as (Hids & Hacc & _ & Hlv).
  destruct (Hacc (color_type p)) as [Hnn Hsum].
  unfold legacy_level in Hlv. injection Hlv as _ _ _ Hb Hwt.
  assert (Hreq : legacy_required (color_type p) s = 3)
    by (unfold legacy_required; destruct (color_type p); assumption).
  unfold legacy_collected_by in *.
  rewrite <- (Hids pid p Hp), Hp in Hnn, Hsum.
  split; [exact (Hids pid p Hp) | lia].
Qed.

Lemma legacy_gems_add_up_witness :
  gems_collected (mk_player black 70 336 1 0 false)
  + Z.of_nat (legacy_remaining black legacy_black_registered) = 3.
Proof.
  exact (proj1 (proj2 (legacy_gems_add_up legacy_black_registered
                   "player_black" (mk_player black 70 336 1 0 false)
                   legacy_black_registered_reachable
                   ltac:(vm_compute; reflexivity)))).
Defined.

(** X19. In a reachable state of the single-level engine without winner, a
    player who arrives at the exit wins exactly when no gem of its colour
    is left on the map. *)
Theorem legacy_exit_wins_when_no_gem_left
    (s : Legacy.game) (pid : string) (p : player) :
  legacy_reachable s ->
  Legacy.winner s = None ->
  Legacy.players s !! pid = Some p ->
  Legacy.winner (Legacy._player_at_exit pid s).2 = Some pid
  <-> legacy_remaining (color_type p) s = 0%nat.
Proof.
  intros Hr Hw Hp.
  destruct (legacy_reachable_sound s Hr) as (Hids & Hacc & _ & Hlv).
  destruct (Hacc (color_type p)) as [Hnn Hsum].
  unfold legacy_level in Hlv. injection Hlv as _ _ _ Hb Hwt.
  unfold legacy_collected_by, legacy_required in *.
  rewrite <- (Hids pid p Hp), Hp in Hnn, Hsum.
  unfold Legacy._player_at_exit. rewrite Hw, Hp. cbn [truthy snd].
  unfold Legacy._check_race_win_condition.
  cbn [Legacy.winner Legacy.set_players Legacy.black_gems_required
       Legacy.white_gems_required color_type at_exit gems_collected andb].
  rewrite Hw. cbn [truthy].
  destruct (color_type p); rewrite ?Hb, ?Hwt in *;
    case_if; bool_to_prop; split; intros H;
    cbn [Legacy.winner Legacy.set_winner Legacy.set_players] in *;
    first [lia | congruence].
Qed.

Lemma legacy_exit_wins_when_no_gem_left_witness :
  Legacy.winner (Legacy._player_at_exit "player_black"
                   legacy_black_registered).2 = Some "player_black"
  <-> legacy_remaining black legacy_black_registered = 0%nat.
Proof.
  exact (legacy_exit_wins_when_no_gem_left legacy_black_registered
           "player_black" (mk_player black 70 336 1 0 false)
           legacy_black_registered_reachable
           ltac:(vm_compute; reflexivity) ltac:(vm_compute; reflexivity)).
Defined.

(** X20. The function [_reset_game] that stands below the class would, were it
    called, answer OK and restore the state the engine starts in, whatever
    the state it is called in. *)
Theorem legacy_reset_function_restores (s : Legacy.game) :
  Legacy._reset_game s = (Legacy.Status OK "Game state reset.", Legacy.init).
Proof. destruct s. vm_compute. reflexivity. Qed.
